(** * mysql_to_pgsql.py: the MySQL to PostgreSQL dump converter

    A shallow embedding of [convert_mysql_to_postgres] of
    [src/mysql_to_pgsql.py] and the properties its specification states.

    The converter is a pipeline of [re.sub] calls over the whole dump,
    followed by a line scan that moves foreign keys to the end of the dump.
    The embedding has three layers:

    - [Chars], [Text]: characters, character classes and the [str] methods
      the converter calls ([replace], [split], [join], [upper], [strip],
      [rstrip], [in]);
    - [Re]: a backtracking matcher with the priorities of Python's [re]
      (greedy and lazy repetition, ordered alternation, groups, [\b],
      negative lookahead) and [re.sub], [re.search], [re.match] on top
      of it;
    - [Converter]: each pattern of the source as a term of [Re.regex], each
      statement of the function as a definition, in source order.

    Documents are sequences of 8-bit characters.  The classes [\s], [\w],
    [\d] and the case folding are those of Python on the characters below
    128 (there [\s] also holds the separators 28..31); a character at or
    above 128 is in no class and has no case, while Python, on the
    decoded text, has white space, letters, digits and letter case there
    too.  So the embedding is the converter on the texts of characters
    below 128, [ascii_text]: a statement that bounds a class or a letter
    case on a free text assumes [ascii_text] of that text. *)

From Stdlib Require Import Ascii String List Bool Arith Lia.
Import ListNotations.

Set Implicit Arguments.

(** ** Characters *)

Module Chars.

Definition code (c : ascii) : nat := nat_of_ascii c.

Definition between (lo hi : nat) (c : ascii) : bool :=
  (lo <=? code c) && (code c <=? hi).

Definition is_digit (c : ascii) : bool := between 48 57 c.
Definition is_upper (c : ascii) : bool := between 65 90 c.
Definition is_lower (c : ascii) : bool := between 97 122 c.

(** [str.isspace] and [\s]: tab, line feed, vertical tab, form feed,
    carriage return, the four separators 28..31 and the space. *)
Definition is_space (c : ascii) : bool :=
  between 9 13 c || between 28 32 c.

(** [\w]: letters, digits and the underscore. *)
Definition is_word (c : ascii) : bool :=
  is_digit c || is_upper c || is_lower c || (code c =? 95).

Definition lower (c : ascii) : ascii :=
  if is_upper c then ascii_of_nat (code c + 32) else c.

Definition upper (c : ascii) : ascii :=
  if is_lower c then ascii_of_nat (code c - 32) else c.

(** The characters below 128, on which the classes and the case folding
    of the embedding are those of Python. *)
Definition is_ascii (c : ascii) : bool := code c <? 128.

Definition eqc (a b : ascii) : bool := Ascii.eqb a b.

Arguments eqc : simpl never.

Definition nl : ascii := "010"%char.

(** White space other than the line feed. *)
Definition is_blank (c : ascii) : bool := is_space c && negb (eqc c nl).

(** Equality of two characters under [re.IGNORECASE]. *)
Definition eqc_nocase (a b : ascii) : bool := eqc (lower a) (lower b).

Definition dq : ascii := "034"%char.
Definition sq : ascii := "039"%char.
Definition bslash : ascii := "092"%char.
Definition backtick : ascii := "096"%char.

End Chars.

Import Chars.

(** ** Text and the [str] methods *)

Module Text.

Definition text := list ascii.

Definition str (s : string) : text := list_ascii_of_string s.

Arguments str : simpl never.

(** A literal in which a backtick stands for the double quote. *)
Definition qstr (s : string) : text :=
  map (fun c => if eqc c backtick then dq else c) (str s).

Fixpoint teq (a b : text) : bool :=
  match a, b with
  | [], [] => true
  | x :: a', y :: b' => eqc x y && teq a' b'
  | _, _ => false
  end.

(** [s.startswith(w)]. *)
Fixpoint starts (w s : text) : bool :=
  match w, s with
  | [], _ => true
  | x :: w', y :: s' => eqc x y && starts w' s'
  | _ :: _, [] => false
  end.

(** [w in s]. *)
Fixpoint contains (w s : text) : bool :=
  starts w s ||
  match s with
  | [] => false
  | _ :: s' => contains w s'
  end.

(** The texts of characters below 128. *)
Definition ascii_text (s : text) : bool := forallb is_ascii s.

(** [w in s] without regard to the case of the letters below 128; on an
    [ascii_text] this is the occurrence that a literal pattern finds
    under [re.IGNORECASE]. *)
Definition contains_nocase (w s : text) : bool :=
  contains (map lower w) (map lower s).

(** The first character of [s] exists and satisfies [p]. *)
Definition head_is (p : ascii -> bool) (s : text) : bool :=
  match s with
  | c :: _ => p c
  | [] => false
  end.

(** [s.upper()]. *)
Definition to_upper (s : text) : text := map upper s.
Definition to_lower (s : text) : text := map lower s.

(** [s.replace(old, new)] for a non-empty [old]: the occurrences of [old]
    are taken from the left and do not overlap.  [skip] counts the
    characters of the occurrence under way that are still to be passed. *)
Fixpoint replace_go (old new : text) (s : text) (skip : nat) : text :=
  match s with
  | [] => []
  | c :: s' =>
      match skip with
      | S n => replace_go old new s' n
      | 0 =>
          if starts old s
          then new ++ replace_go old new s' (length old - 1)
          else c :: replace_go old new s' 0
      end
  end.

Definition replace (old new s : text) : text := replace_go old new s 0.

(** [s.split('\n')]: one more line than there are line feeds. *)
Fixpoint split_lines (s : text) : list text :=
  match s with
  | [] => [[]]
  | c :: s' =>
      if eqc c nl then [] :: split_lines s'
      else match split_lines s' with
           | l :: ls => (c :: l) :: ls
           | [] => [[c]]
           end
  end.

(** [sep.join(parts)]. *)
Fixpoint join (sep : text) (parts : list text) : text :=
  match parts with
  | [] => []
  | [p] => p
  | p :: ps => p ++ sep ++ join sep ps
  end.

Fixpoint lstrip_by (p : ascii -> bool) (s : text) : text :=
  match s with
  | c :: s' => if p c then lstrip_by p s' else s
  | [] => []
  end.

Definition rstrip_by (p : ascii -> bool) (s : text) : text :=
  rev (lstrip_by p (rev s)).

(** [s.rstrip(',')] and [s.strip()]. *)
Definition rstrip_commas (s : text) : text := rstrip_by (eqc ","%char) s.
Definition strip (s : text) : text := rstrip_by is_space (lstrip_by is_space s).

End Text.

Import Text.

(** ** Regular expressions with the semantics of Python's [re] *)

Module Re.

(** One-character classes. *)
Inductive cset : Type :=
| CChar (c : ascii)          (* a literal character *)
| CAny                       (* [.] *)
| CDigit                     (* [\d] *)
| CSpace                     (* [\s] *)
| CWord                      (* [\w] *)
| CNot (c : ascii)           (* [[^c]] *)
| COr (a b : cset).          (* a set with two members, as [[\d\s]] *)

(** The patterns of the converter repeat classes only, so repetition is
    over a class; that keeps the matcher structural. *)
Inductive regex : Type :=
| Lit (w : text)             (* a literal string *)
| Cls (cs : cset)            (* one character of a class *)
| Star (cs : cset)           (* [cs*], greedy *)
| StarLazy (cs : cset)       (* [cs*?] *)
| Seq (a b : regex)
| Alt (a b : regex)          (* [a|b], [a] first *)
| Opt (a : regex)            (* [a?], greedy *)
| Group (n : nat) (a : regex)
| WordB                      (* [\b] *)
| NotAhead (a : regex).      (* [(?!a)] *)

(** [cs+]. *)
Definition Plus (cs : cset) : regex := Seq (Cls cs) (Star cs).

Fixpoint cat (rs : list regex) : regex :=
  match rs with
  | [] => Lit []
  | [r] => r
  | r :: rs' => Seq r (cat rs')
  end.

Record flags : Type := Flags { ignorecase : bool; dotall : bool }.

Definition no_flags : flags := Flags false false.
Definition IGNORECASE : flags := Flags true false.
Definition DOTALL : flags := Flags false true.

(** Groups that took part in the match, the latest first. *)
Definition caps := list (nat * text).

Fixpoint group (n : nat) (cp : caps) : text :=
  match cp with
  | [] => []
  | (i, t) :: cp' => if i =? n then t else group n cp'
  end.

(** The part of [s] consumed when [rest] is what remains of it. *)
Definition taken (s rest : text) : text :=
  firstn (length s - length rest) s.

(** The character before the position reached after passing [a]. *)
Fixpoint last_of (a : text) (prev : option ascii) : option ascii :=
  match a with
  | [] => prev
  | c :: a' => last_of a' (Some c)
  end.

Definition word_at (c : option ascii) : bool :=
  match c with
  | Some x => is_word x
  | None => false
  end.

Section Matcher.

Variable f : flags.

(** A character of a pattern against a character of the text; under
    [re.IGNORECASE] the letters below 128 are compared without case
    (Python also folds a few characters above 127 onto them, which an
    [ascii_text] does not hold). *)
Definition eq_lit (a c : ascii) : bool :=
  if ignorecase f then eqc_nocase a c else eqc a c.

(** The classes on the characters below 128 (Python's classes also hold
    characters above 127, which an [ascii_text] does not hold). *)
Fixpoint mem (cs : cset) (c : ascii) : bool :=
  match cs with
  | CChar a => eq_lit a c
  | CAny => dotall f || negb (eqc c nl)
  | CDigit => is_digit c
  | CSpace => is_space c
  | CWord => is_word c
  | CNot a => negb (eq_lit a c)
  | COr a b => mem a c || mem b c
  end.

(** A match is a remainder of the text and the groups set on the way. *)
Definition result := option (text * caps).

(** A continuation gets the character before the position, the text from
    the position on and the groups. *)
Definition cont := option ascii -> text -> caps -> result.

(** The literal [w] at the head of [s]: the last character passed and
    the remainder. *)
Fixpoint lit (w : text) (prev : option ascii) (s : text)
  : option (option ascii * text) :=
  match w with
  | [] => Some (prev, s)
  | a :: w' =>
      match s with
      | c :: s' => if eq_lit a c then lit w' (Some c) s' else None
      | [] => None
      end
  end.

(** Greedy repetition: the longest run first, then shorter ones. *)
Fixpoint star_greedy (p : ascii -> bool) (prev : option ascii) (s : text)
  (k : option ascii -> text -> result) : result :=
  match s with
  | c :: s' =>
      if p c
      then match star_greedy p (Some c) s' k with
           | Some r => Some r
           | None => k prev s
           end
      else k prev s
  | [] => k prev s
  end.

(** Lazy repetition: the empty run first, then longer ones. *)
Fixpoint star_lazy (p : ascii -> bool) (prev : option ascii) (s : text)
  (k : option ascii -> text -> result) : result :=
  match k prev s with
  | Some r => Some r
  | None =>
      match s with
      | c :: s' => if p c then star_lazy p (Some c) s' k else None
      | [] => None
      end
  end.

(** The backtracking matcher: [m r prev s cp k] is the first match, in
    the order of Python's priorities, of [r] at the head of [s] that [k]
    accepts. *)
Fixpoint m (r : regex) (prev : option ascii) (s : text) (cp : caps)
  (k : cont) : result :=
  match r with
  | Lit w =>
      match lit w prev s with
      | Some (p, s') => k p s' cp
      | None => None
      end
  | Cls cs =>
      match s with
      | c :: s' => if mem cs c then k (Some c) s' cp else None
      | [] => None
      end
  | Star cs => star_greedy (mem cs) prev s (fun p s' => k p s' cp)
  | StarLazy cs => star_lazy (mem cs) prev s (fun p s' => k p s' cp)
  | Seq a b => m a prev s cp (fun p s' cp' => m b p s' cp' k)
  | Alt a b =>
      match m a prev s cp k with
      | Some x => Some x
      | None => m b prev s cp k
      end
  | Opt a =>
      match m a prev s cp k with
      | Some x => Some x
      | None => k prev s cp
      end
  | Group n a =>
      m a prev s cp (fun p s' cp' => k p s' ((n, taken s s') :: cp'))
  | WordB =>
      if xorb (word_at prev) (word_at (hd_error s)) then k prev s cp
      else None
  | NotAhead a =>
      match m a prev s cp (fun _ s' cp' => Some (s', cp')) with
      | Some _ => None
      | None => k prev s cp
      end
  end.

Definition accept : cont := fun _ s cp => Some (s, cp).

(** A match of [r] that starts at the head of [s]. *)
Definition match_at (r : regex) (prev : option ascii) (s : text) : result :=
  m r prev s [] accept.

(** The same, for a match that is not empty. *)
Definition match_nonempty (r : regex) (prev : option ascii) (s : text)
  : result :=
  m r prev s []
    (fun _ s' cp => if length s' <? length s then Some (s', cp) else None).

(** [re.match(r, s)]: the text matched and the groups. *)
Definition re_match (r : regex) (s : text) : option (text * caps) :=
  match match_at r None s with
  | Some (rest, cp) => Some (taken s rest, cp)
  | None => None
  end.

(** [re.search(r, s)]: the leftmost match. *)
Fixpoint search_go (r : regex) (prev : option ascii) (s : text)
  : option (text * caps) :=
  match match_at r prev s with
  | Some (rest, cp) => Some (taken s rest, cp)
  | None =>
      match s with
      | [] => None
      | c :: s' => search_go r (Some c) s'
      end
  end.

Definition search (r : regex) (s : text) : option (text * caps) :=
  search_go r None s.

Definition found (r : regex) (s : text) : bool :=
  match search r s with
  | Some _ => true
  | None => false
  end.

(** [re.sub(r, repl, s)]: the matches are taken from the left and do not
    overlap; [repl] gets the text matched and the groups.  [skip] counts
    the characters of the match under way that are still to be passed.
    After an empty match the next match at the same place must not be
    empty (Python 3.7 and later). *)
Section Sub.

Variable r : regex.
Variable repl : text -> caps -> text.

Fixpoint sub_go (prev : option ascii) (s : text) (skip : nat) : text :=
  match skip with
  | S n =>
      match s with
      | [] => []
      | c :: s' => sub_go (Some c) s' n
      end
  | 0 =>
      match match_at r prev s with
      | None =>
          match s with
          | [] => []
          | c :: s' => c :: sub_go (Some c) s' 0
          end
      | Some (rest, cp) =>
          match length (taken s rest) with
          | S n =>
              repl (taken s rest) cp ++
              match s with
              | [] => []
              | c :: s' => sub_go (Some c) s' n
              end
          | 0 =>
              repl [] cp ++
              match match_nonempty r prev s with
              | Some (rest2, cp2) =>
                  repl (taken s rest2) cp2 ++
                  match s with
                  | [] => []
                  | c :: s' =>
                      sub_go (Some c) s' (length (taken s rest2) - 1)
                  end
              | None =>
                  match s with
                  | [] => []
                  | c :: s' => c :: sub_go (Some c) s' 0
                  end
              end
          end
      end
  end.

Definition sub (s : text) : text := sub_go None s 0.

End Sub.

(** A character and a text as the flags compare them. *)
Definition normc (c : ascii) : ascii := if ignorecase f then lower c else c.
Definition norm (s : text) : text := map normc s.

(** [w'] is the literal [w] as the flags read it: the same characters,
    up to case under [re.IGNORECASE]. *)
Fixpoint same (w w' : text) : bool :=
  match w, w' with
  | [], [] => true
  | a :: w1, c :: w2 => eq_lit a c && same w1 w2
  | _, _ => false
  end.

(** No match of [r] starts in [a], when [a] is followed by [b]. *)
Fixpoint no_match_in (r : regex) (prev : option ascii) (a b : text) : bool :=
  match a with
  | [] => true
  | c :: a' =>
      match match_at r prev (a ++ b) with
      | Some _ => false
      | None => no_match_in r (Some c) a' b
      end
  end.

End Matcher.

(** Patterns that do not look at the character before the position. *)
Fixpoint wordb_free (r : regex) : bool :=
  match r with
  | Lit _ | Cls _ | Star _ | StarLazy _ => true
  | Seq a b | Alt a b => wordb_free a && wordb_free b
  | Opt a | Group _ a | NotAhead a => wordb_free a
  | WordB => false
  end.

(** The text after a repetition of [p] cannot go on with [p]. *)
Definition stops (p : ascii -> bool) (rest : text) : Prop :=
  match rest with
  | [] => True
  | c :: _ => p c = false
  end.

(** Continuations that do not look at the character before. *)
Definition blind (k : cont) : Prop :=
  forall p p' s cp, k p s cp = k p' s cp.

(** Replacement by a fixed text, and by a text after group 1. *)
Definition const (t : text) : text -> caps -> text := fun _ _ => t.
Definition group1_then (t : text) : text -> caps -> text :=
  fun _ cp => group 1 cp ++ t.

End Re.

Import Re.

(** ** The converter *)

Module Converter.

(** *** The rewriting rules, in the order of the source *)

(** [/\*![\d\s]*.*?\*/;?] with [re.DOTALL]. *)
Definition mysql_comment_re : regex :=
  cat [Lit (str "/*!"); Star (COr CDigit CSpace); StarLazy CAny;
       Lit (str "*/"); Opt (Lit (str ";"))].

Definition strip_mysql_comments : text -> text :=
  sub DOTALL mysql_comment_re (const []).

(** [SET @OLD_.*?;] and [SET @saved_.*?;]. *)
Definition set_old_re : regex :=
  cat [Lit (str "SET @OLD_"); StarLazy CAny; Lit (str ";")].
Definition set_saved_re : regex :=
  cat [Lit (str "SET @saved_"); StarLazy CAny; Lit (str ";")].

Definition strip_set_old : text -> text := sub no_flags set_old_re (const []).
Definition strip_set_saved : text -> text :=
  sub no_flags set_saved_re (const []).

(** [INSERT INTO.*?;] with [re.DOTALL], and the function applied to each
    match. *)
Definition insert_re : regex :=
  cat [Lit (str "INSERT INTO"); StarLazy CAny; Lit (str ";")].

Definition escaped_quote : text := [bslash; sq].
Definition doubled_quote : text := [sq; sq].

Definition fix_quotes_in_inserts (insert_stmt : text) (_ : caps) : text :=
  replace escaped_quote doubled_quote insert_stmt.

Definition fix_inserts : text -> text :=
  sub DOTALL insert_re fix_quotes_in_inserts.

(** [LOCK TABLES `.*?` WRITE;] and [UNLOCK TABLES;]. *)
Definition lock_re : regex :=
  cat [Lit (str "LOCK TABLES `"); StarLazy CAny; Lit (str "` WRITE;")].
Definition unlock_re : regex := Lit (str "UNLOCK TABLES;").

Definition strip_lock : text -> text := sub no_flags lock_re (const []).
Definition strip_unlock : text -> text := sub no_flags unlock_re (const []).

(** [content.replace] of the backtick by the double quote. *)
Definition quote_identifiers : text -> text := replace [backtick] [dq].

(** [\s*ENGINE\s*=\s*\w+] and the two table options of the same shape. *)
Definition table_option_re (name : text) : regex :=
  cat [Star CSpace; Lit name; Star CSpace; Lit (str "="); Star CSpace;
       Plus CWord].

Definition strip_engine : text -> text :=
  sub IGNORECASE (table_option_re (str "ENGINE")) (const []).
Definition strip_default_charset : text -> text :=
  sub IGNORECASE (table_option_re (str "DEFAULT CHARSET")) (const []).
Definition strip_collate_option : text -> text :=
  sub IGNORECASE (table_option_re (str "COLLATE")) (const []).

(** [\s+CHARACTER SET\s+\w+] and [\s+COLLATE\s+\w+]. *)
Definition column_option_re (name : text) : regex :=
  cat [Plus CSpace; Lit name; Plus CSpace; Plus CWord].

Definition strip_character_set : text -> text :=
  sub IGNORECASE (column_option_re (str "CHARACTER SET")) (const []).
Definition strip_collate : text -> text :=
  sub IGNORECASE (column_option_re (str "COLLATE")) (const []).

(** [\s*AUTO_INCREMENT\s*=\s*\d+]. *)
Definition auto_increment_option_re : regex :=
  cat [Star CSpace; Lit (str "AUTO_INCREMENT"); Star CSpace; Lit (str "=");
       Star CSpace; Plus CDigit].

Definition strip_auto_increment_option : text -> text :=
  sub IGNORECASE auto_increment_option_re (const []).

(** [(Q?\w+Q?)\s+(int|bigint|smallint)\s+NOT\s+NULL\s+AUTO_INCREMENT],
    where Q is the double quote, replaced by [\1 SERIAL]. *)
Definition quoted_name_re : regex :=
  cat [Opt (Lit [dq]); Plus CWord; Opt (Lit [dq])].

Definition int_type_re : regex :=
  Alt (Lit (str "int")) (Alt (Lit (str "bigint")) (Lit (str "smallint"))).

Definition not_null_auto_increment_re : regex :=
  cat [Plus CSpace; Lit (str "NOT"); Plus CSpace; Lit (str "NULL");
       Plus CSpace; Lit (str "AUTO_INCREMENT")].

Definition auto_increment_re : regex :=
  cat [Group 1 quoted_name_re; Plus CSpace; Group 2 int_type_re;
       not_null_auto_increment_re].

Definition auto_increment_to_serial : text -> text :=
  sub IGNORECASE auto_increment_re (group1_then (str " SERIAL")).

(** [\b(int)\b(?!\s+SERIAL)]. *)
Definition int_re : regex :=
  cat [WordB; Group 1 (Lit (str "int")); WordB;
       NotAhead (cat [Plus CSpace; Lit (str "SERIAL")])].

Definition int_to_integer : text -> text :=
  sub IGNORECASE int_re (const (str "INTEGER")).

(** [\bw\b] for a word [w]. *)
Definition word_re (w : text) : regex := cat [WordB; Lit w; WordB].

Definition rename_word (w new : text) : text -> text :=
  sub IGNORECASE (word_re w) (const new).

Definition double_to_double_precision : text -> text :=
  rename_word (str "double") (str "DOUBLE PRECISION").

(** [tinyint\(1\)]. *)
Definition tinyint1_re : regex := Lit (str "tinyint(1)").

Definition tinyint1_to_boolean : text -> text :=
  sub IGNORECASE tinyint1_re (const (str "BOOLEAN")).

(** [tinyint(\(\d+\))?]. *)
Definition tinyint_re : regex :=
  cat [Lit (str "tinyint");
       Opt (Group 1 (cat [Lit (str "("); Plus CDigit; Lit (str ")")]))].

Definition tinyint_to_smallint : text -> text :=
  sub IGNORECASE tinyint_re (const (str "SMALLINT")).

(** Lines 76 to 80: the boolean rule, then the small integer rule. *)
Definition tinyint_rules (s : text) : text :=
  tinyint_to_smallint (tinyint1_to_boolean s).

Definition datetime_to_timestamp : text -> text :=
  rename_word (str "datetime") (str "TIMESTAMP").
Definition varchar_case : text -> text :=
  rename_word (str "varchar") (str "VARCHAR").
Definition longtext_to_text : text -> text :=
  rename_word (str "longtext") (str "TEXT").
Definition mediumtext_to_text : text -> text :=
  rename_word (str "mediumtext") (str "TEXT").

(** [(TIMESTAMP\s+NOT\s+NULL\s+DEFAULT\s+CURRENT_TIMESTAMP)\s+ON\s+UPDATE\s+CURRENT_TIMESTAMP],
    replaced by [\1]. *)
Definition on_update_re : regex :=
  cat [Group 1 (cat [Lit (str "TIMESTAMP"); Plus CSpace; Lit (str "NOT");
                     Plus CSpace; Lit (str "NULL"); Plus CSpace;
                     Lit (str "DEFAULT"); Plus CSpace;
                     Lit (str "CURRENT_TIMESTAMP")]);
       Plus CSpace; Lit (str "ON"); Plus CSpace; Lit (str "UPDATE");
       Plus CSpace; Lit (str "CURRENT_TIMESTAMP")].

Definition strip_on_update : text -> text :=
  sub IGNORECASE on_update_re (group1_then []).

Definition current_timestamp_to_now : text -> text :=
  rename_word (str "CURRENT_TIMESTAMP") (str "NOW()").

(** Lines 82 to 90: the timestamp and text rules. *)
Definition word_type_rules (s : text) : text :=
  mediumtext_to_text
    (longtext_to_text (varchar_case (datetime_to_timestamp s))).

(** The rules on lines 76 to 90: boolean, small integer, timestamp and
    text types. *)
Definition normalize_types (content : text) : text :=
  let content := tinyint1_to_boolean content in
  let content := tinyint_to_smallint content in
  let content := datetime_to_timestamp content in
  let content := varchar_case content in
  let content := longtext_to_text content in
  mediumtext_to_text content.

(** Lines 16 to 103. *)
Definition rewrite_rules (content : text) : text :=
  let content := strip_mysql_comments content in
  let content := strip_set_old content in
  let content := strip_set_saved content in
  let content := fix_inserts content in
  let content := strip_lock content in
  let content := strip_unlock content in
  let content := quote_identifiers content in
  let content := strip_engine content in
  let content := strip_default_charset content in
  let content := strip_collate_option content in
  let content := strip_character_set content in
  let content := strip_collate content in
  let content := strip_auto_increment_option content in
  let content := auto_increment_to_serial content in
  let content := int_to_integer content in
  let content := double_to_double_precision content in
  let content := normalize_types content in
  let content := strip_on_update content in
  current_timestamp_to_now content.

(** *** The line scan that defers foreign keys *)

(** One element of [foreign_keys]. *)
Record foreign_key : Type := ForeignKey {
  fk_table : text;
  fk_constraint : text;
  fk_columns : text;
  fk_ref_table : text;
  fk_ref_columns : text;
  fk_actions : text
}.

(** The variables of the loop. *)
Record scan_state : Type := ScanState {
  new_lines : list text;
  foreign_keys : list foreign_key;
  in_create_table : bool;
  current_table : option text
}.

Definition scan_start : scan_state := ScanState [] [] false None.

(** [CREATE TABLE\s+Q([^Q]+)Q], Q the double quote. *)
Definition create_table_re : regex :=
  cat [Lit (str "CREATE TABLE"); Plus CSpace; Lit [dq];
       Group 1 (Plus (CNot dq)); Lit [dq]].

(** [CONSTRAINT\s+Q[^Q]+Q\s+FOREIGN KEY]. *)
Definition fk_clause_re : regex :=
  cat [Lit (str "CONSTRAINT"); Plus CSpace; Lit [dq]; Plus (CNot dq);
       Lit [dq]; Plus CSpace; Lit (str "FOREIGN KEY")].

(** [CONSTRAINT\s+Q([^Q]+)Q\s+FOREIGN KEY\s+\(([^)]+)\)\s+REFERENCES\s+Q([^Q]+)Q\s+\(([^)]+)\)(.+)]. *)
Definition fk_parts_re : regex :=
  cat [Lit (str "CONSTRAINT"); Plus CSpace; Lit [dq];
       Group 1 (Plus (CNot dq)); Lit [dq]; Plus CSpace;
       Lit (str "FOREIGN KEY"); Plus CSpace; Lit (str "(");
       Group 2 (Plus (CNot ")"%char)); Lit (str ")"); Plus CSpace;
       Lit (str "REFERENCES"); Plus CSpace; Lit [dq];
       Group 3 (Plus (CNot dq)); Lit [dq]; Plus CSpace; Lit (str "(");
       Group 4 (Plus (CNot ")"%char)); Lit (str ")");
       Group 5 (Plus CAny)].

(** [\s*KEY\s+Q], tried at the start of the line. *)
Definition key_re : regex :=
  cat [Star CSpace; Lit (str "KEY"); Plus CSpace; Lit [dq]].

(** The tests of the loop body. *)
Definition opens_table (line : text) : bool :=
  contains (str "CREATE TABLE") (to_upper line).

Definition is_fk_line (line : text) : bool := found IGNORECASE fk_clause_re line.

Definition is_key_line (line : text) : bool :=
  match re_match IGNORECASE key_re line with
  | Some _ => true
  | None => false
  end.

Definition closes_table (line : text) : bool :=
  contains (str ")") line && contains (str ";") line.

(** The truth value of [current_table]: neither [None] nor empty. *)
Definition named (t : option text) : option text :=
  match t with
  | Some (c :: n) => Some (c :: n)
  | _ => None
  end.

(** Lines 115 to 120. *)
Definition track_table (st : scan_state) (line : text) : scan_state :=
  if opens_table line
  then ScanState (new_lines st) (foreign_keys st) true
         (match search IGNORECASE create_table_re line with
          | Some (_, cp) => Some (group 1 cp)
          | None => current_table st
          end)
  else st.

(** Lines 125 to 144: the record of the line, when the full pattern
    matches and a table name is known. *)
Definition parse_fk (table : option text) (line : text)
  : option foreign_key :=
  match search IGNORECASE fk_parts_re line, named table with
  | Some (_, cp), Some t =>
      Some (ForeignKey t (group 1 cp) (group 2 cp) (group 3 cp)
              (group 4 cp) (strip (rstrip_commas (group 5 cp))))
  | _, _ => None
  end.

(** The body of the loop, lines 114 to 158. *)
Definition scan_line (st : scan_state) (line : text) : scan_state :=
  let st := track_table st line in
  if in_create_table st && is_fk_line line then
    match parse_fk (current_table st) line with
    | Some fk =>
        ScanState (new_lines st) (foreign_keys st ++ [fk])
          (in_create_table st) (current_table st)
    | None => st
    end
  else if in_create_table st && is_key_line line then st
  else if in_create_table st && closes_table line then
    ScanState (new_lines st ++ [line]) (foreign_keys st) false None
  else
    ScanState (new_lines st ++ [line]) (foreign_keys st)
      (in_create_table st) (current_table st).

Definition scan_from (st : scan_state) (lines : list text) : scan_state :=
  fold_left scan_line lines st.

Definition scan (lines : list text) : scan_state := scan_from scan_start lines.

(** *** After the scan *)

(** [,(\s*\n\s*\);)], replaced by [\1]. *)
Definition trailing_comma_re : regex :=
  cat [Lit (str ",");
       Group 1 (cat [Star CSpace; Lit [nl]; Star CSpace; Lit (str ");")])].

Definition cleanup_trailing_commas : text -> text :=
  sub no_flags trailing_comma_re (group1_then []).

Definition fk_banner : text :=
  [nl; nl] ++
  str "-- Foreign key constraints (added after table creation to avoid dependency issues)"
  ++ [nl].

(** The f-string of line 169. *)
Definition fk_stmt (fk : foreign_key) : text :=
  qstr "ALTER TABLE `" ++ fk_table fk ++ qstr "` ADD CONSTRAINT `" ++
  fk_constraint fk ++ qstr "` FOREIGN KEY (" ++ fk_columns fk ++
  qstr ") REFERENCES `" ++ fk_ref_table fk ++ qstr "` (" ++
  fk_ref_columns fk ++ str ") " ++ fk_actions fk ++ str ";".

(** Lines 166 to 171; the loop appends one statement per record. *)
Definition fk_statements (fks : list foreign_key) : list text :=
  fold_left (fun stmts fk => stmts ++ [fk_stmt fk]) fks [fk_banner].

Definition add_foreign_keys (content : text) (fks : list foreign_key)
  : text :=
  match fks with
  | [] => content
  | _ :: _ => content ++ join [nl] (fk_statements fks)
  end.

(** [ALTER TABLE Q.*?Q DISABLE KEYS;?] and its ENABLE twin. *)
Definition keys_re (which : text) : regex :=
  cat [Lit (qstr "ALTER TABLE `"); StarLazy CAny; Lit [dq]; Lit which;
       Opt (Lit (str ";"))].

Definition strip_disable_keys : text -> text :=
  sub IGNORECASE (keys_re (str " DISABLE KEYS")) (const []).
Definition strip_enable_keys : text -> text :=
  sub IGNORECASE (keys_re (str " ENABLE KEYS")) (const []).

(** [\n\s*\n\s*\n+], replaced by two line feeds; [two_line_feeds] is
    its end, [\n\s*\n+]. *)
Definition two_line_feeds : regex :=
  cat [Lit [nl]; Star CSpace; Plus (CChar nl)].

Definition blank_lines_re : regex :=
  cat [Lit [nl]; Star CSpace; two_line_feeds].

Definition collapse_blank_lines : text -> text :=
  sub no_flags blank_lines_re (const [nl; nl]).

(** Lines 107 to 178. *)
Definition defer_constraints (content : text) : text :=
  let st := scan (split_lines content) in
  let content := join [nl] (new_lines st) in
  let content := cleanup_trailing_commas content in
  let content := add_foreign_keys content (foreign_keys st) in
  let content := strip_disable_keys content in
  let content := strip_enable_keys content in
  collapse_blank_lines content.

(** The header, with the name of the input file in it. *)
Definition postgres_header (input_file : text) : text :=
  str "-- Converted from MySQL to PostgreSQL" ++ [nl] ++
  str "-- Compatible with Supabase" ++ [nl] ++
  str "-- Original MySQL dump: " ++ input_file ++ [nl] ++
  [nl] ++
  str "SET statement_timeout = 0;" ++ [nl] ++
  str "SET lock_timeout = 0;" ++ [nl] ++
  str "SET client_encoding = 'UTF8';" ++ [nl] ++
  str "SET standard_conforming_strings = on;" ++ [nl] ++
  str "SET check_function_bodies = false;" ++ [nl] ++
  str "SET client_min_messages = warning;" ++ [nl] ++
  [nl].

(** What [convert_mysql_to_postgres] writes to the output file, from the
    name and the content of the input file. *)
Definition convert_mysql_to_postgres (input_file content : text) : text :=
  let content := rewrite_rules content in
  let content := defer_constraints content in
  postgres_header input_file ++ content.

End Converter.

Import Converter.

(** ** Sample dumps *)

Module Samples.

Local Open Scope string_scope.

Definition lines_of (ls : list string) : text := join [nl] (map str ls).

(** The scenario of the specification, on one line. *)
Definition fk_single_line : text :=
  str "CREATE TABLE `t` (`id` int NOT NULL AUTO_INCREMENT, CONSTRAINT `fk1` FOREIGN KEY (`a`) REFERENCES `u` (`id`) ON DELETE CASCADE);".

(** The same statement with one clause per line, as a dump has it. *)
Definition fk_multi_line : text :=
  lines_of
    ["CREATE TABLE `t` (";
     "  `id` int NOT NULL AUTO_INCREMENT,";
     "  CONSTRAINT `fk1` FOREIGN KEY (`a`) REFERENCES `u` (`id`) ON DELETE CASCADE";
     ");"].

(** The statement the specification expects, and the one the converter
    writes: the column lists keep their quotes. *)
Definition fk_statement_of_spec : text :=
  qstr "ALTER TABLE `t` ADD CONSTRAINT `fk1` FOREIGN KEY (a) REFERENCES `u` (id) ON DELETE CASCADE;".

Definition fk_statement_written : text :=
  qstr "ALTER TABLE `t` ADD CONSTRAINT `fk1` FOREIGN KEY (`a`) REFERENCES `u` (`id`) ON DELETE CASCADE".

Definition fk_multi_line_converted : text :=
  map (fun c => if eqc c backtick then dq else c)
    (lines_of
       ["CREATE TABLE `t` (";
        "  `id` SERIAL";
        ");";
        "";
        "-- Foreign key constraints (added after table creation to avoid dependency issues)";
        "";
        "ALTER TABLE `t` ADD CONSTRAINT `fk1` FOREIGN KEY (`a`) REFERENCES `u` (`id`) ON DELETE CASCADE;"]).

(** A table with a unique key and a plain key, after the rewriting rules. *)
Definition unique_key_line : text := qstr "  UNIQUE KEY `uq` (`a`),".
Definition plain_key_line : text := qstr "  KEY `ix` (`a`)".

Definition table_with_keys : list text :=
  [qstr "CREATE TABLE `t` ("; qstr "  `a` INTEGER,"; unique_key_line;
   plain_key_line; str ");"].

(** A table without foreign key whose last clause is a plain key. *)
Definition table_with_last_key : text :=
  join [nl]
    [qstr "CREATE TABLE `t` ("; qstr "  `a` INTEGER,"; plain_key_line;
     str ");"].

(** A foreign key clause that stands outside any table definition. *)
Definition stray_fk_line : text :=
  qstr "CONSTRAINT `fk1` FOREIGN KEY (`a`) REFERENCES `u` (`id`) ON DELETE CASCADE".

(** A dump whose key column has a display width. *)
Definition sized_autoincrement : text :=
  lines_of
    ["CREATE TABLE `t` (";
     "  `id` int(11) NOT NULL AUTO_INCREMENT,";
     "  PRIMARY KEY (`id`)";
     ");"].

(** Two blank lines between two lines of text. *)
Definition two_blank_lines : text := lines_of ["a"; ""; ""; "b"].

(** A tinyint that overlaps the next one by its last letter. *)
Definition overlapping_tinyint : text := str "tinyintinyint".

(** Column types of every kind the type rules rewrite. *)
Definition typed_columns : text :=
  str "a tinyint(1), b TINYINT(4), c DateTime, d varchar(10), e longtext".

End Samples.

Import Samples.

(** ** Notions used in the statements and in the proofs *)

Module Notions.

(** An optional double quote. *)
Definition quote (present : bool) : text := if present then [dq] else [].

(** A text read as words, the runs of word characters, and the
    characters between them. *)
Inductive token : Type :=
| Word (w : text)
| Other (c : ascii).

Definition is_word_token (t : token) : bool :=
  match t with
  | Word _ => true
  | Other _ => false
  end.

Definition starts_with_word (ts : list token) : bool :=
  match ts with
  | t :: _ => is_word_token t
  | [] => false
  end.

Fixpoint tokens (s : text) : list token :=
  match s with
  | [] => []
  | c :: s' =>
      if is_word c
      then match tokens s' with
           | Word w :: ts => Word (c :: w) :: ts
           | ts => Word [c] :: ts
           end
      else Other c :: tokens s'
  end.

Definition token_text (t : token) : text :=
  match t with
  | Word w => w
  | Other c => [c]
  end.

Definition untokens (ts : list token) : text := flat_map token_text ts.

(** Token lists that come from a text: words are not empty, hold word
    characters only and do not touch. *)
Fixpoint canonical (ts : list token) : bool :=
  match ts with
  | [] => true
  | Word w :: ts' =>
      negb (teq w []) && forallb is_word w && negb (starts_with_word ts') &&
      canonical ts'
  | Other c :: ts' => negb (is_word c) && canonical ts'
  end.

(** The renaming of the word [w] to [new], on a token. *)
Definition rename_token (w new : text) (t : token) : token :=
  match t with
  | Word x => if same IGNORECASE w x then Word new else Word x
  | Other c => Other c
  end.

(** Lines 82 to 90 on a token: datetime, varchar, longtext, mediumtext. *)
Definition rename_type_token (t : token) : token :=
  rename_token (str "mediumtext") (str "TEXT")
    (rename_token (str "longtext") (str "TEXT")
       (rename_token (str "varchar") (str "VARCHAR")
          (rename_token (str "datetime") (str "TIMESTAMP") t))).

(** [post] begins with a size: an opening parenthesis, digits and a
    closing parenthesis. *)
Definition sized_ahead (post : text) : bool :=
  head_is (fun c => eqc c "("%char) post &&
  negb (length (lstrip_by is_digit (tl post)) =? length (tl post)) &&
  head_is (eqc ")"%char) (lstrip_by is_digit (tl post)).

(** [out] is [lines] without some lines, each of which satisfies [P]. *)
Inductive drops_only (P : text -> bool) : list text -> list text -> Prop :=
| drops_nil : drops_only P [] []
| drops_keep l ls out :
    drops_only P ls out -> drops_only P (l :: ls) (l :: out)
| drops_drop l ls out :
    P l = true -> drops_only P ls out -> drops_only P (l :: ls) out.

(** The state of the scan with the output and the records set aside:
    what the lines still to come depend on. *)
Definition context_of (st : scan_state) : scan_state :=
  ScanState [] [] (in_create_table st) (current_table st).

(** The lines written and the records made for [lines] from [st] on. *)
Definition written_for (st : scan_state) (lines : list text) : list text :=
  new_lines (scan_from (context_of st) lines).

Definition recorded_for (st : scan_state) (lines : list text)
  : list foreign_key :=
  foreign_keys (scan_from (context_of st) lines).

End Notions.

Import Notions.

(** ** The script: the choice of the two files *)

Module Script.

(** The files of a run without arguments. *)
Definition default_input_file : text := str "Dump20251023.sql".
Definition default_output_file : text := str "Dump20251023_postgres.sql".

(** [input_file.replace('.sql', '_postgres.sql')]. *)
Definition output_for (input_file : text) : text :=
  replace (str ".sql") (str "_postgres.sql") input_file.

(** Lines 209 to 215: the input and the output file for [sys.argv], the
    name of the script first. *)
Definition chosen_files (argv : list text) : text * text :=
  match argv with
  | _ :: input_file :: rest =>
      (input_file,
       match rest with
       | output_file :: _ => output_file
       | [] => output_for input_file
       end)
  | _ => (default_input_file, default_output_file)
  end.

End Script.

Import Script.

(** ** Notions used in the further properties *)

Module MoreNotions.

(** The lookahead of the pattern of line 68: white space and SERIAL. *)
Definition serial_re : regex := cat [Plus CSpace; Lit (str "SERIAL")].

(** [rest] begins with white space and then, in any letter case,
    SERIAL. *)
Definition serial_ahead (rest : text) : bool :=
  head_is is_space rest &&
  starts (to_lower (str "SERIAL")) (to_lower (lstrip_by is_space rest)).

(** Line 68 on the words of a text: a word int becomes INTEGER unless
    white space and SERIAL follow it. *)
Fixpoint int_tokens (ts : list token) : list token :=
  match ts with
  | [] => []
  | Word x :: ts' =>
      (if same IGNORECASE (str "int") x && negb (serial_ahead (untokens ts'))
       then Word (str "INTEGER") else Word x) :: int_tokens ts'
  | Other c :: ts' => Other c :: int_tokens ts'
  end.

(** The two tests that make the scan drop a line. *)
Definition is_dropped_kind (line : text) : bool :=
  is_fk_line line || is_key_line line.

(** A text neither starts nor ends with white space. *)
Definition stripped (s : text) : bool :=
  negb (head_is is_space s) && negb (head_is is_space (rev s)).

(** The table name that a line gives to the scan, if it gives one. *)
Definition table_named_by (line : text) : option text :=
  match search IGNORECASE create_table_re line with
  | Some (_, cp) => Some (group 1 cp)
  | None => None
  end.

(** What holds of a record after the lines [seen]. *)
Definition record_of (seen : list text) (fk : foreign_key) : Prop :=
  fk_table fk <> [] /\
  stripped (fk_actions fk) = true /\
  (exists line, In line seen /\ opens_table line = true /\
                table_named_by line = Some (fk_table fk)) /\
  (exists line, In line seen /\ is_fk_line line = true /\
                parse_fk (Some (fk_table fk)) line = Some fk).

(** The invariant of the loop: outside a table no table name is kept, a
    kept name comes from a line read before, and so does every record. *)
Definition scan_invariant (seen : list text) (st : scan_state) : Prop :=
  (in_create_table st = false -> current_table st = None) /\
  (forall t, current_table st = Some t ->
     exists line, In line seen /\ opens_table line = true /\
                  table_named_by line = Some t) /\
  Forall (record_of seen) (foreign_keys st) /\
  length (foreign_keys st) <= length (filter is_fk_line seen).

(** The occurrences of [c] in [s]. *)
Definition count (c : ascii) (s : text) : nat := length (filter (eqc c) s).

(** A number of occurrences of [c] that every match of [r] holds. *)
Fixpoint min_count (c : ascii) (r : regex) : nat :=
  match r with
  | Lit w => count c w
  | Cls (CChar a) => if eqc c a then 1 else 0
  | Seq a b => min_count c a + min_count c b
  | Alt a b => Nat.min (min_count c a) (min_count c b)
  | Group _ a => min_count c a
  | _ => 0
  end.

(** The pattern of line 127 up to the second column list, without its
    last group. *)
Definition fk_head_re : regex :=
  cat [Lit (str "CONSTRAINT"); Plus CSpace; Lit [dq];
       Group 1 (Plus (CNot dq)); Lit [dq]; Plus CSpace;
       Lit (str "FOREIGN KEY"); Plus CSpace; Lit (str "(");
       Group 2 (Plus (CNot ")"%char)); Lit (str ")"); Plus CSpace;
       Lit (str "REFERENCES"); Plus CSpace; Lit [dq];
       Group 3 (Plus (CNot dq)); Lit [dq]; Plus CSpace; Lit (str "(");
       Group 4 (Plus (CNot ")"%char)); Lit (str ")")].

(** Every text kept in the groups satisfies [Q] everywhere. *)
Definition caps_all (Q : ascii -> Prop) (cp : caps) : Prop :=
  Forall (fun it => Forall Q (snd it)) cp.

Definition result_all (Q : ascii -> Prop) (r : result) : Prop :=
  match r with
  | Some (rest, cp) => Forall Q rest /\ caps_all Q cp
  | None => True
  end.

Definition record_all (Q : ascii -> Prop) (fk : foreign_key) : Prop :=
  Forall Q (fk_table fk) /\ Forall Q (fk_constraint fk) /\
  Forall Q (fk_columns fk) /\ Forall Q (fk_ref_table fk) /\
  Forall Q (fk_ref_columns fk) /\ Forall Q (fk_actions fk).

Definition state_all (Q : ascii -> Prop) (st : scan_state) : Prop :=
  Forall (Forall Q) (new_lines st) /\
  Forall (record_all Q) (foreign_keys st) /\
  (forall t, current_table st = Some t -> Forall Q t).

Definition no_backtick (c : ascii) : Prop := c <> backtick.

(** Every match of [r] holds the character [c]: a sufficient test. *)
Fixpoint needs (c : ascii) (r : regex) : bool :=
  match r with
  | Lit w => existsb (eqc c) w
  | Cls (CChar a) => eqc c a
  | Seq a b => needs c a || needs c b
  | Alt a b => needs c a && needs c b
  | Group _ a => needs c a
  | _ => false
  end.

(** No match of [r] passes over the character [c]: a sufficient test. *)
Fixpoint avoids (f : flags) (c : ascii) (r : regex) : bool :=
  match r with
  | Lit w => forallb (fun a => negb (eq_lit f a c)) w
  | Cls cs | Star cs | StarLazy cs => negb (mem f cs c)
  | Seq a b | Alt a b => avoids f c a && avoids f c b
  | Opt a | Group _ a => avoids f c a
  | WordB | NotAhead _ => false
  end.

(** A result, when the text goes on with [t]. *)
Definition followed_by (t : text) (r : result) : result :=
  match r with
  | Some (rest, cp) => Some (rest ++ t, cp)
  | None => None
  end.

Definition no_nl (c : ascii) : Prop := c <> nl.

(** Neither a double quote nor a backtick. *)
Definition no_quote (c : ascii) : Prop := c <> dq /\ c <> backtick.

Definition has (c : ascii) (s : text) : bool := existsb (eqc c) s.

End MoreNotions.

Import MoreNotions.

(** * Properties *)

(** ** Facts on characters and text *)

Module TextFacts.

Ltac all_chars c :=
  destruct c as [[] [] [] [] [] [] [] []]; vm_compute; try reflexivity;
  try discriminate; auto.

Lemma eqc_eq (a b : ascii) : eqc a b = true <-> a = b.
Proof. apply Ascii.eqb_eq. Qed.

Lemma eqc_refl (a : ascii) : eqc a a = true.
Proof. apply Ascii.eqb_refl. Qed.

Lemma space_not_word (c : ascii) : is_space c = true -> is_word c = false.
Proof. all_chars c. Qed.

Lemma last_of_app (a b : text) (prev : option ascii) :
  last_of (a ++ b) prev = last_of b (last_of a prev).
Proof. revert prev; induction a; simpl; auto. Qed.

Lemma starts_app (w s : text) : starts w (w ++ s) = true.
Proof. induction w; simpl; auto. rewrite eqc_refl; auto. Qed.

Lemma contains_false_starts (w s : text) :
  contains w s = false -> starts w s = false.
Proof. destruct s; simpl; intros H; apply orb_false_iff in H; tauto. Qed.

Lemma contains_false_tail (w : text) (c : ascii) (s : text) :
  contains w (c :: s) = false -> contains w s = false.
Proof. simpl; intros H; apply orb_false_iff in H; tauto. Qed.

Lemma starts_app_l (w a x : text) :
  starts w a = true -> starts w (a ++ x) = true.
Proof.
  revert a; induction w as [|y w IH]; intros a H; simpl in *; auto.
  destruct a as [|d a]; try discriminate. simpl.
  apply andb_true_iff in H as [H1 H2]. rewrite H1. simpl. auto.
Qed.

Lemma contains_app_false_l (w a x : text) :
  contains w (a ++ x) = false -> contains w a = false.
Proof.
  induction a as [|d a IH]; intros H.
  - simpl. rewrite orb_false_r. destruct (starts w []) eqn:E; auto.
    apply (starts_app_l _ _ x) in E. simpl in E, H.
    apply contains_false_starts in H. congruence.
  - simpl in H. apply orb_false_iff in H as [H1 H2].
    simpl. apply orb_false_iff. split; auto.
    destruct (starts w (d :: a)) eqn:E; auto.
    apply (starts_app_l _ _ x) in E. simpl in E. congruence.
Qed.

Lemma contains_short (w s : text) :
  length s < length w -> contains w s = false.
Proof.
  revert w; induction s as [|c s IH]; intros w H.
  - destruct w; simpl in *; [lia|reflexivity].
  - simpl. rewrite IH by (simpl in H; lia). rewrite orb_false_r.
    clear IH. revert w H. generalize (c :: s) as t.
    induction t as [|d t IHt]; intros [|y w] H; simpl in *; try lia; auto.
    rewrite IHt by lia. apply andb_false_r.
Qed.

(** A text followed by a character foreign to [w] starts with [w] only
    if the text itself does. *)
Lemma starts_app_foreign (w a : text) (c : ascii) (x : text) :
  ~ In c w -> starts w (a ++ c :: x) = true -> starts w a = true.
Proof.
  revert a; induction w as [|y w IH]; intros a Hc H; simpl in *; auto.
  destruct a as [|d a]; simpl in *.
  - apply andb_true_iff in H as [H _]. apply eqc_eq in H. tauto.
  - apply andb_true_iff in H as [H1 H2]. rewrite H1. simpl.
    apply IH; auto.
Qed.

Lemma contains_app_foreign (w a : text) (c : ascii) (x : text) :
  ~ In c w -> length (c :: x) < length w ->
  contains w a = false -> contains w (a ++ c :: x) = false.
Proof.
  intros Hc Hl. induction a as [|d a IH]; intros H.
  - apply contains_short. exact Hl.
  - simpl in H. apply orb_false_iff in H as [H1 H2].
    simpl. apply orb_false_iff. split; auto.
    destruct (starts w (d :: a ++ c :: x)) eqn:E; auto.
    apply (starts_app_foreign w (d :: a)) in E; auto. congruence.
Qed.

Lemma taken_app (a b : text) : taken (a ++ b) b = a.
Proof.
  unfold taken. rewrite length_app.
  replace (length a + length b - length b) with (length a) by lia.
  rewrite firstn_app, Nat.sub_diag, firstn_all. simpl. apply app_nil_r.
Qed.

Lemma taken_cons (c : ascii) (a b : text) : taken (c :: a ++ b) b = c :: a.
Proof. apply (taken_app (c :: a) b). Qed.

(** *** The white space, or the digits, at the head of a text *)

Lemma lstrip_head (p : ascii -> bool) (s : text) :
  head_is p (lstrip_by p s) = false.
Proof.
  induction s as [|c s IH]; simpl; auto.
  destruct (p c) eqn:E; simpl; auto.
Qed.

Lemma lstrip_suffix (p : ascii -> bool) (s : text) :
  exists a, s = a ++ lstrip_by p s.
Proof.
  induction s as [|c s [a IH]]; simpl.
  - exists []. reflexivity.
  - destruct (p c).
    + exists (c :: a). simpl. congruence.
    + exists []. reflexivity.
Qed.

Lemma lstrip_split (p : ascii -> bool) (s : text) :
  exists ws, s = ws ++ lstrip_by p s /\ forallb p ws = true.
Proof.
  induction s as [|c s (ws & E & H)]; simpl.
  - exists []. auto.
  - destruct (p c) eqn:Ec.
    + exists (c :: ws). simpl. rewrite Ec, H. split; [congruence|auto].
    + exists []. auto.
Qed.

Lemma lstrip_stops (p : ascii -> bool) (s : text) :
  stops p (lstrip_by p s).
Proof.
  pose proof (lstrip_head p s) as H. unfold stops.
  destruct (lstrip_by p s); simpl in *; auto.
Qed.

Lemma stops_head (p : ascii -> bool) (s : text) :
  head_is p s = false -> stops p s.
Proof. destruct s; simpl; auto. Qed.

Lemma lstrip_run (p : ascii -> bool) (ws r : text) :
  forallb p ws = true -> head_is p r = false ->
  lstrip_by p (ws ++ r) = r.
Proof.
  induction ws as [|c ws IH]; simpl; intros H Hr.
  - destruct r as [|d r]; simpl in *; auto. rewrite Hr. reflexivity.
  - apply andb_true_iff in H as [H1 H2]. rewrite H1. auto.
Qed.

End TextFacts.

Import TextFacts.

(** ** Facts on the matcher *)

Module ReFacts.

Section Engine.

Variable f : flags.

Lemma lit_app (w w' : text) (prev : option ascii) (s : text) :
  same f w w' = true -> lit f w prev (w' ++ s) = Some (last_of w' prev, s).
Proof.
  revert w' prev; induction w as [|a w IH]; intros [|c w'] prev H;
    simpl in *; try discriminate; auto.
  apply andb_true_iff in H as [H1 H2]. rewrite H1. apply IH, H2.
Qed.

Lemma lit_some (w : text) (prev p : option ascii) (s s' : text) :
  lit f w prev s = Some (p, s') ->
  exists w', s = w' ++ s' /\ same f w w' = true /\ p = last_of w' prev.
Proof.
  revert prev s; induction w as [|a w IH]; intros prev s H; simpl in H.
  - inversion H; subst. exists []; auto.
  - destruct s as [|c s]; try discriminate.
    destruct (eq_lit f a c) eqn:E; try discriminate.
    destruct (IH _ _ H) as (w' & -> & Hs & ->).
    exists (c :: w'); simpl; rewrite E; auto.
Qed.

Lemma lit_prev (w : text) (p p' : option ascii) (s : text) :
  match lit f w p s, lit f w p' s with
  | Some (_, s1), Some (_, s2) => s1 = s2
  | None, None => True
  | _, _ => False
  end.
Proof.
  destruct w as [|a w]; simpl; auto.
  destruct s as [|c s]; auto. destruct (eq_lit f a c); auto.
  destruct (lit f w (Some c) s) as [[q s1]|]; auto.
Qed.

(** *** Greedy repetition *)

Lemma star_greedy_run (p : ascii -> bool) (w rest : text)
  (prev : option ascii) (k : option ascii -> text -> result) (r : text * caps) :
  forallb p w = true -> stops p rest ->
  k (last_of w prev) rest = Some r ->
  star_greedy p prev (w ++ rest) k = Some r.
Proof.
  revert prev; induction w as [|c w IH]; intros prev Hw Hs Hk; simpl in *.
  - destruct rest as [|c rest]; simpl; auto. unfold stops in Hs; rewrite Hs; auto.
  - apply andb_true_iff in Hw as [Hc Hw]. rewrite Hc.
    rewrite (IH (Some c)); auto.
Qed.

Lemma star_greedy_none (p : ascii -> bool) (w rest : text)
  (prev : option ascii) (k : option ascii -> text -> result) :
  forallb p w = true -> stops p rest ->
  (forall u t, w = u ++ t -> k (last_of u prev) (t ++ rest) = None) ->
  star_greedy p prev (w ++ rest) k = None.
Proof.
  revert prev; induction w as [|c w IH]; intros prev Hw Hs Hk; simpl in *.
  - specialize (Hk [] [] eq_refl). simpl in Hk.
    destruct rest as [|c rest]; simpl; auto. unfold stops in Hs; rewrite Hs; auto.
  - apply andb_true_iff in Hw as [Hc Hw]. rewrite Hc.
    rewrite (IH (Some c)); auto.
    + apply (Hk [] (c :: w) eq_refl).
    + intros u t ->. apply (Hk (c :: u) t eq_refl).
Qed.

(** The run [a ++ b] is given back down to [a], the first split that the
    continuation accepts. *)
Lemma star_greedy_first (p : ascii -> bool) (a b rest : text)
  (prev : option ascii) (k : option ascii -> text -> result) (r : text * caps) :
  forallb p a = true -> forallb p b = true -> stops p rest ->
  k (last_of a prev) (b ++ rest) = Some r ->
  (forall u t, b = u ++ t -> u <> [] ->
               k (last_of (a ++ u) prev) (t ++ rest) = None) ->
  star_greedy p prev (a ++ b ++ rest) k = Some r.
Proof.
  revert prev; induction a as [|c a IH]; intros prev Ha Hb Hs Hk Hn;
    simpl in *.
  - destruct b as [|c b]; simpl in *.
    + destruct rest as [|c rest]; simpl; auto. unfold stops in Hs; rewrite Hs; auto.
    + apply andb_true_iff in Hb as [Hc Hb]. rewrite Hc.
      rewrite star_greedy_none; auto.
      intros u t ->. apply (Hn (c :: u) t eq_refl). discriminate.
  - apply andb_true_iff in Ha as [Hc Ha]. rewrite Hc.
    rewrite (IH (Some c)); auto.
Qed.

(** *** Lazy repetition *)

Lemma star_lazy_first (p : ascii -> bool) (a rest : text)
  (prev : option ascii) (k : option ascii -> text -> result) (r : text * caps) :
  forallb p a = true ->
  k (last_of a prev) rest = Some r ->
  (forall u t, a = u ++ t -> t <> [] ->
               k (last_of u prev) (t ++ rest) = None) ->
  star_lazy p prev (a ++ rest) k = Some r.
Proof.
  revert prev; induction a as [|c a IH]; intros prev Ha Hk Hn; simpl in *.
  - destruct rest; simpl; rewrite Hk; auto.
  - apply andb_true_iff in Ha as [Hc Ha].
    assert (H0 : k prev (c :: a ++ rest) = None)
      by (apply (Hn [] (c :: a) eq_refl); discriminate).
    rewrite H0, Hc.
    apply IH; auto. intros u t -> Ht. apply (Hn (c :: u) t eq_refl Ht).
Qed.

Lemma star_lazy_none (p : ascii -> bool) (s : text)
  (prev : option ascii) (k : option ascii -> text -> result) :
  (forall u t, s = u ++ t -> k (last_of u prev) t = None) ->
  star_lazy p prev s k = None.
Proof.
  revert prev; induction s as [|c s IH]; intros prev Hn; simpl.
  - pose proof (Hn [] [] eq_refl) as H0. simpl in H0. rewrite H0; auto.
  - pose proof (Hn [] (c :: s) eq_refl) as H0. simpl in H0. rewrite H0.
    destruct (p c); auto.
    apply IH. intros u t ->. apply (Hn (c :: u) t eq_refl).
Qed.

(** *** Patterns without [\b] do not depend on the character before *)

Lemma star_greedy_blind (q : ascii -> bool) (s : text) (p p' : option ascii)
  (k : option ascii -> text -> result) :
  (forall a b t, k a t = k b t) ->
  star_greedy q p s k = star_greedy q p' s k.
Proof.
  intros Hk. revert p p'; induction s as [|c s IH]; intros p p'; simpl; auto.
  destruct (q c); auto. rewrite (Hk p p'). reflexivity.
Qed.

Lemma star_lazy_blind (q : ascii -> bool) (s : text) (p p' : option ascii)
  (k : option ascii -> text -> result) :
  (forall a b t, k a t = k b t) ->
  star_lazy q p s k = star_lazy q p' s k.
Proof.
  intros Hk. revert p p'; induction s as [|c s IH]; intros p p'; simpl;
    rewrite (Hk p p'); auto.
Qed.

Lemma m_blind (r : regex) :
  wordb_free r = true ->
  forall (k : cont) p p' s cp, blind k -> m f r p s cp k = m f r p' s cp k.
Proof.
  induction r as [w|cs|cs|cs|a IHa b IHb|a IHa b IHb|a IHa|n a IHa| |a IHa];
    simpl; intros Hr k p p' s cp Hk; try discriminate.
  - pose proof (lit_prev w p p' s) as H.
    destruct (lit f w p s) as [[q1 s1]|], (lit f w p' s) as [[q2 s2]|];
      try contradiction; auto. subst; apply Hk.
  - reflexivity.
  - apply star_greedy_blind. intros; apply Hk.
  - apply star_lazy_blind. intros; apply Hk.
  - apply andb_true_iff in Hr as [Ha Hb]. apply IHa; auto.
    intros q q' t c. apply IHb; auto.
  - apply andb_true_iff in Hr as [Ha Hb].
    rewrite (IHa Ha k p p'), (IHb Hb k p p'); auto.
  - rewrite (IHa Hr k p p'), (Hk p p'); auto.
  - apply IHa; auto. intros q q' t c. apply Hk.
  - rewrite (IHa Hr _ p p'), (Hk p p'); auto. intros q q' t c; reflexivity.
Qed.

Lemma match_at_blind (r : regex) (p p' : option ascii) (s : text) :
  wordb_free r = true -> match_at f r p s = match_at f r p' s.
Proof. intros H. apply m_blind; auto. intros q q' t c; reflexivity. Qed.

Lemma match_nonempty_blind (r : regex) (p p' : option ascii) (s : text) :
  wordb_free r = true -> match_nonempty f r p s = match_nonempty f r p' s.
Proof. intros H. apply m_blind; auto. intros q q' t c; reflexivity. Qed.

(** *** Literals *)

Lemma eq_lit_norm (a c : ascii) :
  eq_lit f a c = eqc (normc f a) (normc f c).
Proof. unfold eq_lit, normc, eqc_nocase. destruct (ignorecase f); auto. Qed.

Lemma lit_none (w : text) (prev : option ascii) (s : text) :
  starts (norm f w) (norm f s) = false -> lit f w prev s = None.
Proof.
  revert prev s; induction w as [|a w IH]; intros prev s H; simpl in *;
    try discriminate.
  destruct s as [|c s]; auto. simpl in H. rewrite eq_lit_norm.
  destruct (eqc (normc f a) (normc f c)); auto.
Qed.

Lemma lit_app_none (w w' : text) (prev : option ascii) (s : text) :
  lit f w prev s = None -> lit f (w ++ w') prev s = None.
Proof.
  revert prev s; induction w as [|a w IH]; intros prev s H; simpl in *;
    try discriminate.
  destruct s as [|c s]; auto. destruct (eq_lit f a c); auto.
Qed.

Lemma same_norm (w w' : text) :
  norm f w = norm f w' -> same f w w' = true.
Proof.
  revert w'; induction w as [|a w IH]; intros [|c w'] H; simpl in *;
    try discriminate; auto.
  inversion H. rewrite eq_lit_norm, H1, eqc_refl. simpl. auto.
Qed.

Lemma norm_exact (s : text) : ignorecase f = false -> norm f s = s.
Proof.
  intros E. unfold norm, normc. rewrite E. apply map_id.
Qed.

Lemma m_lit_app (w w' : text) (p : option ascii) (s : text) (cp : caps)
  (k : cont) :
  same f w w' = true ->
  m f (Lit w) p (w' ++ s) cp k = k (last_of w' p) s cp.
Proof. intros H. simpl. rewrite lit_app; auto. Qed.

Lemma m_lit_none (w : text) (p : option ascii) (s : text) (cp : caps)
  (k : cont) :
  lit f w p s = None -> m f (Lit w) p s cp k = None.
Proof. intros H. simpl. rewrite H. reflexivity. Qed.

Lemma m_lit_ok (w w' : text) (p : option ascii) (s : text) (cp : caps)
  (k : cont) (r : text * caps) :
  same f w w' = true ->
  k (last_of w' p) s cp = Some r ->
  m f (Lit w) p (w' ++ s) cp k = Some r.
Proof. intros H K. rewrite m_lit_app; auto. Qed.

(** *** One or more characters of a class *)

Lemma m_plus_run (cs : cset) (w rest : text) (p : option ascii) (cp : caps)
  (k : cont) (r : text * caps) :
  w <> [] -> forallb (mem f cs) w = true -> stops (mem f cs) rest ->
  k (last_of w p) rest cp = Some r ->
  m f (Plus cs) p (w ++ rest) cp k = Some r.
Proof.
  intros Hne Hw Hs Hk. destruct w as [|c w]; [congruence|].
  simpl in Hw. apply andb_true_iff in Hw as [Hc Hw].
  unfold Plus. rewrite <- app_comm_cons. cbn [m]. rewrite Hc.
  apply star_greedy_run; auto.
Qed.

(** *** Optional parts and alternatives *)

Lemma m_opt_some (a : regex) (p : option ascii) (s : text) (cp : caps)
  (k : cont) (r : text * caps) :
  m f a p s cp k = Some r -> m f (Opt a) p s cp k = Some r.
Proof. intros H. simpl. rewrite H. reflexivity. Qed.

Lemma m_opt_none (a : regex) (p : option ascii) (s : text) (cp : caps)
  (k : cont) :
  m f a p s cp k = None -> m f (Opt a) p s cp k = k p s cp.
Proof. intros H. simpl. rewrite H. reflexivity. Qed.

Lemma m_alt_l (a b : regex) (p : option ascii) (s : text) (cp : caps)
  (k : cont) (r : text * caps) :
  m f a p s cp k = Some r -> m f (Alt a b) p s cp k = Some r.
Proof. intros H. simpl. rewrite H. reflexivity. Qed.

Lemma m_alt_r (a b : regex) (p : option ascii) (s : text) (cp : caps)
  (k : cont) :
  m f a p s cp k = None -> m f (Alt a b) p s cp k = m f b p s cp k.
Proof. intros H. simpl. rewrite H. reflexivity. Qed.

Lemma m_seq (a b : regex) (p : option ascii) (s : text) (cp : caps)
  (k : cont) :
  m f (Seq a b) p s cp k =
  m f a p s cp (fun p' s' cp' => m f b p' s' cp' k).
Proof. reflexivity. Qed.

Lemma m_group (n : nat) (a : regex) (p : option ascii) (s : text)
  (cp : caps) (k : cont) :
  m f (Group n a) p s cp k =
  m f a p s cp (fun p' s' cp' => k p' s' ((n, taken s s') :: cp')).
Proof. reflexivity. Qed.

(** *** Places where no match can start *)

Lemma starts_firstn (w x b : text) (n : nat) :
  length w <= n -> starts w (x ++ b) = true ->
  starts w (x ++ firstn n b) = true.
Proof.
  revert x b n; induction w as [|a w IH]; intros x b n Hn H; simpl in *; auto.
  destruct x as [|c x]; simpl in *.
  - destruct b as [|c b]; try discriminate.
    destruct n as [|n]; [lia|]. simpl.
    apply andb_true_iff in H as [H1 H2]. rewrite H1. simpl.
    apply (IH [] b n); auto. lia.
  - apply andb_true_iff in H as [H1 H2]. rewrite H1. simpl.
    apply IH; auto. lia.
Qed.

Lemma norm_app (a b : text) : norm f (a ++ b) = norm f a ++ norm f b.
Proof. apply map_app. Qed.

Lemma norm_firstn (n : nat) (a : text) :
  norm f (firstn n a) = firstn n (norm f a).
Proof. symmetry. apply firstn_map. Qed.

Lemma norm_length (a : text) : length (norm f a) = length a.
Proof. apply length_map. Qed.

(** A pattern that starts with the literal [w] matches nowhere in [a]
    when [w] starts nowhere in it. *)
Lemma no_match_in_starts (r : regex) (w a b : text) (prev : option ascii) :
  (forall p s, starts (norm f w) (norm f s) = false ->
               match_at f r p s = None) ->
  contains (norm f w) (norm f (a ++ firstn (length w - 1) b)) = false ->
  no_match_in f r prev a b = true.
Proof.
  intros Hr. revert prev; induction a as [|c a IH]; intros prev H; auto.
  change (no_match_in f r prev (c :: a) b) with
    (match match_at f r prev ((c :: a) ++ b) with
     | Some _ => false
     | None => no_match_in f r (Some c) a b
     end).
  rewrite Hr.
  - apply IH. simpl in H. apply orb_false_iff in H. tauto.
  - apply contains_false_starts in H.
    destruct (starts (norm f w) (norm f ((c :: a) ++ b))) eqn:E; auto.
    rewrite <- H. symmetry.
    rewrite norm_app, norm_firstn. rewrite norm_app in E.
    destruct w as [|x w]; [reflexivity|].
    replace (length (x :: w) - 1) with (length w) by (simpl; lia).
    simpl in E |- *.
    apply andb_true_iff in E as [E1 E2]. rewrite E1. simpl.
    apply starts_firstn; auto. rewrite norm_length. lia.
Qed.

Lemma no_match_in_app (r : regex) (a1 a2 b : text) (prev : option ascii) :
  no_match_in f r prev a1 (a2 ++ b) = true ->
  no_match_in f r (last_of a1 prev) a2 b = true ->
  no_match_in f r prev (a1 ++ a2) b = true.
Proof.
  revert prev; induction a1 as [|c a IH]; intros prev H1 H2; auto.
  simpl in *. rewrite <- app_assoc.
  destruct (match_at f r prev (c :: a ++ a2 ++ b)); try discriminate. auto.
Qed.

(** A pattern that starts with the character [x] matches nowhere in a
    text without [x]. *)
Lemma no_match_in_first (r : regex) (x : ascii) (a b : text)
  (prev : option ascii) :
  (forall p c s, eq_lit f x c = false -> match_at f r p (c :: s) = None) ->
  forallb (fun c => negb (eq_lit f x c)) a = true ->
  no_match_in f r prev a b = true.
Proof.
  intros Hr. revert prev; induction a as [|c a IH]; intros prev H; auto.
  simpl in *. apply andb_true_iff in H as [H1 H2].
  apply negb_true_iff in H1. rewrite (Hr _ _ _ H1). auto.
Qed.

(** *** [re.sub] *)

Section SubFacts.

Variable r : regex.
Variable repl : text -> caps -> text.

Lemma sub_go_skip (a b : text) (prev : option ascii) :
  sub_go f r repl prev (a ++ b) (length a) =
  sub_go f r repl (last_of a prev) b 0.
Proof. revert prev; induction a as [|c a IH]; intros prev; simpl; auto. Qed.

Lemma sub_go_cons (c : ascii) (s : text) (prev : option ascii) :
  sub_go f r repl prev (c :: s) 0 =
  match match_at f r prev (c :: s) with
  | None => c :: sub_go f r repl (Some c) s 0
  | Some (rest, cp) =>
      match length (taken (c :: s) rest) with
      | S n => repl (taken (c :: s) rest) cp ++ sub_go f r repl (Some c) s n
      | 0 =>
          repl [] cp ++
          match match_nonempty f r prev (c :: s) with
          | Some (rest2, cp2) =>
              repl (taken (c :: s) rest2) cp2 ++
              sub_go f r repl (Some c) s (length (taken (c :: s) rest2) - 1)
          | None => c :: sub_go f r repl (Some c) s 0
          end
      end
  end.
Proof. reflexivity. Qed.

(** A stretch in which no match starts is copied. *)
Lemma sub_go_pass (a b : text) (prev : option ascii) :
  no_match_in f r prev a b = true ->
  sub_go f r repl prev (a ++ b) 0 =
  a ++ sub_go f r repl (last_of a prev) b 0.
Proof.
  revert prev; induction a as [|c a IH]; intros prev H; auto.
  simpl in H. rewrite <- app_comm_cons, sub_go_cons.
  destruct (match_at f r prev (c :: a ++ b)); try discriminate.
  simpl. f_equal. apply IH, H.
Qed.

(** A match that is not empty is replaced, and the substitution goes on
    after it. *)
Lemma sub_go_hit (mt b : text) (prev : option ascii) (cp : caps) :
  mt <> [] ->
  match_at f r prev (mt ++ b) = Some (b, cp) ->
  sub_go f r repl prev (mt ++ b) 0 =
  repl mt cp ++ sub_go f r repl (last_of mt prev) b 0.
Proof.
  intros Hmt H. destruct mt as [|c mt]; try congruence. clear Hmt.
  rewrite <- app_comm_cons in *. rewrite sub_go_cons, H, taken_cons.
  simpl. f_equal. apply sub_go_skip.
Qed.

Lemma sub_go_blind (s : text) (n : nat) (p p' : option ascii) :
  wordb_free r = true ->
  sub_go f r repl p s n = sub_go f r repl p' s n.
Proof.
  intros Hr. revert n p p'; induction s as [|c s IH]; intros n p p'.
  - destruct n; simpl; auto.
    rewrite (match_at_blind r p p'), (match_nonempty_blind r p p'); auto.
  - destruct n; simpl; auto.
    rewrite (match_at_blind r p p'), (match_nonempty_blind r p p'); auto.
Qed.

(** The substitution after a first stretch without match and a first
    match, for a pattern without [\b]. *)
Lemma sub_first (a mt b : text) (cp : caps) :
  wordb_free r = true ->
  no_match_in f r None a (mt ++ b) = true ->
  mt <> [] ->
  match_at f r None (mt ++ b) = Some (b, cp) ->
  sub f r repl (a ++ mt ++ b) = a ++ repl mt cp ++ sub f r repl b.
Proof.
  intros Hr Ha Hmt H. unfold sub. rewrite sub_go_pass; auto. f_equal.
  rewrite sub_go_hit with (cp := cp); auto.
  - f_equal. apply sub_go_blind; auto.
  - rewrite (match_at_blind r _ None); auto.
Qed.

Lemma sub_pass (a b : text) :
  wordb_free r = true ->
  no_match_in f r None a b = true ->
  sub f r repl (a ++ b) = a ++ sub f r repl b.
Proof.
  intros Hr Ha. unfold sub. rewrite sub_go_pass; auto. f_equal.
  apply sub_go_blind; auto.
Qed.

End SubFacts.

End Engine.

End ReFacts.

Import ReFacts.

(** ** The line scan *)

Module ScanFacts.

Lemma scan_from_app (st : scan_state) (l1 l2 : list text) :
  scan_from st (l1 ++ l2) = scan_from (scan_from st l1) l2.
Proof. apply fold_left_app. Qed.

Lemma scan_app (l1 l2 : list text) :
  scan (l1 ++ l2) = scan_from (scan l1) l2.
Proof. apply scan_from_app. Qed.

(** One step of the loop adds to the output and to the records, and its
    additions depend on the state through the table context only. *)
Lemma scan_line_split (st : scan_state) (line : text) :
  let st' := scan_line st line in
  let ct' := scan_line (context_of st) line in
  new_lines st' = new_lines st ++ new_lines ct' /\
  foreign_keys st' = foreign_keys st ++ foreign_keys ct' /\
  in_create_table st' = in_create_table ct' /\
  current_table st' = current_table ct'.
Proof.
  destruct st as [nls fks ict tbl]. unfold scan_line, track_table, context_of.
  simpl.
  destruct (opens_table line); simpl;
    repeat match goal with
      | |- context [if ?b then _ else _] => destruct b; simpl
      | |- context [match parse_fk ?t ?l with _ => _ end] =>
          destruct (parse_fk t l); simpl
      end; rewrite ?app_nil_r; auto.
Qed.

Lemma scan_from_split (lines : list text) (st : scan_state) :
  new_lines (scan_from st lines) = new_lines st ++ written_for st lines /\
  foreign_keys (scan_from st lines) =
    foreign_keys st ++ recorded_for st lines /\
  in_create_table (scan_from st lines) =
    in_create_table (scan_from (context_of st) lines) /\
  current_table (scan_from st lines) =
    current_table (scan_from (context_of st) lines).
Proof.
  unfold written_for, recorded_for.
  revert st; induction lines as [|l lines IH]; intros st; simpl.
  - rewrite !app_nil_r; auto.
  - destruct (scan_line_split st l) as (H1 & H2 & H3 & H4).
    destruct (IH (scan_line st l)) as (A1 & A2 & A3 & A4).
    destruct (IH (scan_line (context_of st) l)) as (B1 & B2 & B3 & B4).
    assert (E : context_of (scan_line st l) =
                context_of (scan_line (context_of st) l))
      by (unfold context_of; rewrite H3, H4; reflexivity).
    rewrite A1, A2, A3, A4, B1, B2, B3, B4, H1, H2, E, <- !app_assoc. auto.
Qed.

Lemma open_after_track (st : scan_state) (line : text) :
  in_create_table (track_table st line) =
  in_create_table st || opens_table line.
Proof.
  unfold track_table. destruct (opens_table line); simpl;
    rewrite ?orb_true_r, ?orb_false_r; auto.
Qed.

End ScanFacts.

Import ScanFacts.

(** ** Claims on the deferral of foreign keys *)

(** Claim C1, as the specification states it, fails: for the scenario
    written on one line the output holds neither a table definition with
    the SERIAL column nor the statement with unquoted column lists. *)
Lemma C1_single_line_counterexample :
  contains (qstr "`id` SERIAL")
    (convert_mysql_to_postgres (str "dump.sql") fk_single_line) = false /\
  contains fk_statement_of_spec
    (convert_mysql_to_postgres (str "dump.sql") fk_single_line) = false.
Proof. vm_compute. split; reflexivity. Qed.

(** Claim C1, amended: the scan works line by line.  With one clause per
    line the scenario gives the table definition with the SERIAL column
    and no constraint in it, then the ALTER TABLE statement, whose column
    lists keep their quotes.  Written on one line, the line is dropped as
    a whole: the output has no table definition, and after the banner
    comes the same ALTER TABLE statement up to its actions. *)
Theorem C1_foreign_key_scenario (input_file : text) :
  convert_mysql_to_postgres input_file fk_multi_line =
    postgres_header input_file ++ fk_multi_line_converted /\
  (let body := defer_constraints (rewrite_rules fk_single_line) in
   convert_mysql_to_postgres input_file fk_single_line =
     postgres_header input_file ++ body /\
   contains (str "CREATE TABLE") body = false /\
   starts (fk_banner ++ nl :: fk_statement_written) body = true).
Proof.
  unfold convert_mysql_to_postgres. split.
  - apply f_equal. vm_compute. reflexivity.
  - split; [reflexivity|]. vm_compute. split; reflexivity.
Qed.

Lemma fold_snoc_map (A B : Type) (g : A -> B) (xs : list A) (acc : list B) :
  fold_left (fun ys x => ys ++ [g x]) xs acc = acc ++ map g xs.
Proof.
  revert acc; induction xs as [|x xs IH]; intros acc; simpl.
  - symmetry; apply app_nil_r.
  - rewrite IH, <- app_assoc. reflexivity.
Qed.

Lemma join_cons (sep p : text) (ps : list text) :
  join sep (p :: ps) = p ++ flat_map (fun q => sep ++ q) ps.
Proof.
  revert p; induction ps as [|q ps IH]; intros p.
  - simpl. symmetry; apply app_nil_r.
  - change (join sep (p :: q :: ps)) with (p ++ sep ++ join sep (q :: ps)).
    rewrite IH. simpl. rewrite <- app_assoc. reflexivity.
Qed.

(** Claim C8: a line with a foreign key clause met while no table
    definition is open is written to the output as it is and makes no
    record, so that the records, and with them the statements appended,
    are those of the lines before and after it; the step is a total
    function, there is no error. *)
Theorem C8_stray_foreign_key_ignored (pre post : list text) (line : text) :
  in_create_table (scan pre) = false ->
  opens_table line = false ->
  is_fk_line line = true ->
  scan_line (scan pre) line =
    ScanState (new_lines (scan pre) ++ [line]) (foreign_keys (scan pre))
      false (current_table (scan pre)) /\
  foreign_keys (scan (pre ++ line :: post)) =
    foreign_keys (scan pre) ++ recorded_for (scan pre) post /\
  new_lines (scan (pre ++ line :: post)) =
    new_lines (scan pre) ++ line :: written_for (scan pre) post.
Proof.
  intros Hopen Hline _.
  assert (E : scan_line (scan pre) line =
              ScanState (new_lines (scan pre) ++ [line])
                (foreign_keys (scan pre)) false (current_table (scan pre))).
  { unfold scan_line, track_table. rewrite Hline, Hopen. reflexivity. }
  split; [exact E|].
  rewrite scan_app. simpl. rewrite E.
  match goal with |- context [scan_from ?s post] => set (st := s) end.
  destruct (scan_from_split post st) as (H1 & H2 & _).
  assert (C : context_of st = context_of (scan pre))
    by (unfold context_of, st; simpl; rewrite Hopen; reflexivity).
  unfold written_for, recorded_for in *. rewrite C in H1, H2.
  rewrite H1, H2. unfold st; simpl. rewrite <- app_assoc. auto.
Qed.

Lemma C8_stray_foreign_key_ignored_witness :
  is_fk_line stray_fk_line = true /\
  foreign_keys (scan ([] ++ stray_fk_line :: [])) = [] /\
  new_lines (scan ([] ++ stray_fk_line :: [])) = [stray_fk_line].
Proof.
  split; [reflexivity|].
  destruct (@C8_stray_foreign_key_ignored [] [] stray_fk_line)
    as (_ & H2 & H3); try reflexivity.
  split; [exact H2 | exact H3].
Defined.

(** A line without foreign key clause makes no record; it is written, or
    it is a plain key line and is dropped. *)
Lemma scan_line_no_fk (st : scan_state) (line : text) :
  is_fk_line line = false ->
  foreign_keys (scan_line st line) = foreign_keys st /\
  (new_lines (scan_line st line) = new_lines st ++ [line] \/
   is_key_line line = true /\ new_lines (scan_line st line) = new_lines st).
Proof.
  intros H. unfold scan_line. rewrite H, andb_false_r.
  assert (T : foreign_keys (track_table st line) = foreign_keys st /\
              new_lines (track_table st line) = new_lines st)
    by (unfold track_table; destruct (opens_table line); auto).
  destruct T as [T1 T2].
  destruct (in_create_table (track_table st line)); simpl.
  - destruct (is_key_line line); simpl.
    + rewrite T1, T2; auto.
    + destruct (closes_table line); simpl; rewrite T1, T2; auto.
  - rewrite T1, T2; auto.
Qed.

Lemma scan_from_no_fk (lines : list text) (st : scan_state) :
  forallb (fun l => negb (is_fk_line l)) lines = true ->
  foreign_keys (scan_from st lines) = foreign_keys st /\
  exists out, new_lines (scan_from st lines) = new_lines st ++ out /\
              drops_only is_key_line lines out.
Proof.
  revert st; induction lines as [|l lines IH]; intros st H; simpl in *.
  - split; auto. exists []. rewrite app_nil_r. split; auto. constructor.
  - apply andb_true_iff in H as [Hl H]. apply negb_true_iff in Hl.
    destruct (scan_line_no_fk st l Hl) as [F N].
    destruct (IH (scan_line st l) H) as (F' & out & N' & D).
    split; [congruence|].
    destruct N as [N | [K N]]; rewrite N in N'.
    + exists (l :: out). rewrite <- app_assoc in N'. split; auto.
      constructor; auto.
    + exists out. split; auto. constructor; auto.
Qed.

(** Claim C3, as the specification states it, fails: in a table without
    foreign key whose last clause is a plain key, the pass also takes the
    comma off the clause before it, so its output is not the input with
    the key line removed and the blank lines collapsed. *)
Lemma C3_no_foreign_key_counterexample :
  forallb (fun l => negb (is_fk_line l)) (split_lines table_with_last_key)
    = true /\
  defer_constraints table_with_last_key <>
    collapse_blank_lines
      (join [nl] (new_lines (scan (split_lines table_with_last_key)))).
Proof. split; [reflexivity|]. vm_compute. discriminate. Qed.

(** Claim C3, amended: when no line holds a foreign key clause, the pass
    makes no record and appends nothing; the lines it keeps are the lines
    of the input without some plain key lines; and its output is these
    lines joined again, with the commas left before a closing line
    removed, the DISABLE KEYS and ENABLE KEYS statements removed and the
    blank lines collapsed. *)
Theorem C3_no_foreign_key (content : text) :
  forallb (fun l => negb (is_fk_line l)) (split_lines content) = true ->
  foreign_keys (scan (split_lines content)) = [] /\
  drops_only is_key_line (split_lines content)
    (new_lines (scan (split_lines content))) /\
  defer_constraints content =
    collapse_blank_lines
      (strip_enable_keys
         (strip_disable_keys
            (cleanup_trailing_commas
               (join [nl] (new_lines (scan (split_lines content))))))).
Proof.
  intros H. destruct (scan_from_no_fk _ scan_start H) as (F & out & N & D).
  fold (scan (split_lines content)) in F, N. simpl in F, N.
  split; [exact F|]. split; [rewrite N; exact D|].
  unfold defer_constraints. rewrite F. reflexivity.
Qed.

Lemma C3_no_foreign_key_witness :
  foreign_keys (scan (split_lines table_with_last_key)) = [] /\
  defer_constraints table_with_last_key =
    collapse_blank_lines
      (strip_enable_keys
         (strip_disable_keys
            (cleanup_trailing_commas
               (join [nl]
                  (new_lines (scan (split_lines table_with_last_key))))))).
Proof.
  destruct (@C3_no_foreign_key table_with_last_key) as (H1 & _ & H3);
    [reflexivity|]. split; [exact H1 | exact H3].
Defined.

(** Claim C5 fails on the code for the unique-key variant: in an open
    table definition the plain key line is dropped, but the UNIQUE KEY
    line is not recognised as a key line and stays in the output. *)
Theorem C5_unique_key_line_kept :
  is_key_line plain_key_line = true /\
  is_key_line unique_key_line = false /\
  new_lines (scan table_with_keys) =
    [qstr "CREATE TABLE `t` ("; qstr "  `a` INTEGER,"; unique_key_line;
     str ");"].
Proof. vm_compute. repeat split; reflexivity. Qed.

(** The part of C5 that holds: in an open table definition a line that
    starts, after white space, with KEY, white space and a quoted name is
    not written to the output. *)
Lemma plain_key_line_dropped (pre post : list text) (line : text) :
  in_create_table (scan pre) || opens_table line = true ->
  is_key_line line = true ->
  new_lines (scan (pre ++ line :: post)) =
    new_lines (scan pre) ++ written_for (scan_line (scan pre) line) post.
Proof.
  intros Hopen Hkey. rewrite scan_app. simpl.
  destruct (scan_from_split post (scan_line (scan pre) line)) as (H1 & _).
  rewrite H1. f_equal.
  unfold scan_line. rewrite open_after_track, Hopen, Hkey. simpl.
  assert (T : new_lines (track_table (scan pre) line) = new_lines (scan pre))
    by (unfold track_table; destruct (opens_table line); auto).
  destruct (is_fk_line line); auto.
  destruct (parse_fk _ line); auto.
Qed.

(** ** Claim on the quotes of insert statements *)

Module InsertFacts.

Lemma no_char_in (x c : ascii) (u t : text) :
  contains [x] (u ++ c :: t) = false -> eqc x c = false.
Proof.
  induction u as [|d u IH]; simpl; intros H; apply orb_false_iff in H.
  - destruct H as [H _]. rewrite andb_true_r in H. exact H.
  - apply IH. tauto.
Qed.

Lemma insert_match (body post : text) (p : option ascii) :
  contains (str ";") body = false ->
  match_at DOTALL insert_re p (str "INSERT INTO" ++ body ++ str ";" ++ post)
  = Some (post, []).
Proof.
  intros Hb. unfold match_at, insert_re, cat. cbn [m].
  rewrite lit_app by reflexivity.
  apply star_lazy_first with (a := body).
  - apply forallb_forall. intros c _. reflexivity.
  - rewrite lit_app by reflexivity. reflexivity.
  - intros u t -> Ht. destruct t as [|c t]; [congruence|].
    simpl. apply (no_char_in ";"%char) in Hb.
    change (eq_lit DOTALL ";" c) with (eqc ";" c). rewrite Hb. reflexivity.
Qed.

Lemma insert_needs_keyword (p : option ascii) (s : text) :
  starts (norm DOTALL (str "INSERT INTO")) (norm DOTALL s) = false ->
  match_at DOTALL insert_re p s = None.
Proof.
  intros H. unfold match_at, insert_re, cat. cbn [m].
  rewrite lit_none; auto.
Qed.

Lemma insert_no_match_in (a b : text) (prev : option ascii) :
  contains (str "INSERT INTO") (a ++ firstn 10 b) = false ->
  no_match_in DOTALL insert_re prev a b = true.
Proof.
  intros H. apply no_match_in_starts with (w := str "INSERT INTO").
  - apply insert_needs_keyword.
  - rewrite !norm_exact by reflexivity. exact H.
Qed.

(** [replace] turns an escaped quote into a doubled one where it meets
    it. *)
Lemma replace_escaped (a b : text) :
  contains escaped_quote a = false ->
  replace escaped_quote doubled_quote (a ++ escaped_quote ++ b) =
  a ++ doubled_quote ++ replace escaped_quote doubled_quote b.
Proof.
  unfold replace. induction a as [|c a IH]; intros H.
  - simpl. reflexivity.
  - assert (E : starts escaped_quote ((c :: a) ++ escaped_quote ++ b)
                = false).
    { simpl in H. apply orb_false_iff in H as [H _].
      destruct a as [|d a]; simpl in *.
      - rewrite andb_false_r in *. destruct (eqc bslash c); reflexivity.
      - exact H. }
    change (replace_go escaped_quote doubled_quote
              ((c :: a) ++ escaped_quote ++ b) 0)
      with (if starts escaped_quote ((c :: a) ++ escaped_quote ++ b)
            then doubled_quote ++
                 replace_go escaped_quote doubled_quote
                   (a ++ escaped_quote ++ b) (length escaped_quote - 1)
            else c :: replace_go escaped_quote doubled_quote
                        (a ++ escaped_quote ++ b) 0).
    rewrite E. simpl. f_equal. apply IH.
    eapply contains_false_tail; eauto.
Qed.

End InsertFacts.

Import InsertFacts.

(** Claim C4, as the specification states it, fails.  The pattern stops
    at the first semicolon, also inside a string, so an escaped quote of
    the insert statement after that semicolon stays; it is bound to the
    upper case, so the escaped quotes of a lower-case insert stay; and it
    takes INSERT INTO wherever it stands, so an escaped quote outside any
    insert statement is doubled when INSERT INTO stands in a string
    before it. *)
Lemma C4_insert_scope_counterexample :
  convert_mysql_to_postgres (str "dump.sql")
    (str "INSERT INTO t VALUES ('a;b\'c');") =
    postgres_header (str "dump.sql") ++
    str "INSERT INTO t VALUES ('a;b\'c');" /\
  convert_mysql_to_postgres (str "dump.sql")
    (str "insert into t values ('it\'s');") =
    postgres_header (str "dump.sql") ++
    str "insert into t values ('it\'s');" /\
  convert_mysql_to_postgres (str "dump.sql")
    (str "UPDATE t SET a='INSERT INTO', b='it\'s';") =
    postgres_header (str "dump.sql") ++
    str "UPDATE t SET a='INSERT INTO', b='it''s';".
Proof. vm_compute. repeat split; reflexivity. Qed.

(** Claim C4, amended: the rule works on the stretches from an upper-case
    INSERT INTO to the first semicolon after it.  In a text where the
    first INSERT INTO comes after [pre], [pre] is left as it is, the
    stretch is replaced by itself with its escaped quotes doubled, and
    the rest is treated in the same way; a text without INSERT INTO is
    left as it is; and the doubling turns each escaped quote of the
    stretch into a doubled quote. *)
Theorem C4_quotes_in_inserts (pre body post other a b : text) :
  contains (str "INSERT INTO") (pre ++ str "INSERT INT") = false ->
  contains (str ";") body = false ->
  contains (str "INSERT INTO") other = false ->
  contains escaped_quote a = false ->
  fix_inserts (pre ++ str "INSERT INTO" ++ body ++ str ";" ++ post) =
    pre ++
    replace escaped_quote doubled_quote
      (str "INSERT INTO" ++ body ++ str ";") ++
    fix_inserts post /\
  fix_inserts other = other /\
  replace escaped_quote doubled_quote (a ++ escaped_quote ++ b) =
    a ++ doubled_quote ++ replace escaped_quote doubled_quote b.
Proof.
  intros Hpre Hbody Hother Ha. split; [|split].
  - unfold fix_inserts.
    replace (pre ++ str "INSERT INTO" ++ body ++ str ";" ++ post)
      with (pre ++ (str "INSERT INTO" ++ body ++ str ";") ++ post)
      by (rewrite <- !app_assoc; reflexivity).
    rewrite sub_first with (cp := @nil (nat * text)).
    + reflexivity.
    + reflexivity.
    + apply insert_no_match_in. exact Hpre.
    + discriminate.
    + rewrite <- !app_assoc. apply insert_match, Hbody.
  - unfold fix_inserts. rewrite <- (app_nil_r other) at 1.
    rewrite sub_pass.
    + apply app_nil_r.
    + reflexivity.
    + apply insert_no_match_in. simpl. rewrite app_nil_r. exact Hother.
  - apply replace_escaped, Ha.
Qed.

Lemma C4_quotes_in_inserts_witness :
  fix_inserts
    (str "-- it\'s; " ++ str "INSERT INTO" ++ str " t VALUES ('it\'s')" ++
     str ";" ++ str " -- don\'t") =
  str "-- it\'s; INSERT INTO t VALUES ('it''s'); -- don\'t" /\
  fix_inserts (str " -- don\'t") = str " -- don\'t" /\
  replace escaped_quote doubled_quote
    (str "'it" ++ escaped_quote ++ str "s'") = str "'it''s'".
Proof.
  destruct (@C4_quotes_in_inserts (str "-- it\'s; ")
              (str " t VALUES ('it\'s')") (str " -- don\'t")
              (str " -- don\'t") (str "'it") (str "s'"))
    as (H1 & H2 & H3); try reflexivity.
  split; [exact H1 | split; [exact H2 | exact H3]].
Defined.

(** ** Claim on the tiny integer types *)

Module TinyintFacts.

Lemma boolean_needs_tinyint (p : option ascii) (s : text) :
  starts (norm IGNORECASE (str "tinyint")) (norm IGNORECASE s) = false ->
  match_at IGNORECASE tinyint1_re p s = None.
Proof.
  intros H. unfold match_at, tinyint1_re.
  apply m_lit_none. apply (lit_app_none IGNORECASE (str "tinyint") (str "(1)")).
  apply lit_none, H.
Qed.

Lemma smallint_needs_tinyint (p : option ascii) (s : text) :
  starts (norm IGNORECASE (str "tinyint")) (norm IGNORECASE s) = false ->
  match_at IGNORECASE tinyint_re p s = None.
Proof.
  intros H. unfold match_at, tinyint_re, cat. cbn [m].
  rewrite lit_none; auto.
Qed.

Lemma boolean_needs_t (p : option ascii) (c : ascii) (s : text) :
  eq_lit IGNORECASE "t" c = false ->
  match_at IGNORECASE tinyint1_re p (c :: s) = None.
Proof. intros H. unfold match_at, tinyint1_re. simpl. rewrite H. auto. Qed.

Lemma digit_not_t (c : ascii) :
  is_digit c = true -> eq_lit IGNORECASE "t" c = false.
Proof. all_chars c. Qed.

Lemma digit_not_paren (c : ascii) :
  is_digit c = true -> eq_lit IGNORECASE ")" c = false.
Proof. all_chars c. Qed.

Lemma digits_no_t (ds : text) :
  forallb is_digit ds = true ->
  forallb (fun c => negb (eq_lit IGNORECASE "t" c)) ds = true.
Proof.
  induction ds as [|d ds IH]; simpl; auto. intros H.
  apply andb_true_iff in H as [H1 H2]. rewrite digit_not_t; auto.
Qed.

Section Occurrence.

Variables (pre T : text).
Hypothesis HT : to_lower T = str "tinyint".
Hypothesis Hpre : contains_nocase (str "tinyint") (pre ++ str "tinyin") = false.

Lemma T_chars :
  exists c1 c2 c3 c4 c5 c6 c7,
    T = [c1; c2; c3; c4; c5; c6; c7] /\
    lower c1 = "t"%char /\ lower c2 = "i"%char /\ lower c3 = "n"%char /\
    lower c4 = "y"%char /\ lower c5 = "i"%char /\ lower c6 = "n"%char /\
    lower c7 = "t"%char.
Proof.
  unfold to_lower in HT.
  destruct T as [|c1 [|c2 [|c3 [|c4 [|c5 [|c6 [|c7 [|c8 t]]]]]]]];
    try discriminate HT.
  injection HT as H1 H2 H3 H4 H5 H6 H7.
  exists c1, c2, c3, c4, c5, c6, c7. repeat split; assumption.
Qed.

Lemma pre_lower_clear :
  contains (str "tinyint") (map lower pre) = false.
Proof.
  unfold contains_nocase in Hpre. rewrite map_app in Hpre.
  eapply contains_app_false_l. exact Hpre.
Qed.

(** No match of either pattern starts in [pre] when an occurrence
    follows. *)
Lemma pre_clear (r : regex) (x : text) (prev : option ascii) :
  (forall p s,
      starts (norm IGNORECASE (str "tinyint")) (norm IGNORECASE s) = false ->
      match_at IGNORECASE r p s = None) ->
  no_match_in IGNORECASE r prev pre (T ++ x) = true.
Proof.
  intros Hr. apply no_match_in_starts with (w := str "tinyint"); auto.
  destruct T_chars as (c1 & c2 & c3 & c4 & c5 & c6 & c7 & -> & H).
  destruct H as (H1 & H2 & H3 & H4 & H5 & H6 & H7).
  unfold contains_nocase in Hpre. rewrite map_app in Hpre.
  unfold norm. rewrite map_app. simpl.
  change (normc IGNORECASE) with lower.
  rewrite H1, H2, H3, H4, H5, H6. exact Hpre.
Qed.

(** Nor in [pre] followed by a word that starts with a letter foreign to
    tinyint, as the replacements do. *)
Lemma pre_clear_foreign (r : regex) (c : ascii) (x : text)
  (prev : option ascii) :
  (forall p s,
      starts (norm IGNORECASE (str "tinyint")) (norm IGNORECASE s) = false ->
      match_at IGNORECASE r p s = None) ->
  ~ In (lower c) (str "tinyint") ->
  no_match_in IGNORECASE r prev pre (c :: x) = true.
Proof.
  intros Hr Hc. apply no_match_in_starts with (w := str "tinyint"); auto.
  unfold norm. rewrite map_app. change (normc IGNORECASE) with lower.
  change (length (str "tinyint") - 1) with 6.
  change (map lower (str "tinyint")) with (str "tinyint").
  change (firstn 6 (c :: x)) with (c :: firstn 5 x).
  change (map lower (c :: firstn 5 x))
    with (lower c :: map lower (firstn 5 x)).
  apply contains_app_foreign; auto.
  - change (length (str "tinyint")) with 7.
    change (length (lower c :: map lower (firstn 5 x)))
      with (S (length (map lower (firstn 5 x)))).
    rewrite length_map, length_firstn. lia.
  - apply pre_lower_clear.
Qed.

End Occurrence.

Lemma same_tinyint (T w : text) :
  to_lower T = str "tinyint" ->
  same IGNORECASE (str "tinyint" ++ w) (T ++ w) = true.
Proof.
  intros HT. apply same_norm. unfold norm. rewrite !map_app.
  change (map (normc IGNORECASE) T) with (to_lower T). rewrite HT.
  reflexivity.
Qed.

Lemma boolean_hit (T post : text) (p : option ascii) :
  to_lower T = str "tinyint" ->
  match_at IGNORECASE tinyint1_re p ((T ++ str "(1)") ++ post)
  = Some (post, []).
Proof.
  intros HT. unfold match_at, tinyint1_re.
  rewrite m_lit_app; [reflexivity|].
  apply same_tinyint, HT.
Qed.

Lemma smallint_hit (T ds post : text) (p : option ascii) :
  to_lower T = str "tinyint" ->
  ds <> [] -> forallb is_digit ds = true ->
  exists cp,
    match_at IGNORECASE tinyint_re p
      ((T ++ str "(" ++ ds ++ str ")") ++ post) = Some (post, cp).
Proof.
  intros HT Hne Hds. destruct ds as [|d ds]; [congruence|].
  simpl in Hds. apply andb_true_iff in Hds as [Hd Hds].
  eexists. unfold match_at, tinyint_re, cat, Plus. cbn [m].
  rewrite <- !app_assoc.
  rewrite lit_app by (rewrite <- (app_nil_r T), <- (app_nil_r (str "tinyint"));
                      apply same_tinyint, HT).
  rewrite lit_app by reflexivity.
  change ((d :: ds) ++ str ")" ++ post) with (d :: ds ++ str ")" ++ post).
  cbv beta iota. change (mem IGNORECASE CDigit d) with (is_digit d).
  rewrite Hd.
  erewrite star_greedy_run; [reflexivity|exact Hds|reflexivity|].
  rewrite lit_app by reflexivity. reflexivity.
Qed.

(** The boolean pattern does not match a tinyint of another size, nor
    anywhere inside it. *)
Lemma boolean_miss (T ds b : text) (p : option ascii) :
  to_lower T = str "tinyint" ->
  forallb is_digit ds = true -> ds <> str "1" ->
  no_match_in IGNORECASE tinyint1_re p (T ++ str "(" ++ ds ++ str ")") b
  = true.
Proof.
  intros HT Hds Hne.
  destruct (T_chars T HT) as (c1 & c2 & c3 & c4 & c5 & c6 & c7 & -> & H).
  destruct H as (H1 & H2 & H3 & H4 & H5 & H6 & H7).
  assert (E : forall x c y, lower c = y -> eqc (lower x) y = false ->
                            eq_lit IGNORECASE x c = false).
  { intros x c y <- H. exact H. }
  assert (E2 := E "t"%char c2 _ H2 eq_refl).
  assert (E3 := E "t"%char c3 _ H3 eq_refl).
  assert (E4 := E "t"%char c4 _ H4 eq_refl).
  assert (E5 := E "t"%char c5 _ H5 eq_refl).
  assert (E6 := E "t"%char c6 _ H6 eq_refl).
  replace ([c1; c2; c3; c4; c5; c6; c7] ++ str "(" ++ ds ++ str ")")
    with ([c1] ++ [c2; c3; c4; c5; c6] ++ [c7] ++ str "(" ++ ds ++ str ")")
    by reflexivity.
  apply no_match_in_app; [|apply no_match_in_app; [|apply no_match_in_app]].
  - (* at the head: the size is not 1 *)
    cbn [no_match_in]. unfold match_at, tinyint1_re.
    rewrite m_lit_none; auto.
    change (([c1] ++ ([c2; c3; c4; c5; c6] ++ [c7] ++
             str "(" ++ ds ++ str ")") ++ b))
      with ([c1; c2; c3; c4; c5; c6; c7] ++ str "(" ++
            (ds ++ str ")") ++ b).
    change (str "tinyint(1)") with (str "tinyint(" ++ str "1)").
    assert (L : forall w w' q s q' s',
               lit IGNORECASE w q s = Some (q', s') ->
               lit IGNORECASE w' q' s' = None ->
               lit IGNORECASE (w ++ w') q s = None).
    { induction w as [|a w IH]; intros w' q s q' s' A B; simpl in *.
      - inversion A; subst; auto.
      - destruct s as [|c s]; auto. destruct (eq_lit IGNORECASE a c); auto.
        eapply IH; eauto. }
    eapply L.
    + rewrite app_assoc. apply lit_app.
      change (str "tinyint(") with (str "tinyint" ++ str "(").
      apply same_norm. unfold norm. rewrite !map_app.
      change (map (normc IGNORECASE) [c1; c2; c3; c4; c5; c6; c7])
        with (map lower [c1; c2; c3; c4; c5; c6; c7]).
      simpl map at 3. rewrite H1, H2, H3, H4, H5, H6, H7. reflexivity.
    + destruct ds as [|d [|d2 ds]]; simpl; auto.
      * destruct (eq_lit IGNORECASE "1" d) eqn:Ed; auto.
        exfalso. apply Hne. f_equal. revert Hds Ed. clear. all_chars d.
      * destruct (eq_lit IGNORECASE "1" d); auto.
        simpl in Hds. apply andb_true_iff in Hds as [_ Hds].
        apply andb_true_iff in Hds as [Hd2 _].
        rewrite digit_not_paren; auto.
  - apply no_match_in_first with (x := "t"%char).
    + apply boolean_needs_t.
    + simpl. rewrite E2, E3, E4, E5, E6. reflexivity.
  - cbn [no_match_in last_of app]. unfold match_at, tinyint1_re. simpl.
    destruct (eq_lit IGNORECASE "t" c7); reflexivity.
  - apply no_match_in_first with (x := "t"%char).
    + apply boolean_needs_t.
    + rewrite !forallb_app. rewrite (digits_no_t ds Hds). reflexivity.
Qed.

Lemma smallint_not_in_boolean (b : text) (p : option ascii) :
  no_match_in IGNORECASE tinyint_re p (str "BOOLEAN") b = true.
Proof. reflexivity. Qed.

(** *** A tinyint without size *)

Lemma open_paren_only (c : ascii) :
  eq_lit IGNORECASE "(" c = true -> c = "("%char.
Proof. all_chars c. Qed.

Lemma close_paren_only (c : ascii) :
  eq_lit IGNORECASE ")" c = true -> c = ")"%char.
Proof. all_chars c. Qed.

Lemma one_only (c : ascii) : eq_lit IGNORECASE "1" c = true -> c = "1"%char.
Proof. all_chars c. Qed.

Lemma t_not_digit (c : ascii) :
  eq_lit IGNORECASE "t" c = true -> is_digit c = false.
Proof. all_chars c. Qed.

Lemma t_not_open (c : ascii) :
  eq_lit IGNORECASE "t" c = true -> eqc c "(" = false.
Proof. all_chars c. Qed.

Lemma t_not_close (c : ascii) :
  eq_lit IGNORECASE "t" c = true -> eqc ")" c = false.
Proof. all_chars c. Qed.

Lemma length_more (n k : nat) : (n =? k + n) = (k =? 0).
Proof.
  destruct k; simpl.
  - apply Nat.eqb_refl.
  - apply Nat.eqb_neq. lia.
Qed.

(** The boolean rule keeps the first character of a text, or puts a B
    there. *)
Lemma boolean_head (P : ascii -> bool) (s : text) :
  P "B"%char = false ->
  (forall c, eq_lit IGNORECASE "t" c = true -> P c = false) ->
  head_is P (tinyint1_to_boolean s) = head_is P s.
Proof.
  intros HB Ht. destruct s as [|c s]; [reflexivity|].
  unfold tinyint1_to_boolean, sub. rewrite sub_go_cons.
  destruct (match_at IGNORECASE tinyint1_re None (c :: s)) as [[rest cp]|]
    eqn:M; [|reflexivity].
  assert (Hc : P c = false).
  { apply Ht. destruct (eq_lit IGNORECASE "t" c) eqn:E; auto.
    rewrite boolean_needs_t in M; [discriminate|exact E]. }
  simpl head_is at 2. rewrite Hc.
  unfold const. change (str "BOOLEAN") with ("B"%char :: str "OOLEAN").
  destruct (length (taken (c :: s) rest)); simpl; exact HB.
Qed.

Lemma boolean_skip (c : ascii) (s : text) :
  eq_lit IGNORECASE "t" c = false ->
  tinyint1_to_boolean (c :: s) = c :: tinyint1_to_boolean s.
Proof.
  intros H. unfold tinyint1_to_boolean, sub.
  rewrite sub_go_cons, boolean_needs_t by exact H.
  f_equal. apply sub_go_blind. reflexivity.
Qed.

Lemma boolean_digits (d s : text) :
  forallb is_digit d = true ->
  tinyint1_to_boolean (d ++ s) = d ++ tinyint1_to_boolean s.
Proof.
  intros H. unfold tinyint1_to_boolean. apply sub_pass; [reflexivity|].
  apply no_match_in_first with (x := "t"%char).
  - apply boolean_needs_t.
  - apply digits_no_t, H.
Qed.

(** The boolean rule neither makes nor unmakes a size at the head of a
    text. *)
Lemma sized_ahead_boolean (post : text) :
  sized_ahead (tinyint1_to_boolean post) = sized_ahead post.
Proof.
  unfold sized_ahead.
  rewrite (boolean_head (fun c => eqc c "("%char));
    [|reflexivity|apply t_not_open].
  destruct post as [|c q]; [reflexivity|].
  simpl head_is. destruct (eqc c "(") eqn:E; [|reflexivity].
  apply eqc_eq in E. subst c.
  rewrite boolean_skip by reflexivity. simpl tl.
  destruct (lstrip_split is_digit q) as (d & Eq & Hd).
  pose proof (lstrip_head is_digit q) as Hr.
  set (r := lstrip_by is_digit q) in *.
  assert (Hb : head_is is_digit (tinyint1_to_boolean r) = false).
  { rewrite boolean_head; auto. apply t_not_digit. }
  rewrite Eq at 1 2 3. rewrite boolean_digits by exact Hd.
  rewrite lstrip_run by auto.
  rewrite (boolean_head (eqc ")"%char)); [|reflexivity|apply t_not_close].
  rewrite Eq. rewrite !length_app, !length_more. reflexivity.
Qed.

Lemma plus_none_head (f : flags) (cs : cset) (p : option ascii) (s : text)
      (cp : caps) (k : cont) :
  head_is (mem f cs) s = false -> m f (Plus cs) p s cp k = None.
Proof.
  intros H. unfold Plus. cbn [m]. destruct s as [|c s]; auto.
  simpl in H. rewrite H. reflexivity.
Qed.

(** Without a size at its head, a text has no match of the size. *)
Lemma sized_none (s : text) (q : option ascii) (cp : caps) (k : cont) :
  sized_ahead s = false ->
  m IGNORECASE
    (Group 1 (cat [Lit (str "("); Plus CDigit; Lit (str ")")])) q s cp k
  = None.
Proof.
  intros H. rewrite m_group. unfold cat. rewrite m_seq.
  change (str "(") with ["("%char]. change (str ")") with [")"%char].
  destruct s as [|c s]; [reflexivity|].
  destruct (eq_lit IGNORECASE "(" c) eqn:E;
    [|cbn [m lit]; rewrite E; reflexivity].
  apply open_paren_only in E. subst c.
  change ("("%char :: s) with (["("%char] ++ s).
  rewrite m_lit_app by reflexivity.
  unfold sized_ahead in H. simpl head_is in H. simpl tl in H.
  change (eqc "(" "(") with true in H. rewrite andb_true_l in H.
  destruct (lstrip_split is_digit s) as (d & Es & Hd).
  pose proof (lstrip_head is_digit s) as Hr.
  set (r := lstrip_by is_digit s) in *.
  rewrite m_seq. destruct d as [|d0 d].
  - simpl in Es. rewrite <- Es in *. apply plus_none_head. exact Hr.
  - rewrite Es in H. rewrite length_app, length_more in H.
    simpl in H.
    rewrite Es. simpl in Hd. apply andb_true_iff in Hd as [Hd0 Hd].
    unfold Plus. rewrite m_seq. rewrite <- app_comm_cons. cbn [m].
    change (mem IGNORECASE CDigit d0) with (is_digit d0). rewrite Hd0.
    apply star_greedy_none; auto.
    + apply stops_head. exact Hr.
    + intros u t Eu. destruct t as [|e t].
      * simpl app. destruct r as [|e r0]; [reflexivity|].
        simpl in H. cbn [lit].
        destruct (eq_lit IGNORECASE ")" e) eqn:Ee; auto.
        apply close_paren_only in Ee. subst e. discriminate H.
      * rewrite Eu, forallb_app in Hd. apply andb_true_iff in Hd as [_ He].
        simpl in He. apply andb_true_iff in He as [He _].
        rewrite <- app_comm_cons. cbn [lit].
        rewrite digit_not_paren by exact He. reflexivity.
Qed.

Lemma lit_then_none (f : flags) (w w' : text) (q q' : option ascii)
      (s s' : text) :
  lit f w q s = Some (q', s') -> lit f w' q' s' = None ->
  lit f (w ++ w') q s = None.
Proof.
  revert q s; induction w as [|a w IH]; intros q s A B; simpl in *.
  - inversion A; subst; auto.
  - destruct s as [|c s]; auto. destruct (eq_lit f a c); auto.
Qed.

(** A size 1 at the head of a text is a size. *)
Lemma not_sized_not_one (post : text) (q : option ascii) :
  sized_ahead post = false -> lit IGNORECASE (str "(1)") q post = None.
Proof.
  intros H. change (str "(1)") with ["("%char; "1"%char; ")"%char].
  destruct post as [|a [|b [|c post]]]; cbn [lit];
    repeat match goal with
           | |- context [if ?x then _ else _] => destruct x eqn:?
           end; auto.
  exfalso.
  repeat match goal with
         | E : eq_lit IGNORECASE "(" _ = true |- _ =>
             apply open_paren_only in E
         | E : eq_lit IGNORECASE "1" _ = true |- _ => apply one_only in E
         | E : eq_lit IGNORECASE ")" _ = true |- _ =>
             apply close_paren_only in E
         end.
  subst. unfold sized_ahead in H. simpl in H.
  destruct (length post) as [|n] eqn:L; simpl in H; try discriminate.
  rewrite (proj2 (Nat.eqb_neq n (S n))) in H by lia. discriminate.
Qed.

Section Bare.

Variables (pre T post : text).
Hypothesis HT : to_lower T = str "tinyint".
Hypothesis Hpre : contains_nocase (str "tinyint") (pre ++ str "tinyin") = false.
Hypothesis Hsize : sized_ahead post = false.
Hypothesis Hover : starts (str "inyint(1)") (to_lower post) = false.

(** A tinyint without size holds no match of the boolean pattern. *)
Lemma boolean_miss_bare (p : option ascii) :
  no_match_in IGNORECASE tinyint1_re p T post = true.
Proof.
  destruct (T_chars T HT) as (c1 & c2 & c3 & c4 & c5 & c6 & c7 & E & H).
  destruct H as (H1 & H2 & H3 & H4 & H5 & H6 & H7).
  assert (F : forall x c y, lower c = y -> eqc (lower x) y = false ->
                            eq_lit IGNORECASE x c = false).
  { intros x c y <- H. exact H. }
  assert (E2 := F "t"%char c2 _ H2 eq_refl).
  assert (E3 := F "t"%char c3 _ H3 eq_refl).
  assert (E4 := F "t"%char c4 _ H4 eq_refl).
  assert (E5 := F "t"%char c5 _ H5 eq_refl).
  assert (E6 := F "t"%char c6 _ H6 eq_refl).
  assert (A : match_at IGNORECASE tinyint1_re p (T ++ post) = None).
  { unfold match_at, tinyint1_re. apply m_lit_none.
    change (str "tinyint(1)") with (str "tinyint" ++ str "(1)").
    eapply lit_then_none.
    - apply lit_app. rewrite <- (app_nil_r T), <- (app_nil_r (str "tinyint")).
      apply same_tinyint, HT.
    - apply not_sized_not_one, Hsize. }
  rewrite E in *.
  replace [c1; c2; c3; c4; c5; c6; c7]
    with ([c1] ++ [c2; c3; c4; c5; c6] ++ [c7]) by reflexivity.
  apply no_match_in_app; [|apply no_match_in_app].
  - cbn [no_match_in]. simpl app in *. rewrite A. reflexivity.
  - apply no_match_in_first with (x := "t"%char).
    + apply boolean_needs_t.
    + simpl. rewrite E2, E3, E4, E5, E6. reflexivity.
  - cbn [no_match_in last_of app]. unfold match_at, tinyint1_re.
    rewrite m_lit_none; auto. apply lit_none.
    unfold norm. change (normc IGNORECASE) with lower.
    simpl map. rewrite H7. simpl. exact Hover.
Qed.

Lemma bare_tinyint :
  tinyint_rules (pre ++ T ++ post) =
  pre ++ str "SMALLINT" ++ tinyint_rules post.
Proof.
  assert (HT0 : T <> []) by (intros ->; discriminate HT).
  unfold tinyint_rules.
  assert (A : tinyint1_to_boolean (pre ++ T ++ post) =
              pre ++ T ++ tinyint1_to_boolean post).
  { unfold tinyint1_to_boolean. rewrite app_assoc, sub_pass.
    - rewrite <- app_assoc. reflexivity.
    - reflexivity.
    - apply no_match_in_app.
      + apply pre_clear; auto. apply boolean_needs_tinyint.
      + apply boolean_miss_bare. }
  rewrite A. unfold tinyint_to_smallint.
  rewrite sub_first with (cp := @nil (nat * text)).
  - reflexivity.
  - reflexivity.
  - apply pre_clear; auto. apply smallint_needs_tinyint.
  - exact HT0.
  - unfold match_at, tinyint_re, cat. rewrite m_seq.
    apply m_lit_ok.
    + rewrite <- (app_nil_r T), <- (app_nil_r (str "tinyint")).
      apply same_tinyint, HT.
    + cbv beta. rewrite m_opt_none; [reflexivity|].
      apply sized_none. rewrite sized_ahead_boolean. exact Hsize.
Qed.

End Bare.

End TinyintFacts.

Import TinyintFacts.




(** ** Claim on the auto-increment columns *)

Module AutoIncrementFacts.

Lemma same_nocase (w w' : text) :
  to_lower w' = to_lower w -> same IGNORECASE w w' = true.
Proof. intros H. apply same_norm. symmetry. exact H. Qed.

Lemma word_not_dq (c : ascii) :
  is_word c = true -> eq_lit IGNORECASE dq c = false.
Proof. all_chars c. Qed.

Lemma space_not_dq (c : ascii) :
  is_space c = true -> eq_lit IGNORECASE dq c = false.
Proof. all_chars c. Qed.

Lemma letter_not_space (c : ascii) :
  is_lower (lower c) = true -> is_space c = false.
Proof. all_chars c. Qed.

(** A keyword, in any letter case, ends a run of white space. *)
Lemma stops_keyword (w rest : text) (l : ascii) (ls : text) :
  to_lower w = l :: ls -> is_lower l = true ->
  stops (mem IGNORECASE CSpace) (w ++ rest).
Proof.
  intros H Hl. destruct w as [|c w]; [discriminate H|].
  injection H as H _. subst l. simpl. apply letter_not_space, Hl.
Qed.

Lemma no_quote_here (c : ascii) (s : text) (p : option ascii) (cp : caps)
  (k : cont) :
  eq_lit IGNORECASE dq c = false ->
  m IGNORECASE (Lit [dq]) p (c :: s) cp k = None.
Proof. intros H. simpl. rewrite H. reflexivity. Qed.

(** The quoted name: group 1 of the pattern. *)
Lemma quoted_name_match (oq cq : bool) (name rest : text) (c : ascii)
  (p : option ascii) (cp : caps) (k : cont) (r : text * caps) :
  name <> [] -> forallb is_word name = true -> is_space c = true ->
  k (last_of (quote oq ++ name ++ quote cq) p) (c :: rest) cp = Some r ->
  m IGNORECASE quoted_name_re p
    ((quote oq ++ name ++ quote cq) ++ c :: rest) cp k = Some r.
Proof.
  intros Hne Hw Hc Hk. unfold quoted_name_re, cat.
  rewrite <- !app_assoc. rewrite !last_of_app in Hk.
  assert (Step : forall p0,
    k (last_of (quote cq) (last_of name p0)) (c :: rest) cp = Some r ->
    m IGNORECASE (Seq (Plus CWord) (Opt (Lit [dq]))) p0
      (name ++ quote cq ++ c :: rest) cp k = Some r).
  { intros p0 Hk0. rewrite m_seq. apply m_plus_run; auto.
    - destruct cq; simpl; auto. apply space_not_word, Hc.
    - destruct cq.
      + apply m_opt_some. apply (m_lit_ok IGNORECASE [dq] [dq]); auto.
      + rewrite m_opt_none; auto. apply no_quote_here, space_not_dq, Hc. }
  rewrite m_seq. destruct oq.
  - apply m_opt_some. apply (m_lit_ok IGNORECASE [dq] [dq]); auto.
  - rewrite m_opt_none.
    + apply Step. exact Hk.
    + destruct name as [|n name]; [congruence|]. simpl in Hw.
      apply andb_true_iff in Hw as [Hn _].
      apply no_quote_here, word_not_dq, Hn.
Qed.

(** The type keyword: group 2. *)
Lemma int_type_match (ty rest : text) (p : option ascii) (cp : caps)
  (k : cont) (r : text * caps) :
  to_lower ty = str "int" \/ to_lower ty = str "bigint" \/
  to_lower ty = str "smallint" ->
  k (last_of ty p) rest cp = Some r ->
  m IGNORECASE int_type_re p (ty ++ rest) cp k = Some r.
Proof.
  intros Hty Hk. unfold int_type_re.
  assert (N : forall w,
             starts (map lower w) (to_lower ty ++ map lower rest) = false ->
             m IGNORECASE (Lit w) p (ty ++ rest) cp k = None).
  { intros w H. apply m_lit_none, lit_none. unfold norm. rewrite map_app.
    exact H. }
  destruct Hty as [H | [H | H]].
  - apply m_alt_l, m_lit_ok; auto. apply same_nocase. rewrite H. reflexivity.
  - rewrite m_alt_r by (apply N; rewrite H; reflexivity).
    apply m_alt_l, m_lit_ok; auto. apply same_nocase. rewrite H. reflexivity.
  - rewrite !m_alt_r by (apply N; rewrite H; reflexivity).
    apply m_lit_ok; auto. apply same_nocase. rewrite H. reflexivity.
Qed.

Ltac keyword H := apply same_nocase; rewrite H; reflexivity.
Ltac letter H := eapply stops_keyword; [rewrite H; reflexivity | reflexivity].

(** NOT NULL AUTO_INCREMENT, with white space before each word. *)
Lemma modifiers_match (w2 kn w3 ku w4 ka post : text) (p : option ascii)
  (cp : caps) :
  w2 <> [] -> forallb is_space w2 = true ->
  w3 <> [] -> forallb is_space w3 = true ->
  w4 <> [] -> forallb is_space w4 = true ->
  to_lower kn = str "not" -> to_lower ku = str "null" ->
  to_lower ka = str "auto_increment" ->
  m IGNORECASE not_null_auto_increment_re p
    (w2 ++ kn ++ w3 ++ ku ++ w4 ++ ka ++ post) cp accept = Some (post, cp).
Proof.
  intros N2 S2 N3 S3 N4 S4 Hn Hu Ha.
  unfold not_null_auto_increment_re, cat.
  rewrite m_seq. apply m_plus_run; auto; [letter Hn|]. cbv beta.
  rewrite m_seq. apply m_lit_ok; [keyword Hn|]. cbv beta.
  rewrite m_seq. apply m_plus_run; auto; [letter Hu|]. cbv beta.
  rewrite m_seq. apply m_lit_ok; [keyword Hu|]. cbv beta.
  rewrite m_seq. apply m_plus_run; auto; [letter Ha|]. cbv beta.
  apply m_lit_ok; [keyword Ha|]. reflexivity.
Qed.

(** A whole column declaration is one match, with the name in group 1. *)
Lemma declaration_match (oq cq : bool)
  (name w1 ty w2 kn w3 ku w4 ka post : text) (p : option ascii) :
  name <> [] -> forallb is_word name = true ->
  w1 <> [] -> forallb is_space w1 = true ->
  w2 <> [] -> forallb is_space w2 = true ->
  w3 <> [] -> forallb is_space w3 = true ->
  w4 <> [] -> forallb is_space w4 = true ->
  to_lower ty = str "int" \/ to_lower ty = str "bigint" \/
  to_lower ty = str "smallint" ->
  to_lower kn = str "not" -> to_lower ku = str "null" ->
  to_lower ka = str "auto_increment" ->
  match_at IGNORECASE auto_increment_re p
    (((quote oq ++ name ++ quote cq) ++
      w1 ++ ty ++ w2 ++ kn ++ w3 ++ ku ++ w4 ++ ka) ++ post) =
  Some (post, [(2, ty); (1, quote oq ++ name ++ quote cq)]).
Proof.
  intros Nn Sn N1 S1 N2 S2 N3 S3 N4 S4 Hty Hn Hu Ha.
  unfold match_at, auto_increment_re, cat.
  rewrite <- !(app_assoc _ _ post).
  destruct w1 as [|c w1]; [congruence|].
  rewrite <- (app_comm_cons w1).
  rewrite m_seq, m_group.
  assert (Hc : is_space c = true)
    by (simpl in S1; apply andb_true_iff in S1; tauto).
  apply quoted_name_match; auto. cbv beta. rewrite taken_app.
  rewrite (app_comm_cons w1).
  rewrite m_seq. apply m_plus_run; auto.
  { destruct Hty as [H | [H | H]]; letter H. }
  cbv beta. rewrite m_seq, m_group.
  apply int_type_match; auto. cbv beta. rewrite taken_app.
  apply modifiers_match; auto.
Qed.

End AutoIncrementFacts.

Import AutoIncrementFacts.

(** Claim C2, as the specification states it, fails: a key column whose
    integer type has a size, as in int(11), keeps its AUTO_INCREMENT and
    gets no SERIAL. *)
Lemma C2_sized_integer_counterexample :
  contains (str "AUTO_INCREMENT")
    (convert_mysql_to_postgres (str "dump.sql") sized_autoincrement) = true /\
  contains (str "SERIAL")
    (convert_mysql_to_postgres (str "dump.sql") sized_autoincrement) = false.
Proof. vm_compute. split; reflexivity. Qed.

(** Claim C2, amended: the rule covers the types int, bigint and smallint
    written without size.  A column declaration made of a name of word
    characters, with or without quotes, white space, one of these types,
    and NOT NULL AUTO_INCREMENT with white space between the words, in
    any letter case, is rewritten to the name followed by SERIAL: when no
    match starts in the text [pre] before the declaration, [pre] is kept,
    the declaration becomes the name and SERIAL, and the text after it is
    treated in the same way. *)
Theorem C2_auto_increment_columns (oq cq : bool)
  (pre name w1 ty w2 kn w3 ku w4 ka post : text) :
  name <> [] -> forallb is_word name = true ->
  w1 <> [] -> forallb is_space w1 = true ->
  w2 <> [] -> forallb is_space w2 = true ->
  w3 <> [] -> forallb is_space w3 = true ->
  w4 <> [] -> forallb is_space w4 = true ->
  to_lower ty = str "int" \/ to_lower ty = str "bigint" \/
  to_lower ty = str "smallint" ->
  to_lower kn = str "not" -> to_lower ku = str "null" ->
  to_lower ka = str "auto_increment" ->
  no_match_in IGNORECASE auto_increment_re None pre
    (((quote oq ++ name ++ quote cq) ++
      w1 ++ ty ++ w2 ++ kn ++ w3 ++ ku ++ w4 ++ ka) ++ post) = true ->
  auto_increment_to_serial
    (pre ++
     ((quote oq ++ name ++ quote cq) ++
      w1 ++ ty ++ w2 ++ kn ++ w3 ++ ku ++ w4 ++ ka) ++ post) =
  pre ++ ((quote oq ++ name ++ quote cq) ++ str " SERIAL") ++
  auto_increment_to_serial post.
Proof.
  intros Nn Sn N1 S1 N2 S2 N3 S3 N4 S4 Hty Hn Hu Ha Hpre.
  unfold auto_increment_to_serial.
  rewrite sub_first
    with (cp := [(2, ty); (1, quote oq ++ name ++ quote cq)]).
  - reflexivity.
  - reflexivity.
  - exact Hpre.
  - destruct oq; [discriminate|]. destruct name; [congruence|discriminate].
  - apply declaration_match; auto.
Qed.

Lemma C2_auto_increment_columns_witness :
  auto_increment_to_serial
    (qstr "  `id` bigint  NOT NULL Auto_Increment,") =
  qstr "  `id` SERIAL,".
Proof.
  apply (@C2_auto_increment_columns true true (str "  ") (str "id")
           (str " ") (str "bigint") (str "  ") (str "NOT") (str " ")
           (str "NULL") (str " ") (str "Auto_Increment") (str ","));
    try discriminate; try reflexivity.
  right; left; reflexivity.
Defined.

(** ** Claim on the clean-up after the scan *)

Module CleanupFacts.

Lemma blank_space (s : text) :
  forallb is_blank s = true -> forallb is_space s = true.
Proof.
  induction s as [|c s IH]; simpl; auto. intros H.
  apply andb_true_iff in H as [H1 H2]. unfold is_blank in H1.
  apply andb_true_iff in H1 as [H1 _]. rewrite H1; auto.
Qed.

Lemma blank_not_nl (c : ascii) :
  is_blank c = true -> eq_lit no_flags nl c = false.
Proof. all_chars c. Qed.

Lemma space_without_nl (s : text) :
  forallb is_space s = true -> existsb (eqc nl) s = false ->
  forallb is_blank s = true.
Proof.
  induction s as [|c s IH]; simpl; auto. intros H E.
  apply andb_true_iff in H as [H1 H2]. apply orb_false_iff in E as [E1 E2].
  unfold is_blank. rewrite H1. simpl.
  replace (eqc c nl) with false; simpl; auto.
Qed.

(** White space with a line feed in it splits at its last line feed. *)
Lemma last_line_feed (ws : text) :
  forallb is_space ws = true -> existsb (eqc nl) ws = true ->
  exists a b, ws = a ++ nl :: b /\
              forallb is_space a = true /\ forallb is_blank b = true.
Proof.
  induction ws as [|c ws IH]; simpl; intros H E; try discriminate.
  apply andb_true_iff in H as [Hc H].
  destruct (existsb (eqc nl) ws) eqn:E'.
  - destruct (IH H eq_refl) as (a & b & -> & Ha & Hb).
    exists (c :: a), b. simpl. rewrite Hc. auto.
  - rewrite orb_false_r in E. apply eqc_eq in E. subst c.
    exists [], ws. split; auto. split; auto. apply space_without_nl; auto.
Qed.

Lemma comma_match (ws1 ws2 post : text) (p : option ascii) :
  forallb is_space ws1 = true -> forallb is_space ws2 = true ->
  match_at no_flags trailing_comma_re p
    ((str "," ++ (ws1 ++ nl :: ws2) ++ str ");") ++ post) =
  Some (post, [(1, (ws1 ++ nl :: ws2) ++ str ");")]).
Proof.
  intros H1 H2.
  destruct (last_line_feed (ws1 ++ nl :: ws2)) as (a & b & E & Ha & Hb).
  { rewrite forallb_app. simpl. rewrite H1, H2. reflexivity. }
  { rewrite existsb_app. apply orb_true_iff. right. apply existsb_exists.
    exists nl. split; [left; reflexivity | apply eqc_refl]. }
  rewrite E. clear E H1 H2 ws1 ws2.
  unfold match_at, trailing_comma_re, cat.
  rewrite <- !app_assoc.
  rewrite m_seq, m_lit_app by reflexivity. cbv beta.
  rewrite m_group, m_seq. cbn [m].
  change (mem no_flags CSpace) with is_space.
  rewrite <- app_comm_cons.
  replace (a ++ nl :: b ++ str ");" ++ post)
    with (a ++ (nl :: b) ++ str ");" ++ post) by reflexivity.
  assert (T : taken (a ++ (nl :: b) ++ str ");" ++ post) post =
              a ++ (nl :: b) ++ str ");").
  { replace (a ++ (nl :: b) ++ str ");" ++ post)
      with ((a ++ (nl :: b) ++ str ");") ++ post)
      by (rewrite <- !app_assoc; reflexivity).
    apply taken_app. }
  apply star_greedy_first.
  - exact Ha.
  - simpl. rewrite (blank_space _ Hb). reflexivity.
  - reflexivity.
  - change ((nl :: b) ++ str ");" ++ post)
      with ([nl] ++ b ++ str ");" ++ post).
    rewrite (lit_app no_flags [nl] [nl]) by reflexivity.
    rewrite star_greedy_run
      with (r := (post, [(1, a ++ (nl :: b) ++ str ");")])); auto.
    + apply blank_space, Hb.
    + reflexivity.
    + rewrite lit_app by reflexivity. unfold accept.
      change ([nl] ++ b ++ str ");" ++ post)
        with ((nl :: b) ++ str ");" ++ post).
      rewrite T. reflexivity.
  - intros u t E Hu. destruct u as [|c u]; [congruence|].
    injection E as <- ->. rewrite forallb_app in Hb.
    apply andb_true_iff in Hb as [_ Hb].
    destruct t as [|d t]; [reflexivity|].
    simpl in Hb. apply andb_true_iff in Hb as [Hd _].
    simpl. rewrite (blank_not_nl _ Hd). reflexivity.
Qed.



(** *** Blank lines *)

Lemma not_space_not_nl (c : ascii) : is_space c = false -> eqc nl c = false.
Proof. all_chars c. Qed.

Lemma blank_not_nl_eqc (c : ascii) : is_blank c = true -> eqc nl c = false.
Proof. all_chars c. Qed.

(** After blanks that end a run of white space no line feed comes. *)
Lemma no_nl_after_blanks (c rest u t : text) :
  forallb is_blank c = true -> head_is is_space rest = false ->
  c = u ++ t -> head_is (eqc nl) (t ++ rest) = false.
Proof.
  intros Hc Hr ->. rewrite forallb_app in Hc.
  apply andb_true_iff in Hc as [_ Hc].
  destruct t as [|d t]; simpl in *.
  - destruct rest as [|d rest]; simpl in *; auto.
    apply not_space_not_nl, Hr.
  - apply andb_true_iff in Hc as [Hd _]. apply blank_not_nl_eqc, Hd.
Qed.

Lemma nl_needed (s : text) (p : option ascii) (cp : caps) (k : cont)
  (r : regex) :
  head_is (eqc nl) s = false ->
  m no_flags (Seq (Lit [nl]) r) p s cp k = None.
Proof.
  intros H. destruct s as [|c s]; simpl in *; auto.
  unfold eq_lit. simpl. rewrite H. reflexivity.
Qed.

Lemma nls_needed (s : text) (p : option ascii) (cp : caps) (k : cont) :
  head_is (eqc nl) s = false ->
  m no_flags (Plus (CChar nl)) p s cp k = None.
Proof.
  intros H. destruct s as [|c s]; simpl in *; auto.
  unfold eq_lit. simpl. rewrite H. reflexivity.
Qed.

(** It needs two line feeds in the white space ahead. *)
Lemma two_line_feeds_miss (mid c rest u t : text) (p : option ascii)
  (cp : caps) (k : cont) :
  forallb is_blank mid = true -> forallb is_blank c = true ->
  head_is is_space rest = false ->
  mid ++ nl :: c = u ++ t ->
  m no_flags two_line_feeds p (t ++ rest) cp k = None.
Proof.
  intros Hm Hc Hr E. unfold two_line_feeds, cat.
  assert (Last : forall q, m no_flags
                   (Seq (Lit [nl]) (Seq (Star CSpace) (Plus (CChar nl))))
                   q ((nl :: c) ++ rest) cp k = None).
  { intros q. rewrite m_seq.
    change ((nl :: c) ++ rest) with ([nl] ++ c ++ rest).
    rewrite m_lit_app by reflexivity. cbv beta. rewrite m_seq. cbn [m].
    apply star_greedy_none.
    - apply blank_space, Hc.
    - apply stops_head, Hr.
    - intros u0 t0 E0. apply nls_needed.
      eapply no_nl_after_blanks; eauto. }
  apply app_eq_app in E as [l [[E1 E2] | [E1 E2]]].
  - subst. destruct l as [|d l]; [apply Last|].
    apply nl_needed. simpl. rewrite !forallb_app in Hm.
    apply andb_true_iff in Hm as [_ Hm]. simpl in Hm.
    apply andb_true_iff in Hm as [Hd _]. apply blank_not_nl_eqc, Hd.
  - destruct l as [|d l].
    + simpl in E2. subst t. apply Last.
    + injection E2 as _ E2. apply nl_needed.
      eapply no_nl_after_blanks; eauto.
Qed.

Lemma two_line_feeds_match (mid c rest : text) (p : option ascii)
  (cp : caps) (k : cont) (r : text * caps) :
  forallb is_blank mid = true -> forallb is_blank c = true ->
  head_is is_space rest = false ->
  k (Some nl) (c ++ rest) cp = Some r ->
  m no_flags two_line_feeds p (nl :: mid ++ (nl :: c) ++ rest) cp k = Some r.
Proof.
  intros Hm Hc Hr Hk. unfold two_line_feeds, cat. rewrite m_seq.
  change (nl :: mid ++ (nl :: c) ++ rest)
    with ([nl] ++ mid ++ (nl :: c) ++ rest).
  rewrite m_lit_app by reflexivity. cbv beta. rewrite m_seq. cbn [m].
  change (mem no_flags CSpace) with is_space.
  apply star_greedy_first.
  - apply blank_space, Hm.
  - simpl. rewrite (blank_space _ Hc). reflexivity.
  - apply stops_head, Hr.
  - change ((nl :: c) ++ rest) with ([nl] ++ c ++ rest).
    apply m_plus_run; auto; [discriminate|].
    apply stops_head. eapply no_nl_after_blanks with (u := []); eauto.
  - intros u t E Hu. destruct u as [|d u]; [congruence|].
    injection E as _ E.
    apply nls_needed. eapply no_nl_after_blanks; eauto.
Qed.

Lemma blank_lines_match (lead mid ind rest : text) (p : option ascii) :
  forallb is_space lead = true -> forallb is_blank mid = true ->
  forallb is_blank ind = true -> head_is is_space rest = false ->
  match_at no_flags blank_lines_re p
    ((nl :: lead ++ nl :: mid ++ [nl]) ++ ind ++ rest) =
  Some (ind ++ rest, []).
Proof.
  intros Hl Hm Hi Hr. unfold match_at, blank_lines_re, cat.
  replace ((nl :: lead ++ nl :: mid ++ [nl]) ++ ind ++ rest)
    with ([nl] ++ lead ++ (nl :: mid ++ nl :: ind) ++ rest)
    by (simpl; rewrite <- !app_assoc; simpl; rewrite <- !app_assoc;
        reflexivity).
  rewrite m_seq, m_lit_app by reflexivity. cbv beta. rewrite m_seq. cbn [m].
  change (mem no_flags CSpace) with is_space.
  apply star_greedy_first; auto.
  - simpl. rewrite forallb_app. simpl.
    rewrite (blank_space _ Hm), (blank_space _ Hi). reflexivity.
  - apply stops_head, Hr.
  - replace ((nl :: mid ++ nl :: ind) ++ rest)
      with (nl :: mid ++ (nl :: ind) ++ rest)
      by (simpl; rewrite <- !app_assoc; reflexivity).
    apply two_line_feeds_match; auto.
  - intros u t E Hu. destruct u as [|d u]; [congruence|].
    injection E as _ E.
    apply two_line_feeds_miss with (mid := mid) (c := ind) (u := u); auto.
Qed.

Lemma blank_lines_need_nl (p : option ascii) (c : ascii) (s : text) :
  eq_lit no_flags nl c = false ->
  match_at no_flags blank_lines_re p (c :: s) = None.
Proof.
  intros H. unfold match_at, blank_lines_re, cat. simpl. rewrite H. auto.
Qed.

Lemma blanks_no_nl (s : text) :
  forallb is_blank s = true ->
  forallb (fun c => negb (eq_lit no_flags nl c)) s = true.
Proof.
  induction s as [|c s IH]; simpl; auto. intros H.
  apply andb_true_iff in H as [H1 H2]. rewrite blank_not_nl; auto.
Qed.

(** No match starts in white space with two line feeds only. *)
Lemma one_blank_line_clear (mid ind rest : text) (p : option ascii) :
  forallb is_blank mid = true -> forallb is_blank ind = true ->
  head_is is_space rest = false ->
  no_match_in no_flags blank_lines_re p (nl :: mid ++ nl :: ind) rest = true.
Proof.
  intros Hm Hi Hr.
  replace (nl :: mid ++ nl :: ind) with ([nl] ++ mid ++ [nl] ++ ind)
    by reflexivity.
  apply no_match_in_app; [|apply no_match_in_app; [|apply no_match_in_app]].
  - cbn [no_match_in]. unfold match_at, blank_lines_re, cat.
    rewrite m_seq, m_lit_app by reflexivity. cbv beta. rewrite m_seq.
    cbn [m]. rewrite star_greedy_none; auto.
    + change (mem no_flags CSpace) with is_space.
      rewrite forallb_app, (blank_space _ Hm).
      change ([nl] ++ ind) with (nl :: ind). cbn [forallb andb].
      rewrite (blank_space _ Hi). reflexivity.
    + apply stops_head, Hr.
    + intros u t E.
      apply two_line_feeds_miss with (mid := mid) (c := ind) (u := u); auto.
  - apply no_match_in_first with (x := nl).
    + apply blank_lines_need_nl.
    + apply blanks_no_nl, Hm.
  - cbn [no_match_in]. unfold match_at, blank_lines_re, cat.
    rewrite m_seq, m_lit_app by reflexivity. cbv beta. rewrite m_seq.
    cbn [m]. rewrite star_greedy_none; auto.
    + apply blank_space, Hi.
    + apply stops_head, Hr.
    + intros u t E. apply nl_needed. eapply no_nl_after_blanks; eauto.
  - apply no_match_in_first with (x := nl).
    + apply blank_lines_need_nl.
    + apply blanks_no_nl, Hi.
Qed.

End CleanupFacts.

Import CleanupFacts.




(** ** Claim on the idempotence of the type rules *)

Module WordFacts.

(** *** Tokens *)

Lemma untokens_tokens (s : text) : untokens (tokens s) = s.
Proof.
  induction s as [|c s IH]; auto. simpl.
  destruct (is_word c).
  - destruct (tokens s) as [|[w|d] ts]; simpl in *; rewrite <- IH; auto.
  - simpl. rewrite IH. reflexivity.
Qed.

Lemma tokens_head (s : text) :
  starts_with_word (tokens s) = head_is is_word s.
Proof.
  destruct s as [|c s]; auto. simpl. destruct (is_word c); auto.
  destruct (tokens s) as [|[w|d] ts]; auto.
Qed.

Lemma canonical_tokens (s : text) : canonical (tokens s) = true.
Proof.
  induction s as [|c s IH]; auto. simpl.
  destruct (is_word c) eqn:E.
  - destruct (tokens s) as [|[w|d] ts]; simpl in *; rewrite ?E; auto.
    apply andb_true_iff in IH as [IH1 IH2].
    apply andb_true_iff in IH1 as [IH1 IH3].
    apply andb_true_iff in IH1 as [IH0 IH1].
    rewrite IH1, IH2, IH3. reflexivity.
  - simpl. rewrite E, IH. reflexivity.
Qed.

Lemma untokens_head (ts : list token) :
  canonical ts = true ->
  head_is is_word (untokens ts) = starts_with_word ts.
Proof.
  destruct ts as [|[w|c] ts]; simpl; auto.
  - intros H. apply andb_true_iff in H as [H _].
    apply andb_true_iff in H as [H _]. apply andb_true_iff in H as [H0 H1].
    destruct w as [|d w]; [discriminate H0|]. simpl in *.
    apply andb_true_iff in H1 as [H1 _]. exact H1.
  - intros H. apply andb_true_iff in H as [H _].
    apply negb_true_iff in H. exact H.
Qed.

(** A word before a text that does not go on with a word character is a
    token of its own. *)
Lemma tokens_run (w x : text) :
  w <> [] -> forallb is_word w = true -> head_is is_word x = false ->
  tokens (w ++ x) = Word w :: tokens x.
Proof.
  intros Hne. induction w as [|c w IH]; [congruence|]. intros Hw Hx.
  simpl in Hw. apply andb_true_iff in Hw as [Hc Hw]. simpl. rewrite Hc.
  destruct w as [|d w].
  - simpl. pose proof (tokens_head x) as T. rewrite Hx in T.
    destruct (tokens x) as [|[v|e] ts]; auto. discriminate T.
  - rewrite IH; auto. discriminate.
Qed.

Lemma tokens_untokens (ts : list token) :
  canonical ts = true -> tokens (untokens ts) = ts.
Proof.
  induction ts as [|[w|c] ts IH]; auto; intros H.
  - simpl in H. apply andb_true_iff in H as [H Hc].
    apply andb_true_iff in H as [H Hn]. apply andb_true_iff in H as [H0 H1].
    change (untokens (Word w :: ts)) with (w ++ untokens ts).
    rewrite tokens_run; auto.
    + rewrite IH; auto.
    + destruct w; [discriminate H0|discriminate].
    + rewrite untokens_head; auto. apply negb_true_iff, Hn.
  - simpl in H. apply andb_true_iff in H as [H Hc].
    apply negb_true_iff in H. simpl. rewrite H, IH; auto.
Qed.

Lemma rename_token_kind (w new : text) (t : token) :
  is_word_token (rename_token w new t) = is_word_token t.
Proof. destruct t; simpl; auto. destruct (same IGNORECASE w w0); auto. Qed.

Lemma canonical_rename (w new : text) (ts : list token) :
  new <> [] -> forallb is_word new = true ->
  canonical ts = true -> canonical (map (rename_token w new) ts) = true.
Proof.
  intros Hne Hnew. induction ts as [|[x|c] ts IH]; auto; intros H.
  - simpl in H. apply andb_true_iff in H as [H Hc].
    apply andb_true_iff in H as [H Hn]. apply andb_true_iff in H as [H0 H1].
    assert (S : starts_with_word (map (rename_token w new) ts) =
                starts_with_word ts)
      by (destruct ts as [|t ts]; simpl; auto; apply rename_token_kind).
    simpl. destruct (same IGNORECASE w x); simpl; rewrite S, Hn, IH; auto.
    + rewrite Hnew. destruct new; [congruence|reflexivity].
    + rewrite H0, H1. reflexivity.
  - simpl in *. apply andb_true_iff in H as [H Hc]. rewrite H, IH; auto.
Qed.

(** *** The renaming of a word *)

Lemma lower_word (c : ascii) : is_word (lower c) = is_word c.
Proof. all_chars c. Qed.

Lemma eq_lit_word (a c : ascii) :
  eq_lit IGNORECASE a c = true -> is_word a = is_word c.
Proof.
  unfold eq_lit, eqc_nocase. simpl. intros H. apply eqc_eq in H.
  rewrite <- (lower_word a), <- (lower_word c), H. reflexivity.
Qed.

Lemma same_word (w x : text) :
  same IGNORECASE w x = true -> forallb is_word w = true ->
  forallb is_word x = true.
Proof.
  revert x; induction w as [|a w IH]; intros [|c x] H Hw; simpl in *;
    try discriminate; auto.
  apply andb_true_iff in H as [H1 H2]. apply andb_true_iff in Hw as [Ha Hw].
  rewrite <- (eq_lit_word _ _ H1), Ha. simpl. auto.
Qed.

Lemma last_of_word (w : text) (p : option ascii) :
  w <> [] -> forallb is_word w = true -> word_at (last_of w p) = true.
Proof.
  revert p; induction w as [|c w IH]; intros p Hne Hw; [congruence|].
  simpl in *. apply andb_true_iff in Hw as [Hc Hw].
  destruct w as [|d w]; auto. apply IH; auto. discriminate.
Qed.

Lemma word_at_head (s : text) : word_at (hd_error s) = head_is is_word s.
Proof. destruct s; reflexivity. Qed.

Section Rename.

Variables (w new : text).
Hypothesis Hne : w <> [].
Hypothesis Hw : forallb is_word w = true.

Let go := sub_go IGNORECASE (word_re w) (const new).

Lemma word_match_unfold (p : option ascii) (s : text) :
  match_at IGNORECASE (word_re w) p s =
  if xorb (word_at p) (head_is is_word s)
  then match lit IGNORECASE w p s with
       | Some (q, s1) =>
           if xorb (word_at q) (head_is is_word s1) then Some (s1, [])
           else None
       | None => None
       end
  else None.
Proof.
  unfold match_at, word_re, cat. cbn [m]. rewrite word_at_head.
  destruct (xorb (word_at p) (head_is is_word s)); auto.
  destruct (lit IGNORECASE w p s) as [[q s1]|]; auto.
  rewrite word_at_head. reflexivity.
Qed.

(** No match starts at a character that is not a word character, nor at
    the end of the text. *)
Lemma no_match_at_other (p : option ascii) (s : text) :
  head_is is_word s = false -> match_at IGNORECASE (word_re w) p s = None.
Proof.
  intros H. rewrite word_match_unfold, H.
  destruct (xorb (word_at p) false); auto.
  destruct w as [|a w']; [congruence|]. destruct s as [|c s]; auto.
  simpl in *. apply andb_true_iff in Hw as [Ha _].
  destruct (eq_lit IGNORECASE a c) eqn:E; auto.
  apply eq_lit_word in E. congruence.
Qed.

(** Nor inside a word. *)
Lemma no_match_inside (p : option ascii) (s : text) :
  word_at p = true -> head_is is_word s = true ->
  match_at IGNORECASE (word_re w) p s = None.
Proof. intros H1 H2. rewrite word_match_unfold, H1, H2. reflexivity. Qed.

Lemma go_other (p : option ascii) (c : ascii) (s : text) :
  is_word c = false -> go p (c :: s) 0 = c :: go (Some c) s 0.
Proof.
  intros H. unfold go. rewrite sub_go_cons, no_match_at_other; auto.
Qed.

Lemma go_end (p : option ascii) : go p [] 0 = [].
Proof.
  unfold go. simpl. rewrite no_match_at_other; auto.
Qed.

Lemma go_inside (run rest : text) (p : option ascii) :
  word_at p = true -> forallb is_word run = true ->
  go p (run ++ rest) 0 = run ++ go (last_of run p) rest 0.
Proof.
  revert p; induction run as [|c run IH]; intros p Hp Hr; auto.
  simpl in Hr. apply andb_true_iff in Hr as [Hc Hr].
  unfold go. rewrite <- app_comm_cons, sub_go_cons, no_match_inside; auto.
  simpl. f_equal. apply IH; auto.
Qed.

(** At the start of a word the match is the whole word or nothing. *)
Lemma go_word (run rest : text) (p : option ascii) :
  word_at p = false -> run <> [] -> forallb is_word run = true ->
  head_is is_word rest = false ->
  go p (run ++ rest) 0 =
  (if same IGNORECASE w run then new else run) ++ go (last_of run p) rest 0.
Proof.
  intros Hp Hrne Hr Hrest.
  assert (Hhead : head_is is_word (run ++ rest) = true).
  { destruct run as [|c run]; [congruence|]. simpl in *.
    apply andb_true_iff in Hr. tauto. }
  destruct (same IGNORECASE w run) eqn:E.
  - unfold go. rewrite sub_go_hit with (cp := @nil (nat * text)); auto.
    rewrite word_match_unfold, Hp, Hhead, lit_app; auto.
    rewrite last_of_word, Hrest; auto.
  - assert (N : match_at IGNORECASE (word_re w) p (run ++ rest) = None).
    { rewrite word_match_unfold, Hp, Hhead. simpl.
      destruct (lit IGNORECASE w p (run ++ rest)) as [[q s1]|] eqn:L; auto.
      apply lit_some in L as (x & Ex & Sx & ->).
      assert (Hx : forallb is_word x = true) by (eapply same_word; eauto).
      assert (Hxne : x <> []).
      { intros ->. destruct w; [congruence|discriminate Sx]. }
      rewrite last_of_word; auto.
      apply app_eq_app in Ex as [l [[E1 E2] | [E1 E2]]].
      - destruct l as [|d l].
        + rewrite app_nil_r in E1. subst x. congruence.
        + subst. rewrite forallb_app in Hr.
          apply andb_true_iff in Hr as [_ Hr]. simpl in Hr.
          apply andb_true_iff in Hr as [Hd _]. simpl. rewrite Hd. auto.
      - destruct l as [|d l].
        + rewrite app_nil_r in E1. subst x. congruence.
        + subst. rewrite forallb_app in Hx.
          apply andb_true_iff in Hx as [_ Hx]. simpl in Hx.
          apply andb_true_iff in Hx as [Hd _]. simpl in Hrest. congruence. }
    destruct run as [|c run]; [congruence|]. unfold go.
    rewrite <- app_comm_cons in *. rewrite sub_go_cons, N. simpl. f_equal.
    simpl in Hr. apply andb_true_iff in Hr as [Hc Hr].
    apply go_inside; auto.
Qed.

(** The substitution, token by token. *)
Lemma go_tokens (ts : list token) (p : option ascii) :
  canonical ts = true ->
  word_at p = false \/ starts_with_word ts = false ->
  go p (untokens ts) 0 = untokens (map (rename_token w new) ts).
Proof.
  revert p; induction ts as [|[x|c] ts IH]; intros p Hc Hp.
  - apply go_end.
  - simpl in Hc. apply andb_true_iff in Hc as [H Hc].
    apply andb_true_iff in H as [H Hn]. apply andb_true_iff in H as [H0 H1].
    destruct Hp as [Hp | Hp]; [|discriminate Hp].
    apply negb_true_iff in Hn.
    change (untokens (Word x :: ts)) with (x ++ untokens ts).
    rewrite go_word; auto.
    + rewrite IH; auto. simpl. destruct (same IGNORECASE w x); reflexivity.
    + destruct x; [discriminate H0|discriminate].
    + rewrite untokens_head; auto.
  - simpl in Hc. apply andb_true_iff in Hc as [H Hc].
    apply negb_true_iff in H.
    change (untokens (Other c :: ts)) with (c :: untokens ts).
    rewrite go_other; auto. rewrite IH; auto.
Qed.

Lemma rename_word_tokens (s : text) :
  rename_word w new s = untokens (map (rename_token w new) (tokens s)).
Proof.
  unfold rename_word, sub. rewrite <- (untokens_tokens s) at 1.
  apply go_tokens; auto. apply canonical_tokens.
Qed.

End Rename.

End WordFacts.

Import WordFacts.

Module IdempotenceFacts.

Lemma rule_on_tokens (w new : text) (ts : list token) :
  w <> [] -> forallb is_word w = true ->
  new <> [] -> forallb is_word new = true ->
  canonical ts = true ->
  rename_word w new (untokens ts) = untokens (map (rename_token w new) ts).
Proof.
  intros H1 H2 H3 H4 C. rewrite rename_word_tokens; auto.
  rewrite tokens_untokens; auto.
Qed.

Lemma canonical_rename_type (ts : list token) :
  canonical ts = true -> canonical (map rename_type_token ts) = true.
Proof.
  intros C.
  replace (map rename_type_token ts)
    with (map (rename_token (str "mediumtext") (str "TEXT"))
            (map (rename_token (str "longtext") (str "TEXT"))
               (map (rename_token (str "varchar") (str "VARCHAR"))
                  (map (rename_token (str "datetime") (str "TIMESTAMP"))
                     ts))))
    by (rewrite !map_map; reflexivity).
  repeat (apply canonical_rename; [discriminate|reflexivity|]).
  exact C.
Qed.

Lemma word_type_rules_on_tokens (ts : list token) :
  canonical ts = true ->
  word_type_rules (untokens ts) = untokens (map rename_type_token ts).
Proof.
  intros C. unfold word_type_rules, mediumtext_to_text, longtext_to_text,
    varchar_case, datetime_to_timestamp.
  pose (r1 := rename_token (str "datetime") (str "TIMESTAMP")).
  pose (r2 := rename_token (str "varchar") (str "VARCHAR")).
  pose (r3 := rename_token (str "longtext") (str "TEXT")).
  assert (C1 : canonical (map r1 ts) = true)
    by (apply canonical_rename; [discriminate|reflexivity|exact C]).
  assert (C2 : canonical (map r2 (map r1 ts)) = true)
    by (apply canonical_rename; [discriminate|reflexivity|exact C1]).
  assert (C3 : canonical (map r3 (map r2 (map r1 ts))) = true)
    by (apply canonical_rename; [discriminate|reflexivity|exact C2]).
  subst r1 r2 r3.
  rewrite (@rule_on_tokens (str "datetime") (str "TIMESTAMP") ts);
    [|discriminate|reflexivity|discriminate|reflexivity|exact C].
  rewrite (@rule_on_tokens (str "varchar") (str "VARCHAR") _);
    [|discriminate|reflexivity|discriminate|reflexivity|exact C1].
  rewrite (@rule_on_tokens (str "longtext") (str "TEXT") _);
    [|discriminate|reflexivity|discriminate|reflexivity|exact C2].
  rewrite (@rule_on_tokens (str "mediumtext") (str "TEXT") _);
    [|discriminate|reflexivity|discriminate|reflexivity|exact C3].
  rewrite !map_map. reflexivity.
Qed.

Lemma word_type_rules_tokens (s : text) :
  word_type_rules s = untokens (map rename_type_token (tokens s)).
Proof.
  rewrite <- (untokens_tokens s) at 1.
  apply word_type_rules_on_tokens, canonical_tokens.
Qed.

Lemma rename_type_token_idem (t : token) :
  rename_type_token (rename_type_token t) = rename_type_token t.
Proof.
  destruct t as [w|c]; [|reflexivity]. unfold rename_type_token.
  cbn [rename_token].
  destruct (same IGNORECASE (str "datetime") w) eqn:E1; [reflexivity|].
  cbn [rename_token].
  destruct (same IGNORECASE (str "varchar") w) eqn:E2; [reflexivity|].
  cbn [rename_token].
  destruct (same IGNORECASE (str "longtext") w) eqn:E3; [reflexivity|].
  cbn [rename_token].
  destruct (same IGNORECASE (str "mediumtext") w) eqn:E4; [reflexivity|].
  cbn [rename_token]. rewrite E1. cbn [rename_token]. rewrite E2.
  cbn [rename_token]. rewrite E3. cbn [rename_token]. rewrite E4.
  reflexivity.
Qed.

Lemma word_type_rules_idem (s : text) :
  word_type_rules (word_type_rules s) = word_type_rules s.
Proof.
  rewrite (word_type_rules_tokens s).
  rewrite word_type_rules_on_tokens
    by apply canonical_rename_type, canonical_tokens.
  rewrite map_map. f_equal. apply map_ext. apply rename_type_token_idem.
Qed.

(** Without tinyint in the text the two tinyint rules change nothing. *)
Lemma tinyint_rules_fixed (y : text) :
  contains_nocase (str "tinyint") y = false -> tinyint_rules y = y.
Proof.
  intros H.
  assert (N : forall r,
             (forall p s,
                 starts (norm IGNORECASE (str "tinyint")) (norm IGNORECASE s)
                 = false -> match_at IGNORECASE r p s = None) ->
             no_match_in IGNORECASE r None y [] = true).
  { intros r Hr. apply no_match_in_starts with (w := str "tinyint"); auto.
    simpl firstn. rewrite app_nil_r. exact H. }
  unfold tinyint_rules, tinyint_to_smallint, tinyint1_to_boolean.
  rewrite <- (app_nil_r y) at 1.
  rewrite (sub_pass IGNORECASE tinyint1_re (const (str "BOOLEAN")) y []);
    [|reflexivity|apply N, boolean_needs_tinyint].
  change (sub IGNORECASE tinyint1_re (const (str "BOOLEAN")) []) with (@nil ascii).
  rewrite (sub_pass IGNORECASE tinyint_re (const (str "SMALLINT")) y []);
    [|reflexivity|apply N, smallint_needs_tinyint].
  apply app_nil_r.
Qed.

End IdempotenceFacts.

Import IdempotenceFacts.

(** Claim C9, as the specification states it, fails: the tinyint patterns
    are not bound to whole words, so a replacement can join the letters
    after it into a new tinyint, which a second pass rewrites. *)
Lemma C9_overlapping_tinyint_counterexample :
  normalize_types overlapping_tinyint = str "SMALLINTinyint" /\
  normalize_types (normalize_types overlapping_tinyint) =
    str "SMALLINSMALLINT" /\
  normalize_types (normalize_types overlapping_tinyint) <>
    normalize_types overlapping_tinyint.
Proof. vm_compute. repeat split; try reflexivity. discriminate. Qed.

(** Claim C9, amended: on a text of characters below 128, the six rules
    together change the converted text no further when it holds no
    tinyint, in any letter case; the timestamp and text rules are
    idempotent on every text. *)
Theorem C9_normalization_idempotent (x : text) :
  (ascii_text x = true ->
   contains_nocase (str "tinyint") (normalize_types x) = false ->
   normalize_types (normalize_types x) = normalize_types x) /\
  word_type_rules (word_type_rules x) = word_type_rules x.
Proof.
  split; [|apply word_type_rules_idem]. intros _ H.
  change (normalize_types (normalize_types x))
    with (word_type_rules (tinyint_rules (normalize_types x))).
  rewrite tinyint_rules_fixed by exact H.
  change (normalize_types x) with (word_type_rules (tinyint_rules x)).
  apply word_type_rules_idem.
Qed.

Lemma C9_normalization_idempotent_witness :
  normalize_types typed_columns =
    str "a BOOLEAN, b SMALLINT, c TIMESTAMP, d VARCHAR(10), e TEXT" /\
  contains_nocase (str "tinyint") (normalize_types typed_columns) = false /\
  normalize_types (normalize_types typed_columns) =
    normalize_types typed_columns.
Proof.
  assert (H : contains_nocase (str "tinyint") (normalize_types typed_columns)
              = false) by (vm_compute; reflexivity).
  assert (A : ascii_text typed_columns = true) by (vm_compute; reflexivity).
  destruct (C9_normalization_idempotent typed_columns) as [E _].
  split; [vm_compute; reflexivity | split; [exact H | exact (E A H)]].
Defined.

(** * Further properties of the code *)

(** ** The lines of a dump and the scan *)

Module LinesFacts.

Lemma split_lines_not_nil (s : text) : split_lines s <> [].
Proof.
  induction s as [|c s IH]; simpl; [discriminate|].
  destruct (eqc c nl); [discriminate|].
  destruct (split_lines s); [congruence|discriminate].
Qed.

Lemma join_cons_line (sep : text) (c : ascii) (l : text) (ls : list text) :
  join sep ((c :: l) :: ls) = c :: join sep (l :: ls).
Proof. destruct ls; reflexivity. Qed.

Lemma join_split_lines (s : text) : join [nl] (split_lines s) = s.
Proof.
  induction s as [|c s IH]; auto. simpl.
  destruct (eqc c nl) eqn:E.
  - apply eqc_eq in E. subst c.
    destruct (split_lines s) as [|l ls] eqn:Es.
    + exfalso. eapply split_lines_not_nil; eauto.
    + change (join [nl] ([] :: l :: ls)) with (nl :: join [nl] (l :: ls)).
      rewrite IH. reflexivity.
  - destruct (split_lines s) as [|l ls] eqn:Es.
    + exfalso. eapply split_lines_not_nil; eauto.
    + rewrite join_cons_line, IH. reflexivity.
Qed.

Lemma split_lines_no_nl (s : text) :
  Forall (fun l => existsb (eqc nl) l = false) (split_lines s).
Proof.
  induction s as [|c s IH]; simpl.
  - constructor; auto.
  - destruct (eqc c nl) eqn:E.
    + constructor; auto.
    + destruct (split_lines s) as [|l ls] eqn:Es.
      * exfalso. eapply split_lines_not_nil; eauto.
      * assert (E' : eqc nl c = false)
          by (unfold eqc in *; rewrite Ascii.eqb_sym; exact E).
        inversion IH; subst. constructor; auto. simpl. rewrite E'. auto.
Qed.

(** A line that opens no table, met outside a table, is written. *)
Lemma scan_line_outside (st : scan_state) (line : text) :
  in_create_table st = false -> opens_table line = false ->
  scan_line st line =
  ScanState (new_lines st ++ [line]) (foreign_keys st) false
    (current_table st).
Proof.
  intros H1 H2. unfold scan_line, track_table. rewrite H2, H1. reflexivity.
Qed.

Lemma scan_from_outside (lines : list text) (st : scan_state) :
  in_create_table st = false ->
  forallb (fun l => negb (opens_table l)) lines = true ->
  scan_from st lines =
  ScanState (new_lines st ++ lines) (foreign_keys st) false
    (current_table st).
Proof.
  revert st; induction lines as [|l lines IH]; intros st H1 H2; simpl.
  - rewrite app_nil_r. destruct st; simpl in *. subst. reflexivity.
  - simpl in H2. apply andb_true_iff in H2 as [Hl H2].
    apply negb_true_iff in Hl.
    rewrite (scan_line_outside st l H1 Hl). rewrite IH; auto.
    simpl. rewrite <- app_assoc. reflexivity.
Qed.

(** One step of the scan keeps the line or drops it, and drops only a
    foreign key line or a key line. *)
Lemma scan_line_keeps_or_drops (st : scan_state) (line : text) :
  new_lines (scan_line st line) = new_lines st ++ [line] \/
  is_dropped_kind line = true /\ new_lines (scan_line st line) = new_lines st.
Proof.
  unfold scan_line, is_dropped_kind.
  assert (T : new_lines (track_table st line) = new_lines st)
    by (unfold track_table; destruct (opens_table line); auto).
  destruct (in_create_table (track_table st line)); simpl.
  - destruct (is_fk_line line); simpl.
    + right. split; auto. destruct (parse_fk _ line); simpl; auto.
    + destruct (is_key_line line); simpl; auto.
      destruct (closes_table line); simpl; rewrite T; auto.
  - rewrite T. auto.
Qed.

Lemma scan_from_drops_only (lines : list text) (st : scan_state) :
  exists out, new_lines (scan_from st lines) = new_lines st ++ out /\
              drops_only is_dropped_kind lines out.
Proof.
  revert st; induction lines as [|l lines IH]; intros st; simpl.
  - exists []. rewrite app_nil_r. split; auto. constructor.
  - destruct (IH (scan_line st l)) as (out & N & D).
    destruct (scan_line_keeps_or_drops st l) as [K | [K1 K2]].
    + exists (l :: out). rewrite N, K, <- app_assoc. split; auto.
      constructor; auto.
    + exists out. rewrite N, K2. split; auto. constructor; auto.
Qed.

End LinesFacts.

Import LinesFacts.

(** X1.  Splitting a dump into lines and joining the lines again gives
    the dump back, and no line holds a line feed.  So a dump in which no
    line holds CREATE TABLE, in any letter case, passes the scan as it
    is: every line is written, in order, and no record is made. *)
Theorem X1_scan_without_tables (content : text) :
  join [nl] (split_lines content) = content /\
  Forall (fun l => existsb (eqc nl) l = false) (split_lines content) /\
  (forallb (fun l => negb (opens_table l)) (split_lines content) = true ->
   foreign_keys (scan (split_lines content)) = [] /\
   join [nl] (new_lines (scan (split_lines content))) = content).
Proof.
  split; [apply join_split_lines|]. split; [apply split_lines_no_nl|].
  intros H. unfold scan. rewrite scan_from_outside; auto. simpl.
  split; auto. apply join_split_lines.
Qed.

Lemma X1_scan_without_tables_witness :
  join [nl] (new_lines (scan (split_lines two_blank_lines))) =
  two_blank_lines.
Proof.
  destruct (X1_scan_without_tables two_blank_lines) as (_ & _ & H).
  destruct H as [_ H]; [reflexivity|exact H].
Defined.

(** X2.  The scan never changes, adds or reorders lines: the lines it
    writes are the lines it read, in order, without some of them, and
    every line left out is a foreign key line or a plain key line. *)
Theorem X2_scan_only_drops (lines : list text) :
  drops_only is_dropped_kind lines (new_lines (scan lines)).
Proof.
  destruct (scan_from_drops_only lines scan_start) as (out & N & D).
  unfold scan. rewrite N. exact D.
Qed.

Module RecordFacts.

Lemma rstrip_prefix (p : ascii -> bool) (s : text) :
  exists a, s = rstrip_by p s ++ a.
Proof.
  unfold rstrip_by. destruct (lstrip_suffix p (rev s)) as [a E].
  exists (rev a). rewrite <- rev_app_distr, <- E, rev_involutive.
  reflexivity.
Qed.

Lemma rstrip_head (p : ascii -> bool) (s : text) :
  head_is p s = false -> head_is p (rstrip_by p s) = false.
Proof.
  intros H. destruct (rstrip_prefix p s) as [a E].
  destruct (rstrip_by p s) as [|d r]; auto.
  rewrite E in H. exact H.
Qed.

Lemma stripped_strip (s : text) : stripped (strip s) = true.
Proof.
  unfold stripped, strip.
  rewrite rstrip_head by apply lstrip_head.
  unfold rstrip_by at 1. rewrite rev_involutive, lstrip_head. reflexivity.
Qed.

Lemma parse_fk_named (t : option text) (line : text) (fk : foreign_key) :
  parse_fk t line = Some fk ->
  t = Some (fk_table fk) /\ fk_table fk <> [] /\
  stripped (fk_actions fk) = true.
Proof.
  unfold parse_fk. destruct (search IGNORECASE fk_parts_re line) as [[r cp]|];
    [|discriminate].
  destruct t as [[|c n]|]; simpl; try discriminate.
  intros H; inversion H; subst; simpl.
  split; auto. split; [discriminate|]. apply stripped_strip.
Qed.

Lemma record_of_more (seen : list text) (l : text) (fk : foreign_key) :
  record_of seen fk -> record_of (seen ++ [l]) fk.
Proof.
  intros (A & B & (l1 & I1 & C) & (l2 & I2 & D)).
  repeat split; auto.
  - exists l1. split; auto. apply in_or_app; auto.
  - exists l2. split; auto. apply in_or_app; auto.
Qed.

Lemma track_table_invariant (seen : list text) (st : scan_state)
      (l : text) :
  scan_invariant seen st -> scan_invariant (seen ++ [l]) (track_table st l).
Proof.
  intros (I1 & I2 & I3 & I4).
  assert (I3' : Forall (record_of (seen ++ [l])) (foreign_keys st)).
  { eapply Forall_impl; [|exact I3]. intros fk. apply record_of_more. }
  assert (I4' : length (foreign_keys st)
                <= length (filter is_fk_line (seen ++ [l]))).
  { rewrite filter_app, length_app. lia. }
  assert (I2' : forall t, current_table st = Some t ->
            exists line, In line (seen ++ [l]) /\ opens_table line = true /\
                         table_named_by line = Some t).
  { intros t Ht. destruct (I2 t Ht) as (l1 & A & B).
    exists l1. split; auto. apply in_or_app; auto. }
  unfold track_table. destruct (opens_table l) eqn:O.
  - repeat split; simpl; auto; try discriminate.
    intros t Ht.
    destruct (search IGNORECASE create_table_re l) as [[r cp]|] eqn:S.
    + exists l. split; [apply in_or_app; simpl; auto|]. split; auto.
      unfold table_named_by. rewrite S. exact Ht.
    + auto.
  - repeat split; auto.
Qed.

Lemma scan_line_invariant (seen : list text) (st : scan_state) (l : text) :
  scan_invariant seen st -> scan_invariant (seen ++ [l]) (scan_line st l).
Proof.
  intros I.
  assert (K : length (foreign_keys (track_table st l))
              <= length (filter is_fk_line seen)).
  { destruct I as (_ & _ & _ & I4).
    unfold track_table. destruct (opens_table l); auto. }
  apply track_table_invariant with (l := l) in I.
  unfold scan_line. set (st' := track_table st l) in *.
  destruct I as (I1 & I2 & I3 & I4).
  destruct (in_create_table st') eqn:T; simpl.
  - destruct (is_fk_line l) eqn:F; simpl.
    + destruct (parse_fk (current_table st') l) as [fk|] eqn:P.
      * destruct (parse_fk_named _ _ P) as (N1 & N2 & N3).
        repeat split; simpl; auto; try (intros; congruence).
        -- apply Forall_app. split; auto. constructor; auto.
           repeat split; auto.
           exists l. split; [apply in_or_app; simpl; auto|].
           split; auto. rewrite <- N1. exact P.
        -- rewrite filter_app, !length_app. simpl. rewrite F. simpl. lia.
      * repeat split; auto; intros; congruence.
    + destruct (is_key_line l); simpl;
        [repeat split; auto; intros; congruence|].
      destruct (closes_table l); simpl;
        repeat split; simpl; auto; intros; congruence.
  - repeat split; simpl; auto.
Qed.

Lemma scan_has_invariant (lines : list text) :
  scan_invariant lines (scan lines).
Proof.
  induction lines as [|l lines IH] using rev_ind.
  - repeat split; simpl; auto; try discriminate.
  - rewrite scan_app. simpl. apply scan_line_invariant. exact IH.
Qed.

End RecordFacts.

Import RecordFacts.

(** X3.  After any lines, the scan keeps a table name only inside a
    table; every record is attributed to a table with a non-empty name
    that a CREATE TABLE line read before gave, is the record of a
    foreign key line read before, and holds actions without white space
    at either end; and there are no more records than foreign key
    lines. *)
Theorem X3_scan_records (lines : list text) :
  (in_create_table (scan lines) = false ->
   current_table (scan lines) = None) /\
  Forall (record_of lines) (foreign_keys (scan lines)) /\
  length (foreign_keys (scan lines)) <= length (filter is_fk_line lines).
Proof.
  destruct (scan_has_invariant lines) as (I1 & I2 & I3 & I4). auto.
Qed.

(** ** Characters that the converter cannot bring in *)

Module KeepFacts.

Section Keep.

Variable Q : ascii -> Prop.
Variable f : flags.

Lemma Forall_firstn (n : nat) (s : text) : Forall Q s -> Forall Q (firstn n s).
Proof.
  revert n; induction s as [|c s IH]; intros [|n] H; simpl; auto.
  inversion H; subst. constructor; auto.
Qed.

Lemma Forall_taken (s rest : text) : Forall Q s -> Forall Q (taken s rest).
Proof. apply Forall_firstn. Qed.

Lemma Forall_lstrip (p : ascii -> bool) (s : text) :
  Forall Q s -> Forall Q (lstrip_by p s).
Proof.
  induction s as [|c s IH]; simpl; auto. intros H.
  destruct (p c); auto. inversion H; auto.
Qed.

Lemma Forall_rstrip (p : ascii -> bool) (s : text) :
  Forall Q s -> Forall Q (rstrip_by p s).
Proof.
  intros H. unfold rstrip_by. apply Forall_rev, Forall_lstrip, Forall_rev.
  exact H.
Qed.

Lemma Forall_split_lines (s : text) :
  Forall Q s -> Forall (Forall Q) (split_lines s).
Proof.
  induction s as [|c s IH]; simpl; intros H.
  - repeat constructor.
  - inversion H; subst. specialize (IH H3).
    destruct (eqc c nl); [constructor; auto|].
    destruct (split_lines s) as [|l ls]; [repeat constructor; auto|].
    inversion IH; subst. constructor; auto.
Qed.

Lemma Forall_join (sep : text) (ls : list text) :
  Forall Q sep -> Forall (Forall Q) ls -> Forall Q (join sep ls).
Proof.
  intros Hs. induction ls as [|l ls IH]; intros H; simpl; auto.
  inversion H; subst. destruct ls as [|l' ls]; auto.
  apply Forall_app. split; auto. apply Forall_app. split; auto.
Qed.

Lemma Forall_group (n : nat) (cp : caps) :
  caps_all Q cp -> Forall Q (group n cp).
Proof.
  induction cp as [|[i t] cp IH]; simpl; intros H; auto.
  inversion H; subst. destruct (i =? n); auto.
Qed.

Lemma lit_keeps (w : text) (prev p : option ascii) (s s' : text) :
  lit f w prev s = Some (p, s') -> Forall Q s -> Forall Q s'.
Proof.
  intros H Hs. destruct (lit_some _ _ _ _ H) as (w' & E & _).
  subst s. apply Forall_app in Hs. tauto.
Qed.

Lemma star_greedy_keeps (p : ascii -> bool) (s : text)
      (prev : option ascii) (k : option ascii -> text -> result) :
  Forall Q s ->
  (forall q s', Forall Q s' -> result_all Q (k q s')) ->
  result_all Q (star_greedy p prev s k).
Proof.
  intros Hs Hk. revert prev; induction s as [|c s IH]; intros prev; simpl;
    auto.
  destruct (p c); auto. inversion Hs; subst.
  specialize (IH H2 (Some c)).
  destruct (star_greedy p (Some c) s k); auto.
Qed.

Lemma star_lazy_keeps (p : ascii -> bool) (s : text)
      (prev : option ascii) (k : option ascii -> text -> result) :
  Forall Q s ->
  (forall q s', Forall Q s' -> result_all Q (k q s')) ->
  result_all Q (star_lazy p prev s k).
Proof.
  intros Hs Hk. revert prev; induction s as [|c s IH]; intros prev; simpl.
  - specialize (Hk prev [] Hs). destruct (k prev []); simpl; auto.
  - specialize (Hk prev (c :: s) Hs). destruct (k prev (c :: s)); auto.
    destruct (p c); simpl; auto. inversion Hs; subst. auto.
Qed.

(** A match keeps in its groups, and leaves, parts of the text only. *)
Lemma m_keeps (r : regex) :
  forall (prev : option ascii) (s : text) (cp : caps) (k : cont),
  Forall Q s -> caps_all Q cp ->
  (forall q s' cp', Forall Q s' -> caps_all Q cp' ->
                    result_all Q (k q s' cp')) ->
  result_all Q (m f r prev s cp k).
Proof.
  induction r as [w|cs|cs|cs|a IHa b IHb|a IHa b IHb|a IHa|n a IHa| |a IHa];
    intros prev s cp k Hs Hc Hk; simpl.
  - destruct (lit f w prev s) as [[p s']|] eqn:L; simpl; auto.
    apply Hk; auto. eapply lit_keeps; eauto.
  - destruct s as [|c s]; simpl; auto. destruct (mem f cs c); simpl; auto.
    inversion Hs; subst. auto.
  - apply star_greedy_keeps; auto.
  - apply star_lazy_keeps; auto.
  - apply IHa; auto.
  - specialize (IHa prev s cp k Hs Hc Hk).
    destruct (m f a prev s cp k); auto.
  - specialize (IHa prev s cp k Hs Hc Hk).
    destruct (m f a prev s cp k); auto.
  - apply IHa; auto. intros q s' cp' Hs' Hc'. apply Hk; auto.
    constructor; auto. simpl. apply Forall_taken; auto.
  - destruct (xorb _ _); simpl; auto.
  - destruct (m f a prev s cp _); simpl; auto.
Qed.

Lemma match_at_keeps (r : regex) (prev : option ascii) (s : text) :
  Forall Q s -> result_all Q (match_at f r prev s).
Proof.
  intros Hs. apply m_keeps; auto.
  - constructor.
  - intros q s' cp' H1 H2. simpl. auto.
Qed.

Lemma match_nonempty_keeps (r : regex) (prev : option ascii) (s : text) :
  Forall Q s -> result_all Q (match_nonempty f r prev s).
Proof.
  intros Hs. apply m_keeps; auto.
  - constructor.
  - intros q s' cp' H1 H2. destruct (_ <? _); simpl; auto.
Qed.

Lemma search_go_keeps (r : regex) (s : text) (prev : option ascii)
      (mt : text) (cp : caps) :
  Forall Q s -> search_go f r prev s = Some (mt, cp) ->
  Forall Q mt /\ caps_all Q cp.
Proof.
  revert prev; induction s as [|c s IH]; intros prev Hs; simpl.
  - pose proof (match_at_keeps r prev Hs) as K.
    destruct (match_at f r prev []) as [[rest cp']|]; [|discriminate].
    intros E; inversion E; subst. simpl in K. split; [constructor|tauto].
  - pose proof (match_at_keeps r prev Hs) as K.
    destruct (match_at f r prev (c :: s)) as [[rest cp']|].
    + intros E; inversion E; subst. simpl in K.
      split; [apply Forall_taken; auto|tauto].
    + inversion Hs; subst. apply IH; auto.
Qed.

(** A substitution brings in what its replacements bring in. *)
Lemma sub_go_keeps (r : regex) (repl : text -> caps -> text) :
  (forall mt cp, Forall Q mt -> caps_all Q cp -> Forall Q (repl mt cp)) ->
  forall s prev skip, Forall Q s -> Forall Q (sub_go f r repl prev s skip).
Proof.
  intros Hr. induction s as [|c s IH]; intros prev skip Hs.
  - destruct skip; simpl; auto.
    pose proof (match_at_keeps r prev Hs) as K.
    destruct (match_at f r prev []) as [[rest cp]|]; auto.
    simpl in K. destruct K as [K1 K2].
    pose proof (match_nonempty_keeps r prev Hs) as K'.
    apply Forall_app. split; [apply Hr; auto|].
    destruct (match_nonempty f r prev []) as [[rest2 cp2]|]; auto.
    simpl in K'. rewrite app_nil_r. apply Hr; [|tauto].
    apply Forall_taken; auto.
  - inversion Hs; subst. destruct skip as [|n]; [|simpl; auto].
    rewrite sub_go_cons.
    pose proof (match_at_keeps r prev Hs) as K.
    destruct (match_at f r prev (c :: s)) as [[rest cp]|]; auto.
    simpl in K. destruct K as [K1 K2].
    pose proof (match_nonempty_keeps r prev Hs) as K'.
    destruct (length (taken (c :: s) rest)).
    + apply Forall_app. split; [apply Hr; auto|].
      destruct (match_nonempty f r prev (c :: s)) as [[rest2 cp2]|]; auto.
      simpl in K'. apply Forall_app. split; auto.
      apply Hr; [|tauto]. apply Forall_taken; auto.
    + apply Forall_app. split; auto. apply Hr; auto.
      apply Forall_taken; auto.
Qed.

Lemma sub_keeps (r : regex) (repl : text -> caps -> text) (s : text) :
  (forall mt cp, Forall Q mt -> caps_all Q cp -> Forall Q (repl mt cp)) ->
  Forall Q s -> Forall Q (sub f r repl s).
Proof. intros Hr Hs. apply sub_go_keeps; auto. Qed.

Lemma const_keeps (t mt : text) (cp : caps) :
  Forall Q t -> Forall Q (const t mt cp).
Proof. auto. Qed.

Lemma group1_then_keeps (t mt : text) (cp : caps) :
  Forall Q t -> caps_all Q cp -> Forall Q (group1_then t mt cp).
Proof.
  intros Ht Hc. unfold group1_then. apply Forall_app. split; auto.
  apply Forall_group; auto.
Qed.

End Keep.

End KeepFacts.

Import KeepFacts.

Module BacktickFacts.

Lemma quote_identifiers_go (s : text) :
  replace_go [backtick] [dq] s 0 =
  map (fun c => if eqc c backtick then dq else c) s.
Proof.
  induction s as [|c s IH]; auto.
  change (replace_go [backtick] [dq] (c :: s) 0)
    with (if eqc backtick c && true
          then dq :: replace_go [backtick] [dq] s 0
          else c :: replace_go [backtick] [dq] s 0).
  rewrite IH, andb_true_r. simpl.
  replace (eqc backtick c) with (eqc c backtick)
    by (unfold eqc; apply Ascii.eqb_sym).
  destruct (eqc c backtick); reflexivity.
Qed.

Lemma no_backtick_test (s : text) :
  forallb (fun c => negb (eqc c backtick)) s = true -> Forall no_backtick s.
Proof.
  induction s as [|c s IH]; simpl; intros H; constructor.
  - apply andb_true_iff in H as [H _]. intros E. subst c.
    discriminate H.
  - apply IH. apply andb_true_iff in H. tauto.
Qed.

Lemma no_backtick_in (s : text) : Forall no_backtick s -> ~ In backtick s.
Proof.
  intros H I. rewrite Forall_forall in H. apply (H _ I). reflexivity.
Qed.

Lemma quote_identifiers_clean (s : text) :
  Forall no_backtick (quote_identifiers s).
Proof.
  unfold quote_identifiers, replace. rewrite quote_identifiers_go.
  induction s as [|c s IH]; simpl; constructor; auto.
  destruct (eqc c backtick) eqn:E.
  - discriminate.
  - intros H. subst c. discriminate E.
Qed.

Ltac clean_text := apply no_backtick_test; reflexivity.

Lemma clean_const (f : flags) (r : regex) (t s : text) :
  Forall no_backtick t -> Forall no_backtick s ->
  Forall no_backtick (sub f r (const t) s).
Proof. intros Ht Hs. apply sub_keeps; auto. Qed.

Lemma clean_group1 (f : flags) (r : regex) (t s : text) :
  Forall no_backtick t -> Forall no_backtick s ->
  Forall no_backtick (sub f r (group1_then t) s).
Proof.
  intros Ht Hs. apply sub_keeps; auto.
  intros mt cp _ Hc. apply group1_then_keeps; auto.
Qed.

Lemma clean_rename (w new s : text) :
  Forall no_backtick new -> Forall no_backtick s ->
  Forall no_backtick (rename_word w new s).
Proof. apply clean_const. Qed.

(** The rules of lines 44 to 103 bring in no backtick. *)
Lemma later_rules_clean (s : text) :
  Forall no_backtick s ->
  Forall no_backtick
    (current_timestamp_to_now
       (strip_on_update
          (normalize_types
             (double_to_double_precision
                (int_to_integer
                   (auto_increment_to_serial
                      (strip_auto_increment_option
                         (strip_collate
                            (strip_character_set
                               (strip_collate_option
                                  (strip_default_charset
                                     (strip_engine s)))))))))))).
Proof.
  intros H.
  apply clean_rename; [clean_text|].
  apply clean_group1; [constructor|].
  unfold normalize_types.
  repeat (first [ apply clean_rename; [clean_text|]
                | apply clean_const; [clean_text|]
                | apply clean_group1; [clean_text|] ]).
  exact H.
Qed.

Lemma rewrite_rules_clean (content : text) :
  Forall no_backtick (rewrite_rules content).
Proof.
  unfold rewrite_rules. apply later_rules_clean, quote_identifiers_clean.
Qed.

Section Scan.

Variable Q : ascii -> Prop.

Lemma parse_fk_all (t : option text) (line : text) (fk : foreign_key) :
  (forall n, t = Some n -> Forall Q n) -> Forall Q line ->
  parse_fk t line = Some fk -> record_all Q fk.
Proof.
  intros Ht Hl. unfold parse_fk.
  destruct (search IGNORECASE fk_parts_re line) as [[mt cp]|] eqn:S;
    [|discriminate].
  destruct (@search_go_keeps Q IGNORECASE fk_parts_re line None mt cp Hl S)
    as [_ Hc].
  destruct t as [[|c n]|]; simpl; try discriminate.
  intros E; inversion E; subst. unfold record_all; simpl.
  repeat split; try (apply Forall_group; auto); auto.
  unfold strip, rstrip_commas.
  apply Forall_rstrip, Forall_lstrip, Forall_rstrip, Forall_group; auto.
Qed.

Lemma track_table_all (st : scan_state) (line : text) :
  state_all Q st -> Forall Q line -> state_all Q (track_table st line).
Proof.
  intros (A & B & C) Hl. unfold track_table.
  destruct (opens_table line); [|repeat split; auto].
  repeat split; simpl; auto.
  destruct (search IGNORECASE create_table_re line) as [[mt cp]|] eqn:S;
    auto.
  destruct (@search_go_keeps Q IGNORECASE create_table_re line None mt cp
              Hl S) as [_ Hc].
  intros t E; inversion E; subst. apply Forall_group; auto.
Qed.

Lemma scan_line_all (st : scan_state) (line : text) :
  state_all Q st -> Forall Q line -> state_all Q (scan_line st line).
Proof.
  intros H Hl. apply track_table_all with (line := line) in H; auto.
  unfold scan_line. set (st' := track_table st line) in *.
  destruct H as (A & B & C).
  destruct (in_create_table st' && is_fk_line line).
  - destruct (parse_fk (current_table st') line) as [fk|] eqn:P;
      [|repeat split; auto].
    repeat split; simpl; auto.
    apply Forall_app. split; auto. constructor; auto.
    eapply parse_fk_all; eauto.
  - destruct (in_create_table st' && is_key_line line);
      [repeat split; auto|].
    destruct (in_create_table st' && closes_table line);
      repeat split; simpl; auto; try discriminate;
      apply Forall_app; split; auto.
Qed.

Lemma scan_from_all (lines : list text) (st : scan_state) :
  state_all Q st -> Forall (Forall Q) lines ->
  state_all Q (scan_from st lines).
Proof.
  revert st; induction lines as [|l lines IH]; intros st H Hl; simpl; auto.
  inversion Hl; subst. apply IH; auto. apply scan_line_all; auto.
Qed.

Lemma scan_all (lines : list text) :
  Forall (Forall Q) lines -> state_all Q (scan lines).
Proof.
  intros H. apply scan_from_all; auto.
  repeat split; simpl; auto. discriminate.
Qed.

End Scan.

Lemma fk_stmt_clean (fk : foreign_key) :
  record_all no_backtick fk -> Forall no_backtick (fk_stmt fk).
Proof.
  intros (A & B & C & D & E & F). unfold fk_stmt.
  repeat (apply Forall_app; split); auto; clean_text.
Qed.

Lemma fk_statements_clean (fks : list foreign_key) (acc : list text) :
  Forall (record_all no_backtick) fks ->
  Forall (Forall no_backtick) acc ->
  Forall (Forall no_backtick)
    (fold_left (fun stmts fk => stmts ++ [fk_stmt fk]) fks acc).
Proof.
  revert acc; induction fks as [|fk fks IH]; intros acc H Ha; simpl; auto.
  inversion H; subst. apply IH; auto.
  apply Forall_app. split; auto. constructor; auto.
  apply fk_stmt_clean; auto.
Qed.

Lemma add_foreign_keys_clean (content : text) (fks : list foreign_key) :
  Forall no_backtick content -> Forall (record_all no_backtick) fks ->
  Forall no_backtick (add_foreign_keys content fks).
Proof.
  intros Hc Hf. unfold add_foreign_keys. destruct fks as [|fk fks]; auto.
  apply Forall_app. split; auto.
  apply Forall_join; [clean_text|].
  apply fk_statements_clean; auto.
  constructor; auto. clean_text.
Qed.

Lemma defer_constraints_clean (content : text) :
  Forall no_backtick content -> Forall no_backtick (defer_constraints content).
Proof.
  intros H. unfold defer_constraints.
  destruct (scan_all (Forall_split_lines H)) as (A & B & _).
  apply clean_const; [clean_text|].
  apply clean_const; [clean_text|].
  apply clean_const; [clean_text|].
  apply add_foreign_keys_clean; auto.
  apply clean_group1; [constructor|].
  apply Forall_join; auto. clean_text.
Qed.

End BacktickFacts.

Import BacktickFacts.

(** X4.  Line 41 turns every backtick of the dump into a double quote
    and changes nothing else; no later step brings a backtick in: the
    text that the converter writes after the header holds none, so a
    backtick in the output file comes from the name of the input file
    in the header. *)
Theorem X4_no_backtick_left (input_file content : text) :
  quote_identifiers content =
    map (fun c => if eqc c backtick then dq else c) content /\
  ~ In backtick (defer_constraints (rewrite_rules content)) /\
  (In backtick (convert_mysql_to_postgres input_file content) ->
   In backtick input_file).
Proof.
  split; [apply quote_identifiers_go|].
  assert (C : ~ In backtick (defer_constraints (rewrite_rules content)))
    by (apply no_backtick_in, defer_constraints_clean, rewrite_rules_clean).
  split; auto.
  unfold convert_mysql_to_postgres, postgres_header.
  revert C. generalize (defer_constraints (rewrite_rules content)).
  intros body C. rewrite !in_app_iff. intros H.
  repeat match type of H with
         | _ \/ _ => destruct H as [H|H]
         end;
    first [ exact H
          | exfalso; exact (C H)
          | exfalso; revert H; apply no_backtick_in; clean_text ].
Qed.

Lemma X4_no_backtick_left_witness :
  quote_identifiers (str "CREATE TABLE `t` (`a` int);") =
  qstr "CREATE TABLE `t` (`a` int);".
Proof.
  destruct (X4_no_backtick_left [] (str "CREATE TABLE `t` (`a` int);"))
    as [H _].
  exact H.
Defined.

(** ** The files of a run *)

Module ScriptFacts.

Lemma replace_go_cons (old new : text) (c : ascii) (s : text) :
  replace_go old new (c :: s) 0 =
  if starts old (c :: s)
  then new ++ replace_go old new s (length old - 1)
  else c :: replace_go old new s 0.
Proof. reflexivity. Qed.

Lemma replace_go_skip (old new x b : text) :
  replace_go old new (x ++ b) (length x) = replace_go old new b 0.
Proof. induction x as [|c x IH]; simpl; auto. Qed.

(** Where [old] does not occur, [replace] changes nothing. *)
Lemma replace_go_pass (old new a b : text) :
  contains old (a ++ firstn (length old - 1) b) = false ->
  replace_go old new (a ++ b) 0 = a ++ replace_go old new b 0.
Proof.
  induction a as [|c a IH]; intros H; auto.
  rewrite <- !app_comm_cons in *. rewrite replace_go_cons.
  pose proof (contains_false_starts _ _ H) as S.
  apply contains_false_tail in H.
  destruct (starts old (c :: a ++ b)) eqn:E; [|rewrite IH; auto].
  exfalso. destruct old as [|o old]; [discriminate S|].
  simpl in E, S. apply andb_true_iff in E as [E1 E2].
  rewrite E1 in S. simpl in S.
  replace (length old - 0) with (length old) in S by lia.
  rewrite starts_firstn in S; auto; discriminate.
Qed.

Lemma replace_none (old new s : text) :
  contains old s = false -> replace old new s = s.
Proof.
  intros H. unfold replace.
  rewrite <- (app_nil_r s) at 1. rewrite replace_go_pass.
  - simpl. apply app_nil_r.
  - rewrite firstn_nil, app_nil_r. exact H.
Qed.

(** The leftmost occurrence of [old] is replaced, and [replace] goes on
    after it. *)
Lemma replace_first (old new a b : text) :
  old <> [] ->
  contains old (a ++ removelast old) = false ->
  replace old new (a ++ old ++ b) = a ++ new ++ replace old new b.
Proof.
  intros Ho H. unfold replace. rewrite replace_go_pass.
  - destruct old as [|o old]; [congruence|].
    rewrite <- app_comm_cons, replace_go_cons, app_comm_cons, starts_app.
    replace (length (o :: old) - 1) with (length old) by (simpl; lia).
    rewrite replace_go_skip. reflexivity.
  - replace (firstn (length old - 1) (old ++ b)) with (removelast old);
      auto.
    rewrite firstn_app.
    replace (length old - 1 - length old) with 0 by lia.
    rewrite firstn_O, app_nil_r, Nat.sub_1_r.
    apply removelast_firstn_len.
Qed.

End ScriptFacts.

Import ScriptFacts.

(** X5.  When the script gets an input file and no output file, and the
    name of the input file holds no [.sql], the output file is the input
    file: the dump is overwritten by its conversion. *)
Theorem X5_output_over_input (script input_file : text) :
  contains (str ".sql") input_file = false ->
  chosen_files [script; input_file] = (input_file, input_file).
Proof.
  intros H. unfold chosen_files, output_for. rewrite replace_none; auto.
Qed.

Lemma X5_output_over_input_witness :
  chosen_files [str "mysql_to_pgsql.py"; str "dump.SQL"] =
  (str "dump.SQL", str "dump.SQL").
Proof. apply X5_output_over_input. reflexivity. Defined.

(** X6.  The default name of the output file is made from every [.sql]
    of the name of the input file, not from its ending only: the
    leftmost [.sql] becomes [_postgres.sql], and the rest of the name is
    treated in the same way.  For a name with [.sql] at its end only,
    that end becomes [_postgres.sql]. *)
Theorem X6_default_output_file (script a b : text) :
  contains (str ".sql") (a ++ str ".sq") = false ->
  output_for (a ++ str ".sql" ++ b) =
    a ++ str "_postgres.sql" ++ output_for b /\
  chosen_files [script; a ++ str ".sql"] =
    (a ++ str ".sql", a ++ str "_postgres.sql").
Proof.
  intros H. unfold chosen_files, output_for.
  assert (E : forall x, replace (str ".sql") (str "_postgres.sql")
                          (a ++ str ".sql" ++ x) =
                        a ++ str "_postgres.sql" ++
                        replace (str ".sql") (str "_postgres.sql") x).
  { intros x. apply replace_first; [discriminate|exact H]. }
  split; [apply E|].
  specialize (E []).
  change (replace (str ".sql") (str "_postgres.sql") []) with (@nil ascii)
    in E.
  rewrite !app_nil_r in E. rewrite E. reflexivity.
Qed.

Lemma X6_default_output_file_witness :
  output_for (str "backup.sql.d/shop.sql") =
  str "backup_postgres.sql.d/shop_postgres.sql".
Proof.
  destruct (X6_default_output_file [] (str "backup") (str ".d/shop.sql"))
    as [E _]; [reflexivity|].
  exact E.
Defined.

(** ** The rules on whole words *)

Module WordRuleFacts.

Lemma lit_starts (f : flags) (w : text) (prev : option ascii) (s : text) :
  starts (norm f w) (norm f s) = true ->
  exists q s', lit f w prev s = Some (q, s').
Proof.
  revert prev s; induction w as [|a w IH]; intros prev s H; simpl.
  - eauto.
  - destruct s as [|c s]; simpl in H; [discriminate|].
    apply andb_true_iff in H as [H1 H2].
    rewrite eq_lit_norm, H1. apply IH, H2.
Qed.

(** The lookahead of line 68 fails exactly when white space and SERIAL
    come next. *)
Lemma serial_ahead_spec (q : option ascii) (s : text) (cp : caps) :
  m IGNORECASE serial_re q s cp (fun _ s' cp' => Some (s', cp')) = None <->
  serial_ahead s = false.
Proof.
  unfold serial_ahead, serial_re, cat, Plus.
  destruct s as [|c s]; [simpl; tauto|].
  cbn [m head_is mem]. destruct (is_space c) eqn:Ec; [|simpl; tauto].
  cbn [lstrip_by andb]. rewrite Ec.
  destruct (lstrip_split is_space s) as (ws & E & Hws).
  pose proof (lstrip_stops is_space s) as St.
  set (r := lstrip_by is_space s) in *. rewrite E.
  change (to_lower (str "SERIAL")) with (norm IGNORECASE (str "SERIAL")).
  change (to_lower r) with (norm IGNORECASE r).
  destruct (starts (norm IGNORECASE (str "SERIAL")) (norm IGNORECASE r))
    eqn:S.
  - destruct (lit_starts IGNORECASE (str "SERIAL") (last_of ws (Some c)) r S)
      as (q' & s' & L).
    rewrite star_greedy_run with (r := (s', cp)); auto.
    + split; discriminate.
    + rewrite L. reflexivity.
  - rewrite star_greedy_none; auto; [tauto|].
    intros u t -> . destruct t as [|d t].
    + change ([] ++ r) with r. rewrite lit_none; auto.
    + rewrite forallb_app in Hws. apply andb_true_iff in Hws as [_ Hd].
      simpl in Hd. apply andb_true_iff in Hd as [Hd _].
      rewrite lit_none; auto.
      change (str "SERIAL") with ("S"%char :: str "ERIAL").
      rewrite <- app_comm_cons. simpl norm. simpl starts.
      rewrite <- eq_lit_norm.
      destruct (eq_lit IGNORECASE "S" d) eqn:Ed; auto.
      apply eq_lit_word in Ed. rewrite (space_not_word _ Hd) in Ed.
      discriminate Ed.
Qed.

Section IntRule.

Let w : text := str "int".
Let new : text := str "INTEGER".
Let go := sub_go IGNORECASE int_re (const new).

Lemma int_match_unfold (p : option ascii) (s : text) :
  match_at IGNORECASE int_re p s =
  if xorb (word_at p) (head_is is_word s)
  then match lit IGNORECASE w p s with
       | Some (q, s1) =>
           if xorb (word_at q) (head_is is_word s1)
           then if serial_ahead s1 then None
                else Some (s1, [(1, taken s s1)])
           else None
       | None => None
       end
  else None.
Proof.
  unfold match_at, int_re, cat. cbn [m]. rewrite word_at_head.
  destruct (xorb (word_at p) (head_is is_word s)); auto.
  fold w. destruct (lit IGNORECASE w p s) as [[q s1]|]; auto.
  rewrite word_at_head.
  destruct (xorb (word_at q) (head_is is_word s1)); auto.
  pose proof (serial_ahead_spec q s1 [(1, taken s s1)]) as A.
  unfold serial_re, cat in A.
  destruct (m IGNORECASE _ q s1 _ _) eqn:M.
  - destruct (serial_ahead s1); auto. destruct A as [_ A].
    discriminate A; auto.
  - destruct A as [A _]. rewrite A; auto.
Qed.

Lemma int_no_match_at_other (p : option ascii) (s : text) :
  head_is is_word s = false -> match_at IGNORECASE int_re p s = None.
Proof.
  intros H. rewrite int_match_unfold, H.
  destruct (xorb (word_at p) false); auto.
  destruct s as [|c s]; auto. simpl in *.
  destruct (eq_lit IGNORECASE "i" c) eqn:E; auto.
  apply eq_lit_word in E. rewrite H in E. discriminate E.
Qed.

Lemma int_no_match_inside (p : option ascii) (s : text) :
  word_at p = true -> head_is is_word s = true ->
  match_at IGNORECASE int_re p s = None.
Proof. intros H1 H2. rewrite int_match_unfold, H1, H2. reflexivity. Qed.

Lemma int_go_other (p : option ascii) (c : ascii) (s : text) :
  is_word c = false -> go p (c :: s) 0 = c :: go (Some c) s 0.
Proof.
  intros H. unfold go. rewrite sub_go_cons, int_no_match_at_other; auto.
Qed.

Lemma int_go_end (p : option ascii) : go p [] 0 = [].
Proof.
  unfold go. simpl. rewrite int_no_match_at_other; auto.
Qed.

Lemma int_go_inside (run rest : text) (p : option ascii) :
  word_at p = true -> forallb is_word run = true ->
  go p (run ++ rest) 0 = run ++ go (last_of run p) rest 0.
Proof.
  revert p; induction run as [|c run IH]; intros p Hp Hr; auto.
  simpl in Hr. apply andb_true_iff in Hr as [Hc Hr].
  unfold go. rewrite <- app_comm_cons, sub_go_cons, int_no_match_inside;
    auto.
  simpl. f_equal. apply IH; auto.
Qed.

(** At the start of a word the match is the whole word or nothing. *)
Lemma int_go_word (run rest : text) (p : option ascii) :
  word_at p = false -> run <> [] -> forallb is_word run = true ->
  head_is is_word rest = false ->
  go p (run ++ rest) 0 =
  (if same IGNORECASE w run && negb (serial_ahead rest) then new else run)
  ++ go (last_of run p) rest 0.
Proof.
  intros Hp Hrne Hr Hrest.
  assert (Hhead : head_is is_word (run ++ rest) = true).
  { destruct run as [|c run]; [congruence|]. simpl in *.
    apply andb_true_iff in Hr. tauto. }
  assert (Copy : match_at IGNORECASE int_re p (run ++ rest) = None ->
                 go p (run ++ rest) 0 = run ++ go (last_of run p) rest 0).
  { intros N. destruct run as [|c run]; [congruence|]. unfold go.
    rewrite <- app_comm_cons in *. rewrite sub_go_cons, N. simpl. f_equal.
    simpl in Hr. apply andb_true_iff in Hr as [Hc Hr].
    apply int_go_inside; auto. }
  destruct (same IGNORECASE w run) eqn:E; simpl.
  - destruct (serial_ahead rest) eqn:A; simpl.
    + apply Copy. rewrite int_match_unfold, Hp, Hhead, lit_app; auto.
      rewrite last_of_word, Hrest, A; auto.
    + unfold go.
      rewrite sub_go_hit with (cp := [(1, taken (run ++ rest) rest)]);
        auto.
      rewrite int_match_unfold, Hp, Hhead, lit_app; auto.
      rewrite last_of_word, Hrest, A; auto.
  - apply Copy. rewrite int_match_unfold, Hp, Hhead. cbn [xorb].
    destruct (lit IGNORECASE w p (run ++ rest)) as [[q s1]|] eqn:L; auto.
    apply lit_some in L as (x & Ex & Sx & ->).
    assert (Hx : forallb is_word x = true)
      by (eapply same_word; eauto; reflexivity).
    assert (Hxne : x <> []) by (intros ->; discriminate Sx).
    rewrite last_of_word; auto.
    apply app_eq_app in Ex as [l [[E1 E2] | [E1 E2]]].
    + destruct l as [|d l].
      * rewrite app_nil_r in E1. subst x. congruence.
      * subst. rewrite forallb_app in Hr.
        apply andb_true_iff in Hr as [_ Hr]. simpl in Hr.
        apply andb_true_iff in Hr as [Hd _]. simpl. rewrite Hd. auto.
    + destruct l as [|d l].
      * rewrite app_nil_r in E1. subst x. congruence.
      * subst. rewrite forallb_app in Hx.
        apply andb_true_iff in Hx as [_ Hx]. simpl in Hx.
        apply andb_true_iff in Hx as [Hd _]. simpl in Hrest. congruence.
Qed.

Lemma int_go_tokens (ts : list token) (p : option ascii) :
  canonical ts = true ->
  word_at p = false \/ starts_with_word ts = false ->
  go p (untokens ts) 0 = untokens (int_tokens ts).
Proof.
  revert p; induction ts as [|[x|c] ts IH]; intros p Hc Hp.
  - apply int_go_end.
  - simpl in Hc. apply andb_true_iff in Hc as [H Hc].
    apply andb_true_iff in H as [H Hn]. apply andb_true_iff in H as [H0 H1].
    destruct Hp as [Hp | Hp]; [|discriminate Hp].
    apply negb_true_iff in Hn.
    change (untokens (Word x :: ts)) with (x ++ untokens ts).
    rewrite int_go_word; auto.
    + rewrite IH; auto. unfold w, new. cbn [int_tokens].
      destruct (same IGNORECASE (str "int") x &&
                negb (serial_ahead (untokens ts))); reflexivity.
    + destruct x; [discriminate H0|discriminate].
    + rewrite untokens_head; auto.
  - simpl in Hc. apply andb_true_iff in Hc as [H Hc].
    apply negb_true_iff in H.
    change (untokens (Other c :: ts)) with (c :: untokens ts).
    rewrite int_go_other; auto. rewrite IH; auto.
Qed.

Lemma int_to_integer_tokens (s : text) :
  int_to_integer s = untokens (int_tokens (tokens s)).
Proof.
  unfold int_to_integer, sub. rewrite <- (untokens_tokens s) at 1.
  apply int_go_tokens; auto. apply canonical_tokens.
Qed.

End IntRule.

End WordRuleFacts.

Import WordRuleFacts.

(** X7.  On a dump of characters below 128, the rules of lines 71, 83,
    86, 89, 90 and 103 work on the words of the dump, the longest runs
    of letters, digits and underscores: a word equal to the key word, in
    any letter case, is replaced, and every other word and every other
    character stays, wherever it stands: in a column type, a quoted name
    or the data of an INSERT. *)
Theorem X7_word_rules (s : text) :
  ascii_text s = true ->
  untokens (tokens s) = s /\
  double_to_double_precision s =
    untokens (map (rename_token (str "double") (str "DOUBLE PRECISION"))
                (tokens s)) /\
  datetime_to_timestamp s =
    untokens (map (rename_token (str "datetime") (str "TIMESTAMP"))
                (tokens s)) /\
  varchar_case s =
    untokens (map (rename_token (str "varchar") (str "VARCHAR")) (tokens s)) /\
  longtext_to_text s =
    untokens (map (rename_token (str "longtext") (str "TEXT")) (tokens s)) /\
  mediumtext_to_text s =
    untokens (map (rename_token (str "mediumtext") (str "TEXT"))
                (tokens s)) /\
  current_timestamp_to_now s =
    untokens (map (rename_token (str "CURRENT_TIMESTAMP") (str "NOW()"))
                (tokens s)).
Proof.
  intros _. split; [apply untokens_tokens|].
  repeat split; apply rename_word_tokens; solve [discriminate|reflexivity].
Qed.

Lemma X7_word_rules_witness :
  double_to_double_precision (qstr "`double` Double, doubles DOUBLE_") =
  qstr "`DOUBLE PRECISION` DOUBLE PRECISION, doubles DOUBLE_".
Proof.
  destruct (X7_word_rules (qstr "`double` Double, doubles DOUBLE_"))
    as (_ & H & _); [reflexivity|exact H].
Defined.

(** X8.  Line 68, on the words of a dump of characters below 128: a
    word equal to int, in any letter case, becomes INTEGER unless white
    space and SERIAL, in any letter case, come right after it; every
    other word, such as bigint, tinyint or print, and every other
    character stays. *)
Theorem X8_int_rule (s : text) :
  ascii_text s = true ->
  int_to_integer s = untokens (int_tokens (tokens s)).
Proof. intros _. apply int_to_integer_tokens. Qed.

Lemma X8_int_rule_witness :
  int_to_integer (str "a int(11), b bigint, c Int  serial, d INT") =
  str "a INTEGER(11), b bigint, c Int  serial, d INTEGER".
Proof.
  rewrite (X8_int_rule (str "a int(11), b bigint, c Int  serial, d INT"));
    reflexivity.
Defined.

(** ** Names with and without quotes *)

Module QuoteFacts.

Lemma has_in (c : ascii) (s : text) : has c s = false -> ~ In c s.
Proof.
  unfold has. intros H I.
  assert (E : existsb (eqc c) s = true)
    by (apply existsb_exists; exists c; split; auto; apply eqc_refl).
  congruence.
Qed.

Lemma in_has (c : ascii) (s : text) : ~ In c s -> has c s = false.
Proof.
  intros H. unfold has. destruct (existsb (eqc c) s) eqn:E; auto.
  apply existsb_exists in E as (x & I & E). apply eqc_eq in E. subst x.
  tauto.
Qed.

Section Needs.

Variable f : flags.
Variable c : ascii.

(** [c] has no other letter case. *)
Hypothesis Hc : forall x, eq_lit f c x = true -> x = c.

Lemma same_in (w w' : text) :
  same f w w' = true -> In c w -> In c w'.
Proof.
  revert w'; induction w as [|a w IH]; intros [|x w'] H I; simpl in *;
    try discriminate; try tauto.
  apply andb_true_iff in H as [H1 H2]. destruct I as [I | I].
  - subst a. left. apply Hc, H1.
  - right. apply IH; auto.
Qed.

Lemma star_greedy_dead (p : ascii -> bool) (s : text) (prev : option ascii)
      (k : option ascii -> text -> result) :
  ~ In c s -> (forall q s', ~ In c s' -> k q s' = None) ->
  star_greedy p prev s k = None.
Proof.
  intros Hs Hk. revert prev; induction s as [|x s IH]; intros prev; simpl;
    auto.
  destruct (p x); auto. rewrite IH; auto. simpl in Hs. tauto.
Qed.

Lemma star_lazy_dead (p : ascii -> bool) (s : text) (prev : option ascii)
      (k : option ascii -> text -> result) :
  ~ In c s -> (forall q s', ~ In c s' -> k q s' = None) ->
  star_lazy p prev s k = None.
Proof.
  intros Hs Hk. revert prev; induction s as [|x s IH]; intros prev; simpl.
  - rewrite Hk; auto.
  - rewrite Hk; auto. destruct (p x); auto. apply IH. simpl in Hs. tauto.
Qed.

(** A pattern that needs [c] matches nothing in a text without [c]. *)
Lemma m_needs (r : regex) :
  forall (p : option ascii) (s : text) (cp : caps) (k : cont),
  ~ In c s ->
  needs c r = true \/
  (forall q s' cp', ~ In c s' -> k q s' cp' = None) ->
  m f r p s cp k = None.
Proof.
  induction r as [w|cs|cs|cs|a IHa b IHb|a IHa b IHb|a IHa|n a IHa| |a IHa];
    intros p s cp k Hs H; simpl.
  - destruct (lit f w p s) as [[q s']|] eqn:L; auto.
    apply lit_some in L as (w' & E & S & _). subst s.
    destruct H as [H | H].
    + exfalso. apply Hs, in_or_app. left. apply (same_in _ _ S).
      simpl in H. apply existsb_exists in H as (x & I & Ex).
      apply eqc_eq in Ex. subst x. exact I.
    + apply H. intros I. apply Hs, in_or_app. auto.
  - destruct s as [|x s]; auto. destruct (mem f cs x) eqn:M; auto.
    destruct H as [H | H].
    + exfalso. destruct cs; simpl in H; try discriminate.
      apply eqc_eq in H. subst c0. simpl in M. apply Hc in M.
      subst x. apply Hs. simpl. auto.
    + apply H. simpl in Hs. tauto.
  - destruct H as [H | H]; [discriminate|].
    apply star_greedy_dead; auto.
  - destruct H as [H | H]; [discriminate|].
    apply star_lazy_dead; auto.
  - simpl in H. destruct (needs c a) eqn:Na.
    + apply IHa; auto.
    + apply IHa; auto.
  - rewrite IHa, IHb; auto.
    + destruct H as [H | H]; auto. simpl in H.
      apply andb_true_iff in H. tauto.
    + destruct H as [H | H]; auto. simpl in H.
      apply andb_true_iff in H. tauto.
  - destruct H as [H | H]; [discriminate|].
    rewrite IHa; auto.
  - apply IHa; auto. destruct H as [H | H]; auto.
  - destruct H as [H | H]; [discriminate|].
    destruct (xorb _ _); auto.
  - destruct H as [H | H]; [discriminate|].
    destruct (m f a p s cp _); auto.
Qed.

Lemma search_go_needs (r : regex) (s : text) (p : option ascii) :
  needs c r = true -> ~ In c s -> search_go f r p s = None.
Proof.
  intros Hr. revert p; induction s as [|x s IH]; intros p Hs; simpl.
  - unfold match_at. rewrite m_needs; auto.
  - unfold match_at. rewrite m_needs; auto. apply IH. simpl in Hs. tauto.
Qed.

End Needs.

Lemma dq_caseless (x : ascii) : eq_lit IGNORECASE dq x = true -> x = dq.
Proof. all_chars x. Qed.

(** The three patterns of the scan need a double quote. *)
Lemma unquoted_line (line : text) :
  has dq line = false ->
  is_fk_line line = false /\ is_key_line line = false /\
  table_named_by line = None /\
  forall t, parse_fk t line = None.
Proof.
  intros H. apply has_in in H.
  split; [|split; [|split]].
  - unfold is_fk_line, found, search.
    rewrite (search_go_needs IGNORECASE dq_caseless); auto.
  - unfold is_key_line, re_match, match_at.
    rewrite (m_needs IGNORECASE dq_caseless); auto.
  - unfold table_named_by, search.
    rewrite (search_go_needs IGNORECASE dq_caseless); auto.
  - intros t. unfold parse_fk, search.
    rewrite (search_go_needs IGNORECASE dq_caseless); auto.
Qed.

Lemma scan_from_unquoted (lines : list text) (st : scan_state) :
  Forall (fun l => has dq l = false) lines ->
  new_lines (scan_from st lines) = new_lines st ++ lines /\
  foreign_keys (scan_from st lines) = foreign_keys st.
Proof.
  revert st; induction lines as [|l lines IH]; intros st H; simpl.
  - rewrite app_nil_r. auto.
  - inversion H; subst. destruct (unquoted_line l H2) as (F & K & _).
    destruct (IH (scan_line st l) H3) as [A B]. rewrite A, B.
    destruct (scan_line_no_fk st l F) as [F' [N | [K' _]]];
      [|congruence].
    rewrite N, F', <- app_assoc. auto.
Qed.

Lemma replace_go_keeps (Q : ascii -> Prop) (old new s : text) (n : nat) :
  Forall Q new -> Forall Q s -> Forall Q (replace_go old new s n).
Proof.
  intros Hn. revert n; induction s as [|x s IH]; intros n Hs; simpl; auto.
  inversion Hs; subst. destruct n; auto.
  destruct (starts old (x :: s)); auto. apply Forall_app. auto.
Qed.

Lemma no_quote_test (s : text) :
  forallb (fun c => negb (eqc c dq) && negb (eqc c backtick)) s = true ->
  Forall no_quote s.
Proof.
  induction s as [|c s IH]; simpl; intros H; constructor.
  - apply andb_true_iff in H as [H _]. apply andb_true_iff in H as [H1 H2].
    split; intros E; subst c; discriminate.
  - apply IH. apply andb_true_iff in H. tauto.
Qed.

Lemma no_quote_of (s : text) :
  has dq s = false -> has backtick s = false -> Forall no_quote s.
Proof.
  intros H1 H2. apply has_in in H1, H2. apply Forall_forall.
  intros x I. split; intros E; subst x; tauto.
Qed.

Ltac plain_text := apply no_quote_test; reflexivity.

Lemma plain_const (f : flags) (r : regex) (t s : text) :
  Forall no_quote t -> Forall no_quote s ->
  Forall no_quote (sub f r (const t) s).
Proof. intros Ht Hs. apply sub_keeps; auto. Qed.

Lemma plain_group1 (f : flags) (r : regex) (t s : text) :
  Forall no_quote t -> Forall no_quote s ->
  Forall no_quote (sub f r (group1_then t) s).
Proof.
  intros Ht Hs. apply sub_keeps; auto.
  intros mt cp _ Hc. apply group1_then_keeps; auto.
Qed.

Lemma plain_rename (w new s : text) :
  Forall no_quote new -> Forall no_quote s ->
  Forall no_quote (rename_word w new s).
Proof. apply plain_const. Qed.

Lemma plain_inserts (s : text) :
  Forall no_quote s -> Forall no_quote (fix_inserts s).
Proof.
  intros Hs. apply sub_keeps; auto.
  intros mt cp Hm _. apply replace_go_keeps; auto. plain_text.
Qed.

Lemma plain_identifiers (s : text) :
  Forall no_quote s -> Forall no_quote (quote_identifiers s).
Proof.
  intros Hs. unfold quote_identifiers, replace.
  rewrite quote_identifiers_go. apply Forall_forall. intros y Iy.
  apply in_map_iff in Iy as (z & Ez & Iz).
  rewrite Forall_forall in Hs. destruct (Hs z Iz) as [H1 H2].
  destruct (eqc z backtick) eqn:B.
  - apply eqc_eq in B. congruence.
  - subst y. split; auto.
Qed.

(** The rules of lines 16 to 103 bring no quote into a dump without
    quotes. *)
Lemma rewrite_rules_unquoted (content : text) :
  Forall no_quote content -> Forall no_quote (rewrite_rules content).
Proof.
  intros H. unfold rewrite_rules, normalize_types.
  repeat first [ apply plain_rename; [plain_text|]
               | apply plain_inserts
               | apply plain_identifiers
               | apply plain_const; [plain_text|]
               | apply plain_group1; [plain_text|] ].
  exact H.
Qed.

Lemma lines_unquoted (s : text) :
  Forall no_quote s -> Forall (fun l => has dq l = false) (split_lines s).
Proof.
  intros H. apply (Forall_split_lines (Q := no_quote)) in H.
  eapply Forall_impl; [|exact H]. intros l Hl. apply in_has.
  intros I. rewrite Forall_forall in Hl. destruct (Hl _ I) as [A _].
  congruence.
Qed.

End QuoteFacts.

Import QuoteFacts.

(** X9.  A line without double quote is no foreign key line and no key
    line for the scan, gives no table name and no record.  So in a dump
    written without quotes around names, with neither backtick nor
    double quote, the scan writes every line and makes no record: no key
    line is left out and no foreign key is moved to the end. *)
Theorem X9_unquoted_dump (content : text) :
  (forall line, has dq line = false ->
     is_fk_line line = false /\ is_key_line line = false /\
     table_named_by line = None /\ forall t, parse_fk t line = None) /\
  (has dq content = false -> has backtick content = false ->
   new_lines (scan (split_lines (rewrite_rules content))) =
     split_lines (rewrite_rules content) /\
   foreign_keys (scan (split_lines (rewrite_rules content))) = []).
Proof.
  split; [apply unquoted_line|]. intros H1 H2.
  assert (L : Forall (fun l => has dq l = false)
                (split_lines (rewrite_rules content)))
    by (apply lines_unquoted, rewrite_rules_unquoted, no_quote_of; auto).
  apply scan_from_unquoted with (st := scan_start) in L. exact L.
Qed.

Lemma X9_unquoted_dump_witness :
  foreign_keys
    (scan (split_lines (rewrite_rules
       (str "CREATE TABLE t (CONSTRAINT f FOREIGN KEY (a) REFERENCES u (b));"))))
  = [].
Proof.
  destruct (X9_unquoted_dump
    (str "CREATE TABLE t (CONSTRAINT f FOREIGN KEY (a) REFERENCES u (b));"))
    as [_ H].
  destruct H as [_ H]; [reflexivity|reflexivity|exact H].
Defined.

(** ** The lines that the scan recognises *)

Module ScanLineFacts.

Lemma search_go_cons (f : flags) (r : regex) (c : ascii) (s : text)
      (prev : option ascii) :
  search_go f r prev (c :: s) =
  match match_at f r prev (c :: s) with
  | Some (rest, cp) => Some (taken (c :: s) rest, cp)
  | None => search_go f r (Some c) s
  end.
Proof. reflexivity. Qed.

Lemma search_go_nil (f : flags) (r : regex) (prev : option ascii) :
  search_go f r prev [] =
  match match_at f r prev [] with
  | Some (rest, cp) => Some (taken [] rest, cp)
  | None => None
  end.
Proof. reflexivity. Qed.

Lemma search_go_pass (f : flags) (r : regex) (a b : text)
      (prev : option ascii) :
  no_match_in f r prev a b = true ->
  search_go f r prev (a ++ b) = search_go f r (last_of a prev) b.
Proof.
  revert prev; induction a as [|c a IH]; intros prev H; auto.
  simpl in H. rewrite <- app_comm_cons, search_go_cons.
  destruct (match_at f r prev (c :: a ++ b)); [discriminate|].
  apply IH, H.
Qed.

Lemma search_go_hit (f : flags) (r : regex) (s rest : text)
      (prev : option ascii) (cp : caps) :
  match_at f r prev s = Some (rest, cp) ->
  search_go f r prev s = Some (taken s rest, cp).
Proof.
  intros H. destruct s; [rewrite search_go_nil|rewrite search_go_cons];
    rewrite H; reflexivity.
Qed.

Lemma search_go_dead (f : flags) (r : regex) (s : text)
      (prev : option ascii) :
  (forall p x s0, s = x ++ s0 -> match_at f r p s0 = None) ->
  search_go f r prev s = None.
Proof.
  revert prev; induction s as [|c s IH]; intros prev H.
  - rewrite search_go_nil, (H prev [] []); auto.
  - rewrite search_go_cons, (H prev [] (c :: s)); auto.
    apply IH. intros p x s0 E. apply (H p (c :: x)). rewrite E. reflexivity.
Qed.

(** No match of a pattern that begins with a letter starts in the white
    space before it. *)
Lemma no_match_in_indent (r : regex) (a : ascii) (indent b : text)
      (prev : option ascii) :
  is_word a = true ->
  (forall p c s, eq_lit IGNORECASE a c = false ->
                 match_at IGNORECASE r p (c :: s) = None) ->
  forallb is_space indent = true ->
  no_match_in IGNORECASE r prev indent b = true.
Proof.
  intros Ha Hr Hi. apply no_match_in_first with (x := a); auto.
  apply forallb_forall. intros c Ic. rewrite forallb_forall in Hi.
  specialize (Hi c Ic). apply negb_true_iff.
  destruct (eq_lit IGNORECASE a c) eqn:E; auto.
  apply eq_lit_word in E. rewrite (space_not_word _ Hi) in E. congruence.
Qed.

Lemma first_letter_none (f : flags) (a : ascii) (w : text) (rs : regex)
      (p : option ascii) (c : ascii) (s : text) (cp : caps) (k : cont) :
  eq_lit f a c = false -> m f (Seq (Lit (a :: w)) rs) p (c :: s) cp k = None.
Proof. intros H. cbn [m lit]. rewrite H. reflexivity. Qed.

Lemma upper_lower (c : ascii) : upper (lower c) = upper c.
Proof. all_chars c. Qed.

Lemma to_upper_same (a b : text) :
  to_lower a = to_lower b -> to_upper a = to_upper b.
Proof.
  intros H. unfold to_upper, to_lower in *.
  assert (E : forall s, map upper s = map upper (map lower s)).
  { intros s. rewrite map_map. apply map_ext. intros c.
    symmetry. apply upper_lower. }
  rewrite (E a), (E b), H. reflexivity.
Qed.

Lemma contains_starts (w s : text) :
  starts w s = true -> contains w s = true.
Proof. destruct s; simpl; intros ->; auto. Qed.

Lemma contains_mid (w a b : text) : contains w (a ++ w ++ b) = true.
Proof.
  induction a as [|c a IH].
  - simpl. apply contains_starts, starts_app.
  - simpl. simpl in IH. rewrite IH. apply orb_true_r.
Qed.

Lemma paren_caseless (x : ascii) :
  eq_lit IGNORECASE ")" x = true -> x = ")"%char.
Proof. all_chars x. Qed.

Lemma run_without (c : ascii) (s : text) :
  (forall x, eq_lit IGNORECASE c x = true -> x = c) ->
  has c s = false -> forallb (mem IGNORECASE (CNot c)) s = true.
Proof.
  intros Hc H. apply has_in in H. apply forallb_forall. intros x I.
  simpl. apply negb_true_iff.
  destruct (eq_lit IGNORECASE c x) eqn:E; auto.
  apply Hc in E. subst x. tauto.
Qed.

Ltac keyword H := apply same_nocase; rewrite H; reflexivity.
Ltac spaces_stop H :=
  eapply stops_keyword; [rewrite H; reflexivity | reflexivity].

(** A line that names its table. *)
Lemma create_table_match (kw ws name rest : text) (p : option ascii) :
  to_lower kw = str "create table" ->
  ws <> [] -> forallb is_space ws = true ->
  name <> [] -> has dq name = false ->
  match_at IGNORECASE create_table_re p
    (kw ++ ws ++ dq :: name ++ dq :: rest) = Some (rest, [(1, name)]).
Proof.
  intros Hk Nw Sw Nn Hn. unfold match_at, create_table_re, cat.
  rewrite m_seq. apply m_lit_ok; [keyword Hk|]. cbv beta.
  rewrite m_seq. apply m_plus_run; auto; [reflexivity|]. cbv beta.
  change (dq :: name ++ dq :: rest) with ([dq] ++ name ++ dq :: rest).
  rewrite m_seq. apply m_lit_ok; [reflexivity|]. cbv beta.
  rewrite m_seq, m_group. apply m_plus_run; auto.
  - apply run_without; auto. apply dq_caseless.
  - reflexivity.
  - cbv beta. rewrite taken_app.
    change (dq :: rest) with ([dq] ++ rest).
    apply m_lit_ok; reflexivity.
Qed.

Lemma create_table_first (p : option ascii) (c : ascii) (s : text) :
  eq_lit IGNORECASE "C" c = false ->
  match_at IGNORECASE create_table_re p (c :: s) = None.
Proof.
  intros H. unfold match_at, create_table_re, cat.
  change (str "CREATE TABLE") with ("C"%char :: str "REATE TABLE").
  apply first_letter_none, H.
Qed.

(** A foreign key line with all its parts. *)
Lemma fk_parts_match
      (kc w1 cname w2 kf w3 cols w4 kr w5 rtable w6 rcols tail : text)
      (p : option ascii) :
  to_lower kc = str "constraint" -> to_lower kf = str "foreign key" ->
  to_lower kr = str "references" ->
  w1 <> [] -> forallb is_space w1 = true ->
  w2 <> [] -> forallb is_space w2 = true ->
  w3 <> [] -> forallb is_space w3 = true ->
  w4 <> [] -> forallb is_space w4 = true ->
  w5 <> [] -> forallb is_space w5 = true ->
  w6 <> [] -> forallb is_space w6 = true ->
  cname <> [] -> has dq cname = false ->
  cols <> [] -> has ")" cols = false ->
  rtable <> [] -> has dq rtable = false ->
  rcols <> [] -> has ")" rcols = false ->
  tail <> [] -> has nl tail = false ->
  match_at IGNORECASE fk_parts_re p
    (kc ++ w1 ++ dq :: cname ++ dq :: w2 ++ kf ++ w3 ++
     "("%char :: cols ++ ")"%char :: w4 ++ kr ++ w5 ++
     dq :: rtable ++ dq :: w6 ++ "("%char :: rcols ++ ")"%char :: tail) =
  Some ([], [(5, tail); (4, rcols); (3, rtable); (2, cols); (1, cname)]).
Proof.
  intros Hc Hf Hr N1 S1 N2 S2 N3 S3 N4 S4 N5 S5 N6 S6
         Ncn Hcn Nco Hco Nrt Hrt Nrc Hrc Nt Ht.
  unfold match_at, fk_parts_re, cat.
  rewrite m_seq. apply m_lit_ok; [keyword Hc|]. cbv beta.
  rewrite m_seq. apply m_plus_run; auto; [reflexivity|]. cbv beta.
  change (dq :: cname ++ ?x) with ([dq] ++ cname ++ x).
  rewrite m_seq. apply m_lit_ok; [reflexivity|]. cbv beta.
  rewrite m_seq, m_group. apply m_plus_run; auto;
    [apply run_without; auto; apply dq_caseless|reflexivity|].
  cbv beta. rewrite taken_app.
  change (dq :: w2 ++ ?x) with ([dq] ++ w2 ++ x).
  rewrite m_seq. apply m_lit_ok; [reflexivity|]. cbv beta.
  rewrite m_seq. apply m_plus_run; auto; [spaces_stop Hf|]. cbv beta.
  rewrite m_seq. apply m_lit_ok; [keyword Hf|]. cbv beta.
  rewrite m_seq. apply m_plus_run; auto; [reflexivity|]. cbv beta.
  change ("("%char :: cols ++ ?x) with (str "(" ++ cols ++ x).
  rewrite m_seq. apply m_lit_ok; [reflexivity|]. cbv beta.
  rewrite m_seq, m_group. apply m_plus_run; auto;
    [apply run_without; auto; apply paren_caseless|reflexivity|].
  cbv beta. rewrite taken_app.
  change (")"%char :: w4 ++ ?x) with (str ")" ++ w4 ++ x).
  rewrite m_seq. apply m_lit_ok; [reflexivity|]. cbv beta.
  rewrite m_seq. apply m_plus_run; auto; [spaces_stop Hr|]. cbv beta.
  rewrite m_seq. apply m_lit_ok; [keyword Hr|]. cbv beta.
  rewrite m_seq. apply m_plus_run; auto; [reflexivity|]. cbv beta.
  change (dq :: rtable ++ ?x) with ([dq] ++ rtable ++ x).
  rewrite m_seq. apply m_lit_ok; [reflexivity|]. cbv beta.
  rewrite m_seq, m_group. apply m_plus_run; auto;
    [apply run_without; auto; apply dq_caseless|reflexivity|].
  cbv beta. rewrite taken_app.
  change (dq :: w6 ++ ?x) with ([dq] ++ w6 ++ x).
  rewrite m_seq. apply m_lit_ok; [reflexivity|]. cbv beta.
  rewrite m_seq. apply m_plus_run; auto; [reflexivity|]. cbv beta.
  change ("("%char :: rcols ++ ?x) with (str "(" ++ rcols ++ x).
  rewrite m_seq. apply m_lit_ok; [reflexivity|]. cbv beta.
  rewrite m_seq, m_group. apply m_plus_run; auto;
    [apply run_without; auto; apply paren_caseless|reflexivity|].
  cbv beta. rewrite taken_app.
  change (")"%char :: tail) with (str ")" ++ tail).
  rewrite m_seq. apply m_lit_ok; [reflexivity|]. cbv beta.
  rewrite m_group. rewrite <- (app_nil_r tail) at 1.
  apply m_plus_run; auto.
  - apply has_in in Ht. apply forallb_forall. intros x I. simpl.
    apply negb_true_iff. destruct (eqc x nl) eqn:E; auto.
    apply eqc_eq in E. subst x. tauto.
  - exact I.
  - cbv beta.
    replace (taken tail []) with tail; [reflexivity|].
    unfold taken. simpl. rewrite Nat.sub_0_r, firstn_all. reflexivity.
Qed.

Lemma fk_parts_first (p : option ascii) (c : ascii) (s : text) :
  eq_lit IGNORECASE "C" c = false ->
  match_at IGNORECASE fk_parts_re p (c :: s) = None.
Proof.
  intros H. unfold match_at, fk_parts_re, cat.
  change (str "CONSTRAINT") with ("C"%char :: str "ONSTRAINT").
  apply first_letter_none, H.
Qed.

Lemma fk_clause_first (p : option ascii) (c : ascii) (s : text) :
  eq_lit IGNORECASE "C" c = false ->
  match_at IGNORECASE fk_clause_re p (c :: s) = None.
Proof.
  intros H. unfold match_at, fk_clause_re, cat.
  change (str "CONSTRAINT") with ("C"%char :: str "ONSTRAINT").
  apply first_letter_none, H.
Qed.

Lemma fk_clause_match (kc w1 cname w2 kf rest : text) (p : option ascii) :
  to_lower kc = str "constraint" -> to_lower kf = str "foreign key" ->
  w1 <> [] -> forallb is_space w1 = true ->
  w2 <> [] -> forallb is_space w2 = true ->
  cname <> [] -> has dq cname = false ->
  match_at IGNORECASE fk_clause_re p
    (kc ++ w1 ++ dq :: cname ++ dq :: w2 ++ kf ++ rest) = Some (rest, []).
Proof.
  intros Hc Hf N1 S1 N2 S2 Ncn Hcn.
  unfold match_at, fk_clause_re, cat.
  rewrite m_seq. apply m_lit_ok; [keyword Hc|]. cbv beta.
  rewrite m_seq. apply m_plus_run; auto; [reflexivity|]. cbv beta.
  change (dq :: cname ++ ?x) with ([dq] ++ cname ++ x).
  rewrite m_seq. apply m_lit_ok; [reflexivity|]. cbv beta.
  rewrite m_seq. apply m_plus_run; auto;
    [apply run_without; auto; apply dq_caseless|reflexivity|].
  cbv beta.
  change (dq :: w2 ++ ?x) with ([dq] ++ w2 ++ x).
  rewrite m_seq. apply m_lit_ok; [reflexivity|]. cbv beta.
  rewrite m_seq. apply m_plus_run; auto; [spaces_stop Hf|]. cbv beta.
  apply m_lit_ok; [keyword Hf|]. reflexivity.
Qed.

Section Counts.

Variable f : flags.
Variable c : ascii.
Hypothesis Hc : forall x, eq_lit f c x = true -> x = c.

Lemma count_app (a b : text) : count c (a ++ b) = count c a + count c b.
Proof. unfold count. rewrite filter_app, length_app. reflexivity. Qed.

Lemma count_cons (x : ascii) (s : text) :
  count c (x :: s) = (if eqc c x then 1 else 0) + count c s.
Proof. unfold count. simpl. destruct (eqc c x); reflexivity. Qed.

Lemma same_count (w w' : text) :
  same f w w' = true -> count c w <= count c w'.
Proof.
  revert w'; induction w as [|a w IH]; intros [|x w'] H; simpl in H;
    try discriminate; auto.
  apply andb_true_iff in H as [H1 H2]. specialize (IH _ H2).
  rewrite !count_cons. destruct (eqc c a) eqn:E; [|lia].
  apply eqc_eq in E. subst a. apply Hc in H1. subst x.
  rewrite eqc_refl. lia.
Qed.

Lemma star_greedy_gone (p : ascii -> bool) (s : text) (prev : option ascii)
      (k : option ascii -> text -> result) :
  (forall q x s', s = x ++ s' -> k q s' = None) ->
  star_greedy p prev s k = None.
Proof.
  revert prev; induction s as [|a s IH]; intros prev H; simpl.
  - apply (H prev []). reflexivity.
  - rewrite IH.
    + rewrite (H prev [] (a :: s)); auto. destruct (p a); auto.
    + intros q x s' E. apply (H q (a :: x)). rewrite E. reflexivity.
Qed.

Lemma star_lazy_gone (p : ascii -> bool) (s : text) (prev : option ascii)
      (k : option ascii -> text -> result) :
  (forall q x s', s = x ++ s' -> k q s' = None) ->
  star_lazy p prev s k = None.
Proof.
  revert prev; induction s as [|a s IH]; intros prev H; simpl.
  - rewrite (H prev [] []); auto.
  - rewrite (H prev [] (a :: s)); auto. destruct (p a); auto.
    apply IH. intros q x s' E. apply (H q (a :: x)). rewrite E.
    reflexivity.
Qed.

(** A match that goes on passes over [min_count c r] occurrences of [c]
    at least. *)
Lemma m_counts (r : regex) :
  forall (p : option ascii) (s : text) (cp : caps) (k : cont),
  (forall q x s' cp', s = x ++ s' -> min_count c r <= count c x ->
                      k q s' cp' = None) ->
  m f r p s cp k = None.
Proof.
  induction r as [w|cs|cs|cs|a IHa b IHb|a IHa b IHb|a IHa|n a IHa| |a IHa];
    intros p s cp k H; simpl.
  - destruct (lit f w p s) as [[q s']|] eqn:L; auto.
    apply lit_some in L as (w' & E & S & _).
    apply (H q w'); auto. simpl. apply same_count, S.
  - destruct s as [|x s]; auto. destruct (mem f cs x) eqn:M; auto.
    apply (H (Some x) [x]); auto.
    destruct cs; simpl; try lia.
    destruct (eqc c c0) eqn:E; [|lia].
    apply eqc_eq in E. subst c0. simpl in M. apply Hc in M. subst x.
    rewrite count_cons, eqc_refl. lia.
  - apply star_greedy_gone. intros q x s' E. apply (H q x); [auto | simpl; lia].
  - apply star_lazy_gone. intros q x s' E. apply (H q x); [auto | simpl; lia].
  - apply IHa. intros q x s' cp' E Hx.
    apply IHb. intros q2 x2 s2 cp2 E2 Hx2.
    apply (H q2 (x ++ x2)).
    + rewrite E, E2, app_assoc. reflexivity.
    + simpl. rewrite count_app. lia.
  - rewrite IHa, IHb; auto.
    + intros q x s' cp' E Hx. apply (H q x); [auto | simpl; lia].
    + intros q x s' cp' E Hx. apply (H q x); [auto | simpl; lia].
  - rewrite IHa.
    + apply (H p []); [auto | simpl; lia].
    + intros q x s' cp' E Hx. apply (H q x); [auto | simpl; lia].
  - apply IHa. intros q x s' cp' E Hx. apply (H q x); auto.
  - destruct (xorb _ _); auto. apply (H p []); [auto | simpl; lia].
  - destruct (m f a p s cp _); auto. apply (H p []); [auto | simpl; lia].
Qed.

End Counts.

Lemma ends_with (c : ascii) (body u s' : text) :
  body ++ [c] = u ++ s' -> s' <> [] -> exists z, s' = z ++ [c].
Proof.
  intros E Hs. destruct (exists_last Hs) as (z & d & Ez). subst s'.
  rewrite app_assoc in E. apply app_inj_tail in E as [_ E]. subst d.
  eauto.
Qed.

(** Without a character after its second closing parenthesis, a line
    has no match of the full pattern. *)
Lemma fk_parts_need_tail (body : text) :
  count ")" body <= 1 ->
  search IGNORECASE fk_parts_re (body ++ [")"%char]) = None.
Proof.
  intros Hb. apply search_go_dead. intros p x s0 E.
  change (match_at IGNORECASE fk_parts_re p s0)
    with (m IGNORECASE fk_head_re p s0 []
            (fun q s' cp' => m IGNORECASE (Group 5 (Plus CAny)) q s' cp'
                               accept)).
  apply (m_counts IGNORECASE paren_caseless).
  intros q y s' cp' E' Hy.
  change (min_count ")" fk_head_re) with 2 in Hy.
  destruct s' as [|d s']; [reflexivity|]. exfalso.
  rewrite E' in E. rewrite app_assoc in E.
  destruct (ends_with _ _ _ E) as (z & Ez); [discriminate|].
  assert (C : count ")" (body ++ [")"%char]) =
              count ")" ((x ++ y) ++ d :: s')) by (rewrite E; reflexivity).
  rewrite Ez in C. rewrite !(count_app ")") in C.
  change (count ")" [")"%char]) with 1 in C. lia.
Qed.

Lemma key_first (p : option ascii) (c : ascii) (s : text) (cp : caps)
      (k : cont) :
  eq_lit IGNORECASE "K" c = false ->
  m IGNORECASE (cat [Lit (str "KEY"); Plus CSpace; Lit [dq]]) p (c :: s) cp k
  = None.
Proof.
  intros H. unfold cat.
  change (str "KEY") with ("K"%char :: str "EY").
  apply first_letter_none, H.
Qed.

Lemma lower_k (c : ascii) :
  lower c <> "k"%char -> eq_lit IGNORECASE "K" c = false.
Proof.
  intros H. unfold eq_lit, eqc_nocase. simpl.
  destruct (eqc (lower "K") (lower c)) eqn:E; auto.
  apply eqc_eq in E. exfalso. apply H. rewrite <- E. reflexivity.
Qed.

End ScanLineFacts.

Import ScanLineFacts.

(** X10.  A line made of white space, CREATE TABLE in any letter case,
    white space, a name between double quotes and any text opens a table
    and gives the scan that name, whatever the scan knew before. *)
Theorem X10_table_name (st : scan_state) (indent kw ws name rest : text) :
  forallb is_space indent = true ->
  to_lower kw = str "create table" ->
  ws <> [] -> forallb is_space ws = true ->
  name <> [] -> has dq name = false ->
  table_named_by (indent ++ kw ++ ws ++ dq :: name ++ dq :: rest) =
    Some name /\
  track_table st (indent ++ kw ++ ws ++ dq :: name ++ dq :: rest) =
    ScanState (new_lines st) (foreign_keys st) true (Some name).
Proof.
  intros Hi Hk Nw Sw Nn Hn.
  set (body := kw ++ ws ++ dq :: name ++ dq :: rest).
  assert (S : search IGNORECASE create_table_re (indent ++ body) =
              Some (taken body rest, [(1, name)])).
  { unfold search. rewrite search_go_pass.
    - apply search_go_hit. apply create_table_match; auto.
    - apply no_match_in_indent with (a := "C"%char); auto.
      apply create_table_first. }
  assert (O : opens_table (indent ++ body) = true).
  { unfold opens_table, to_upper, body. rewrite !map_app.
    replace (map upper kw) with (str "CREATE TABLE").
    - apply contains_mid.
    - symmetry. apply (to_upper_same kw (str "create table")).
      rewrite Hk. reflexivity. }
  unfold table_named_by, track_table. rewrite S, O. auto.
Qed.

Lemma X10_table_name_witness :
  track_table scan_start (qstr "Create Table  `orders` (") =
  ScanState [] [] true (Some (str "orders")).
Proof.
  destruct (@X10_table_name scan_start [] (str "Create Table") (str "  ")
              (str "orders") (str " ("))
    as [_ H];
    [reflexivity|reflexivity|discriminate|reflexivity|discriminate
    |reflexivity|exact H].
Defined.

(** X11.  Inside a table with a known name, a line made of white space,
    CONSTRAINT, a quoted name, FOREIGN KEY, a column list in
    parentheses, REFERENCES, a quoted table name, a column list in
    parentheses and at least one more character, with white space
    between the parts and the key words in any letter case, is left out
    of the table and gives one record: the table, the two names and the
    two column lists as written, and, as actions, the rest of the line
    (of characters below 128) without the commas at its end and the
    white space around it. *)
Theorem X11_foreign_key_line (st : scan_state)
  (indent kc w1 cname w2 kf w3 cols w4 kr w5 rtable w6 rcols tail : text)
  (table : text) :
  in_create_table st = true -> current_table st = Some table ->
  table <> [] ->
  forallb is_space indent = true ->
  to_lower kc = str "constraint" -> to_lower kf = str "foreign key" ->
  to_lower kr = str "references" ->
  w1 <> [] -> forallb is_space w1 = true ->
  w2 <> [] -> forallb is_space w2 = true ->
  w3 <> [] -> forallb is_space w3 = true ->
  w4 <> [] -> forallb is_space w4 = true ->
  w5 <> [] -> forallb is_space w5 = true ->
  w6 <> [] -> forallb is_space w6 = true ->
  cname <> [] -> has dq cname = false ->
  cols <> [] -> has ")" cols = false ->
  rtable <> [] -> has dq rtable = false ->
  rcols <> [] -> has ")" rcols = false ->
  tail <> [] -> has nl tail = false -> ascii_text tail = true ->
  opens_table
    (indent ++ kc ++ w1 ++ dq :: cname ++ dq :: w2 ++ kf ++ w3 ++
     "("%char :: cols ++ ")"%char :: w4 ++ kr ++ w5 ++
     dq :: rtable ++ dq :: w6 ++ "("%char :: rcols ++ ")"%char :: tail)
  = false ->
  scan_line st
    (indent ++ kc ++ w1 ++ dq :: cname ++ dq :: w2 ++ kf ++ w3 ++
     "("%char :: cols ++ ")"%char :: w4 ++ kr ++ w5 ++
     dq :: rtable ++ dq :: w6 ++ "("%char :: rcols ++ ")"%char :: tail) =
  ScanState (new_lines st)
    (foreign_keys st ++
     [ForeignKey table cname cols rtable rcols
        (strip (rstrip_commas tail))])
    true (Some table).
Proof.
  intros Hin Ht Nt Hi Hc Hf Hr N1 S1 N2 S2 N3 S3 N4 S4 N5 S5 N6 S6
         Ncn Hcn Nco Hco Nrt Hrt Nrc Hrc Ntl Htl _ Ho.
  set (body := kc ++ w1 ++ dq :: cname ++ dq :: w2 ++ kf ++ w3 ++
     "("%char :: cols ++ ")"%char :: w4 ++ kr ++ w5 ++
     dq :: rtable ++ dq :: w6 ++ "("%char :: rcols ++ ")"%char :: tail)
    in *.
  assert (F : is_fk_line (indent ++ body) = true).
  { unfold is_fk_line, found, search. rewrite search_go_pass.
    - erewrite search_go_hit; [reflexivity|].
      apply fk_clause_match; auto.
    - apply no_match_in_indent with (a := "C"%char); auto.
      apply fk_clause_first. }
  assert (P : search IGNORECASE fk_parts_re (indent ++ body) =
              Some (taken body [],
                    [(5, tail); (4, rcols); (3, rtable); (2, cols);
                     (1, cname)])).
  { unfold search. rewrite search_go_pass.
    - apply search_go_hit. apply fk_parts_match; auto.
    - apply no_match_in_indent with (a := "C"%char); auto.
      apply fk_parts_first. }
  unfold scan_line, track_table. rewrite Ho, Hin, F. simpl andb. cbv iota.
  unfold parse_fk. rewrite P, Ht.
  destruct table as [|c table]; [congruence|]. reflexivity.
Qed.

Lemma X11_foreign_key_line_witness :
  scan_line (ScanState [] [] true (Some (str "orders")))
    (qstr "  CONSTRAINT `fk_user` FOREIGN KEY (`user_id`) REFERENCES `users` (`id`) ON DELETE CASCADE,")
  = ScanState [] [ForeignKey (str "orders") (str "fk_user")
                    (qstr "`user_id`") (str "users") (qstr "`id`")
                    (str "ON DELETE CASCADE")]
      true (Some (str "orders")).
Proof.
  apply (@X11_foreign_key_line (ScanState [] [] true (Some (str "orders")))
           (str "  ") (str "CONSTRAINT") (str " ") (str "fk_user") (str " ")
           (str "FOREIGN KEY") (str " ") (qstr "`user_id`") (str " ")
           (str "REFERENCES") (str " ") (str "users") (str " ")
           (qstr "`id`") (str " ON DELETE CASCADE,") (str "orders"));
    try reflexivity; try discriminate.
Defined.

(** X12.  The full pattern of line 127 wants one character at least
    after the second column list.  So a foreign key line that ends with
    the closing parenthesis of its second column list, as the last
    clause of a table without ON DELETE or ON UPDATE does, gives no
    record: inside a table the line is left out and its constraint is
    not written anywhere. *)
Theorem X12_foreign_key_without_tail (st : scan_state) (body : text) :
  count ")" body <= 1 ->
  in_create_table st = true ->
  is_fk_line (body ++ [")"%char]) = true ->
  (forall t, parse_fk t (body ++ [")"%char]) = None) /\
  new_lines (scan_line st (body ++ [")"%char])) = new_lines st /\
  foreign_keys (scan_line st (body ++ [")"%char])) = foreign_keys st.
Proof.
  intros Hb Hin F.
  assert (P : forall t, parse_fk t (body ++ [")"%char]) = None).
  { intros t. unfold parse_fk. rewrite fk_parts_need_tail; auto. }
  split; auto.
  unfold scan_line. rewrite open_after_track, Hin, F, P. simpl.
  unfold track_table. destruct (opens_table _); auto.
Qed.

Lemma X12_foreign_key_without_tail_witness :
  foreign_keys
    (scan_line (ScanState [] [] true (Some (str "orders")))
       (qstr "  CONSTRAINT `fk_user` FOREIGN KEY (`user_id`) REFERENCES `users` (`id`)"))
  = [].
Proof.
  destruct (@X12_foreign_key_without_tail
              (ScanState [] [] true (Some (str "orders")))
              (qstr "  CONSTRAINT `fk_user` FOREIGN KEY (`user_id`) REFERENCES `users` (`id`"))
    as (_ & _ & H); [vm_compute; lia|reflexivity|reflexivity|exact H].
Defined.

(** X13.  The key lines of the scan: a line made of white space, KEY in
    any letter case, white space and a double quote is a key line; a
    line whose first character after the white space is a character
    below 128 other than K and k, as in PRIMARY KEY, UNIQUE KEY or
    FULLTEXT KEY, is not, and neither is a line of white space only. *)
Theorem X13_key_lines (indent kw ws rest : text) (c : ascii) :
  forallb is_space indent = true ->
  (to_lower kw = str "key" -> ws <> [] -> forallb is_space ws = true ->
   is_key_line (indent ++ kw ++ ws ++ dq :: rest) = true) /\
  (is_ascii c = true -> is_space c = false -> lower c <> "k"%char ->
   is_key_line (indent ++ c :: rest) = false) /\
  is_key_line indent = false.
Proof.
  intros Hi. unfold is_key_line, re_match, match_at, key_re.
  change (cat [Star CSpace; Lit (str "KEY"); Plus CSpace; Lit [dq]])
    with (Seq (Star CSpace) (cat [Lit (str "KEY"); Plus CSpace; Lit [dq]])).
  split; [|split].
  - intros Hk Nw Sw.
    assert (M : m IGNORECASE
                  (Seq (Star CSpace)
                     (cat [Lit (str "KEY"); Plus CSpace; Lit [dq]])) None
                  (indent ++ kw ++ ws ++ dq :: rest) [] accept =
                Some (rest, [])).
    { rewrite m_seq. cbn [m]. apply star_greedy_run; auto.
      - spaces_stop Hk.
      - unfold cat. rewrite m_seq. apply m_lit_ok; [keyword Hk|]. cbv beta.
        rewrite m_seq. apply m_plus_run; auto. reflexivity. }
    rewrite M. reflexivity.
  - intros _ Hc Hk. rewrite m_seq. cbn [m].
    rewrite star_greedy_none; auto.
    intros u t ->. destruct t as [|d t].
    + apply key_first, lower_k, Hk.
    + rewrite forallb_app in Hi. apply andb_true_iff in Hi as [_ Hd].
      simpl in Hd. apply andb_true_iff in Hd as [Hd _].
      rewrite <- app_comm_cons. apply key_first.
      destruct (eq_lit IGNORECASE "K" d) eqn:E; auto.
      apply eq_lit_word in E. rewrite (space_not_word _ Hd) in E.
      discriminate E.
  - rewrite m_seq. cbn [m]. rewrite <- (app_nil_r indent).
    rewrite star_greedy_none; auto; [simpl; auto|].
    intros u t ->. destruct t as [|d t]; [reflexivity|].
    rewrite forallb_app in Hi. apply andb_true_iff in Hi as [_ Hd].
    simpl in Hd. apply andb_true_iff in Hd as [Hd _].
    rewrite <- app_comm_cons. apply key_first.
    destruct (eq_lit IGNORECASE "K" d) eqn:E; auto.
    apply eq_lit_word in E. rewrite (space_not_word _ Hd) in E.
    discriminate E.
Qed.

Lemma X13_key_lines_witness :
  is_key_line (qstr "  key  `idx_user` (`user_id`),") = true /\
  is_key_line (qstr "  PRIMARY KEY (`id`),") = false.
Proof.
  destruct (@X13_key_lines (str "  ") (str "key") (str "  ")
              (qstr "idx_user` (`user_id`),") "P"%char)
    as (A & _); [reflexivity|].
  destruct (@X13_key_lines (str "  ") (str "key") (str "  ")
              (qstr "RIMARY KEY (`id`),") "P"%char)
    as (_ & B & _); [reflexivity|].
  split; [apply A; [reflexivity|discriminate|reflexivity]|].
  apply B; [reflexivity|reflexivity|discriminate].
Defined.

(** ** The rules that take statements and comments out *)

Module RemovalFacts.

Lemma contains_skip (w u s : text) :
  contains w (u ++ s) = false -> contains w s = false.
Proof.
  induction u as [|c u IH]; auto. intros H. apply IH.
  apply contains_false_tail with (c := c). exact H.
Qed.

Lemma starts_inside (w x b : text) :
  x <> [] -> starts w (x ++ b) = true ->
  starts w (x ++ firstn (length w - 1) b) = true.
Proof.
  intros Hx H. destruct x as [|d x]; [congruence|].
  destruct w as [|a w]; auto. simpl in *.
  apply andb_true_iff in H as [H1 H2]. rewrite H1. simpl.
  rewrite Nat.sub_0_r. apply starts_firstn; auto.
Qed.

(** [close] does not start inside [body] when [body] is followed by
    [close]. *)
Lemma close_not_inside (close body u t post : text) :
  contains close (body ++ removelast close) = false ->
  body = u ++ t -> t <> [] ->
  starts close (t ++ close ++ post) = false.
Proof.
  intros H -> Ht.
  destruct (starts close (t ++ close ++ post)) eqn:E; auto.
  apply starts_inside in E; auto.
  rewrite <- app_assoc in H. apply contains_skip in H.
  apply contains_false_starts in H.
  replace (firstn (length close - 1) (close ++ post))
    with (removelast close) in E; [congruence|].
  rewrite firstn_app.
  replace (length close - 1 - length close) with 0 by lia.
  rewrite firstn_O, app_nil_r, Nat.sub_1_r. apply removelast_firstn_len.
Qed.

Lemma sub_nil_const (f : flags) (r : regex) : sub f r (const []) [] = [].
Proof.
  unfold sub. simpl. destruct (match_at f r None []) as [[rest cp]|]; auto.
  simpl. destruct (match_nonempty f r None []) as [[rest2 cp2]|]; auto.
Qed.

Section Bracket.

Variable f : flags.
Hypothesis Hcase : ignorecase f = false.
Variables (open close : text).

Let bracket_re : regex := cat [Lit open; StarLazy CAny; Lit close].

Lemma same_exact (w : text) : same f w w = true.
Proof. apply same_norm. reflexivity. Qed.

(** From [open] to the first [close] after it. *)
Lemma bracket_match (body post : text) (p : option ascii) :
  forallb (mem f CAny) body = true ->
  contains close (body ++ removelast close) = false ->
  match_at f bracket_re p (open ++ body ++ close ++ post) = Some (post, []).
Proof.
  intros Hb Hc. unfold match_at, bracket_re, cat. cbn [m].
  rewrite lit_app by apply same_exact.
  apply star_lazy_first with (a := body); auto.
  - rewrite lit_app by apply same_exact. reflexivity.
  - intros u t E Ht. rewrite lit_none; auto.
    rewrite !norm_exact by exact Hcase.
    eapply close_not_inside; eauto.
Qed.

Lemma bracket_needs_open (p : option ascii) (s : text) :
  starts (norm f open) (norm f s) = false ->
  match_at f bracket_re p s = None.
Proof.
  intros H. unfold match_at, bracket_re, cat. cbn [m].
  rewrite lit_none; auto.
Qed.

Lemma bracket_no_match_in (a b : text) (prev : option ascii) :
  contains open (a ++ firstn (length open - 1) b) = false ->
  no_match_in f bracket_re prev a b = true.
Proof.
  intros H. apply no_match_in_starts with (w := open).
  - apply bracket_needs_open.
  - rewrite !norm_exact by exact Hcase. exact H.
Qed.

Lemma bracket_removed (pre body post : text) :
  open <> [] ->
  contains open (pre ++ removelast open) = false ->
  forallb (mem f CAny) body = true ->
  contains close (body ++ removelast close) = false ->
  sub f bracket_re (const []) (pre ++ open ++ body ++ close ++ post) =
  pre ++ sub f bracket_re (const []) post.
Proof.
  intros Ho Hp Hb Hc.
  replace (pre ++ open ++ body ++ close ++ post)
    with (pre ++ (open ++ body ++ close) ++ post)
    by (rewrite <- !app_assoc; reflexivity).
  rewrite sub_first with (cp := @nil (nat * text)).
  - reflexivity.
  - reflexivity.
  - apply bracket_no_match_in.
    replace (firstn (length open - 1) ((open ++ body ++ close) ++ post))
      with (removelast open); auto.
    rewrite <- !app_assoc, firstn_app.
    replace (length open - 1 - length open) with 0 by lia.
    rewrite firstn_O, app_nil_r, Nat.sub_1_r. apply removelast_firstn_len.
  - destruct open; [congruence|discriminate].
  - rewrite <- !app_assoc. apply bracket_match; auto.
Qed.

Lemma bracket_kept (other : text) :
  contains open other = false ->
  sub f bracket_re (const []) other = other.
Proof.
  intros H. rewrite <- (app_nil_r other) at 1. rewrite sub_pass.
  - rewrite sub_nil_const. apply app_nil_r.
  - reflexivity.
  - apply bracket_no_match_in. rewrite firstn_nil, app_nil_r. exact H.
Qed.

End Bracket.

Lemma one_line (body : text) :
  has nl body = false -> forallb (mem no_flags CAny) body = true.
Proof.
  intros H. apply has_in in H. apply forallb_forall. intros x I. simpl.
  apply negb_true_iff. destruct (eqc x nl) eqn:E; auto.
  apply eqc_eq in E. subst x. tauto.
Qed.

Lemma any_text (body : text) : forallb (mem DOTALL CAny) body = true.
Proof. apply forallb_forall. intros x _. reflexivity. Qed.

Lemma unlock_removed (pre post : text) :
  contains (str "UNLOCK TABLES;") (pre ++ str "UNLOCK TABLES") = false ->
  strip_unlock (pre ++ str "UNLOCK TABLES;" ++ post) = pre ++ strip_unlock post.
Proof.
  intros H. unfold strip_unlock.
  rewrite sub_first with (cp := @nil (nat * text)).
  - reflexivity.
  - reflexivity.
  - apply no_match_in_starts with (w := str "UNLOCK TABLES;").
    + intros p s Hs. unfold match_at, unlock_re. cbn [m].
      rewrite lit_none; auto.
    + rewrite !norm_exact by reflexivity. exact H.
  - discriminate.
  - unfold match_at, unlock_re. cbn [m]. rewrite lit_app; reflexivity.
Qed.

(** A conditional comment, from its opening to the first closing after
    it, with the semicolon that may follow. *)
Lemma comment_match (body post : text) (semi : bool) (p : option ascii) :
  contains (str "*/") (body ++ str "*") = false ->
  (semi = false -> head_is (eqc ";"%char) post = false) ->
  match_at DOTALL mysql_comment_re p
    (str "/*!" ++ body ++ str "*/" ++ (if semi then str ";" else []) ++ post)
  = Some (post, []).
Proof.
  intros Hb Hs. unfold match_at, mysql_comment_re, cat.
  rewrite m_seq. apply m_lit_ok; [reflexivity|]. cbv beta.
  set (p1 := last_of (str "/*!") p).
  destruct (lstrip_split (mem DOTALL (COr CDigit CSpace)) body)
    as (A & E & HA).
  pose proof (lstrip_head (mem DOTALL (COr CDigit CSpace)) body) as HB.
  set (B := lstrip_by (mem DOTALL (COr CDigit CSpace)) body) in *.
  rewrite E, <- app_assoc. rewrite m_seq. cbn [m].
  apply star_greedy_run; auto.
  - destruct B as [|b B']; [reflexivity|exact HB].
  - apply star_lazy_first with (a := B).
    + apply any_text.
    + rewrite lit_app by reflexivity.
      destruct semi.
      * change (str ";" ++ post) with (";"%char :: post). cbn [lit].
        reflexivity.
      * specialize (Hs eq_refl). destruct post as [|c post]; [reflexivity|].
        simpl in Hs. change (str ";") with [";"%char]. cbn [app lit].
        change (eq_lit DOTALL ";" c) with (eqc ";" c).
        rewrite Hs. reflexivity.
    + intros u t Eu Ht. rewrite lit_none; auto.
      rewrite !norm_exact by reflexivity.
      apply close_not_inside with (body := B) (u := u); auto.
      rewrite E, <- app_assoc in Hb. apply contains_skip in Hb. exact Hb.
Qed.

Lemma comment_needs_open (p : option ascii) (s : text) :
  starts (norm DOTALL (str "/*!")) (norm DOTALL s) = false ->
  match_at DOTALL mysql_comment_re p s = None.
Proof.
  intros H. unfold match_at, mysql_comment_re, cat. cbn [m].
  rewrite lit_none; auto.
Qed.

End RemovalFacts.

Import RemovalFacts.

(** X14.  Line 17 takes a conditional comment out: from the leftmost
    [/*!] to the first [*/] after it, over line feeds too, with the
    semicolon right after it if there is one; the text before stays and
    the text after is treated in the same way.  A dump without [/*!] is
    not changed. *)
Theorem X14_conditional_comments (pre body post other : text) (semi : bool) :
  contains (str "/*!") (pre ++ str "/*") = false ->
  contains (str "*/") (body ++ str "*") = false ->
  (semi = false -> head_is (eqc ";"%char) post = false) ->
  contains (str "/*!") other = false ->
  strip_mysql_comments
    (pre ++ str "/*!" ++ body ++ str "*/" ++
     (if semi then str ";" else []) ++ post) =
    pre ++ strip_mysql_comments post /\
  strip_mysql_comments other = other.
Proof.
  intros Hp Hb Hs Ho. unfold strip_mysql_comments. split.
  - replace (pre ++ str "/*!" ++ body ++ str "*/" ++
             (if semi then str ";" else []) ++ post)
      with (pre ++ (str "/*!" ++ body ++ str "*/" ++
                    (if semi then str ";" else [])) ++ post)
      by (rewrite <- !app_assoc; reflexivity).
    rewrite sub_first with (cp := @nil (nat * text)).
    + reflexivity.
    + reflexivity.
    + apply no_match_in_starts with (w := str "/*!").
      * apply comment_needs_open.
      * rewrite !norm_exact by reflexivity. exact Hp.
    + discriminate.
    + rewrite <- !app_assoc. apply comment_match; auto.
  - rewrite <- (app_nil_r other) at 1. rewrite sub_pass.
    + apply app_nil_r.
    + reflexivity.
    + apply no_match_in_starts with (w := str "/*!").
      * apply comment_needs_open.
      * rewrite !norm_exact by reflexivity. simpl. rewrite app_nil_r.
        exact Ho.
Qed.

Lemma X14_conditional_comments_witness :
  strip_mysql_comments
    (str "-- dump" ++ [nl] ++
     str "/*!40101 SET NAMES utf8 */;" ++ [nl] ++ str "CREATE") =
  str "-- dump" ++ [nl] ++ [nl] ++ str "CREATE".
Proof.
  destruct (@X14_conditional_comments (str "-- dump" ++ [nl])
              (str "40101 SET NAMES utf8 ") ([nl] ++ str "CREATE")
              ([nl] ++ str "CREATE") true)
    as [A B]; [reflexivity|reflexivity|discriminate|reflexivity|].
  rewrite <- B at 2. rewrite <- !app_assoc in *. exact A.
Defined.

(** X15.  Lines 20, 21, 37 and 38 take out, in the letter case of the
    pattern only, a statement that begins with [SET @OLD_] or
    [SET @saved_] up to the first semicolon on the same line, a
    statement LOCK TABLES up to the first [` WRITE;] on the same line,
    and UNLOCK TABLES with its semicolon; the text before stays and the
    text after is treated in the same way.  A dump without the opening
    words is not changed. *)
Theorem X15_session_statements (pre body post other : text) :
  has nl body = false ->
  (contains (str "SET @OLD_") (pre ++ str "SET @OLD") = false ->
   contains (str ";") body = false ->
   strip_set_old (pre ++ str "SET @OLD_" ++ body ++ str ";" ++ post) =
     pre ++ strip_set_old post) /\
  (contains (str "SET @saved_") (pre ++ str "SET @saved") = false ->
   contains (str ";") body = false ->
   strip_set_saved (pre ++ str "SET @saved_" ++ body ++ str ";" ++ post) =
     pre ++ strip_set_saved post) /\
  (contains (str "LOCK TABLES `") (pre ++ str "LOCK TABLES ") = false ->
   contains (str "` WRITE;") (body ++ str "` WRITE") = false ->
   strip_lock (pre ++ str "LOCK TABLES `" ++ body ++ str "` WRITE;" ++ post) =
     pre ++ strip_lock post) /\
  (contains (str "UNLOCK TABLES;") (pre ++ str "UNLOCK TABLES") = false ->
   strip_unlock (pre ++ str "UNLOCK TABLES;" ++ post) =
     pre ++ strip_unlock post) /\
  (contains (str "SET @OLD_") other = false -> strip_set_old other = other) /\
  (contains (str "SET @saved_") other = false ->
   strip_set_saved other = other) /\
  (contains (str "LOCK TABLES `") other = false -> strip_lock other = other).
Proof.
  intros Hl. apply one_line in Hl.
  repeat split.
  - intros Hp Hb.
    apply (@bracket_removed no_flags eq_refl (str "SET @OLD_") (str ";"));
      [discriminate|exact Hp|exact Hl|].
    change (removelast (str ";")) with (@nil ascii).
    rewrite app_nil_r. exact Hb.
  - intros Hp Hb.
    apply (@bracket_removed no_flags eq_refl (str "SET @saved_") (str ";"));
      [discriminate|exact Hp|exact Hl|].
    change (removelast (str ";")) with (@nil ascii).
    rewrite app_nil_r. exact Hb.
  - intros Hp Hb.
    apply (@bracket_removed no_flags eq_refl (str "LOCK TABLES `")
             (str "` WRITE;")); [discriminate|exact Hp|exact Hl|exact Hb].
  - apply unlock_removed.
  - apply (@bracket_kept no_flags eq_refl (str "SET @OLD_") (str ";")).
  - apply (@bracket_kept no_flags eq_refl (str "SET @saved_") (str ";")).
  - apply (@bracket_kept no_flags eq_refl (str "LOCK TABLES `")
             (str "` WRITE;")).
Qed.

Lemma X15_session_statements_witness :
  strip_lock (str "LOCK TABLES `t` WRITE;" ++ [nl] ++ str "INSERT") =
  [nl] ++ str "INSERT".
Proof.
  destruct (@X15_session_statements [] (str "t") ([nl] ++ str "INSERT")
              ([nl] ++ str "INSERT"))
    as (_ & _ & A & _ & _ & _ & B); [reflexivity|].
  rewrite <- B at 2; [|reflexivity].
  apply A; reflexivity.
Defined.

(** ** The rules on table and column options *)

Module OptionFacts.

Ltac keyword H := apply same_nocase; rewrite H; reflexivity.

Lemma word_not_space (c : ascii) : is_word c = true -> is_space c = false.
Proof. all_chars c. Qed.

Lemma digit_not_space (c : ascii) : is_digit c = true -> is_space c = false.
Proof. all_chars c. Qed.

Lemma stops_value (p : ascii -> bool) (value post : text) :
  (forall c, p c = true -> is_space c = false) ->
  value <> [] -> forallb p value = true ->
  stops (mem IGNORECASE CSpace) (value ++ post).
Proof.
  intros Hp Hn Hv. destruct value as [|c value]; [congruence|].
  simpl in *. apply andb_true_iff in Hv as [Hc _]. apply Hp, Hc.
Qed.

Lemma m_star (f : flags) (cs : cset) (p : option ascii) (s : text)
      (cp : caps) (k : cont) :
  m f (Star cs) p s cp k =
  star_greedy (mem f cs) p s (fun p' s' => k p' s' cp).
Proof. reflexivity. Qed.

(** An option written as a name, an equals sign and a value, with the
    white space before it. *)
Lemma option_match (name : text) (cls : cset) (l : ascii) (ls : text)
      (ws0 kw ws1 ws2 value post : text) (p : option ascii) :
  to_lower name = l :: ls -> is_lower l = true ->
  (forall c, mem IGNORECASE cls c = true -> is_space c = false) ->
  to_lower kw = to_lower name ->
  forallb is_space ws0 = true -> forallb is_space ws1 = true ->
  forallb is_space ws2 = true ->
  value <> [] -> forallb (mem IGNORECASE cls) value = true ->
  stops (mem IGNORECASE cls) post ->
  match_at IGNORECASE
    (cat [Star CSpace; Lit name; Star CSpace; Lit (str "="); Star CSpace;
          Plus cls]) p
    (ws0 ++ kw ++ ws1 ++ str "=" ++ ws2 ++ value ++ post) = Some (post, []).
Proof.
  intros Hname Hl Hcls Hk S0 S1 S2 Nv Hv Hpost.
  unfold match_at, cat.
  rewrite m_seq, m_star. apply star_greedy_run; auto.
  { eapply stops_keyword; [rewrite Hk; exact Hname | exact Hl]. }
  rewrite m_seq. apply m_lit_ok; [apply same_nocase; exact Hk|]. cbv beta.
  rewrite m_seq, m_star. apply star_greedy_run; auto; [reflexivity|].
  rewrite m_seq. apply m_lit_ok; [reflexivity|]. cbv beta.
  rewrite m_seq, m_star. apply star_greedy_run; auto.
  { eapply stops_value; eauto. }
  apply m_plus_run; auto.
Qed.

(** A column option written as a name and a value, with white space
    before each. *)
Lemma column_option_match (name : text) (l : ascii) (ls : text)
      (ws0 kw ws1 value post : text) (p : option ascii) :
  to_lower name = l :: ls -> is_lower l = true ->
  to_lower kw = to_lower name ->
  ws0 <> [] -> forallb is_space ws0 = true ->
  ws1 <> [] -> forallb is_space ws1 = true ->
  value <> [] -> forallb is_word value = true ->
  head_is is_word post = false ->
  match_at IGNORECASE (column_option_re name) p
    (ws0 ++ kw ++ ws1 ++ value ++ post) = Some (post, []).
Proof.
  intros Hname Hl Hk N0 S0 N1 S1 Nv Hv Hpost.
  unfold match_at, column_option_re, cat.
  rewrite m_seq. apply m_plus_run; auto.
  { eapply stops_keyword; [rewrite Hk; exact Hname | exact Hl]. }
  cbv beta.
  rewrite m_seq. apply m_lit_ok; [apply same_nocase; exact Hk|]. cbv beta.
  rewrite m_seq. apply m_plus_run; auto.
  { eapply stops_value with (p := is_word); eauto. apply word_not_space. }
  cbv beta. apply m_plus_run; auto. apply stops_head. exact Hpost.
Qed.

Lemma option_nonempty (ws0 kw x : text) (name : text) :
  to_lower kw = to_lower name -> name <> [] -> (ws0 ++ kw ++ x) <> [].
Proof.
  intros H Hn E. apply app_eq_nil in E as [_ E].
  apply app_eq_nil in E as [E _]. subst kw. destruct name; [congruence|].
  discriminate H.
Qed.

End OptionFacts.

Import OptionFacts.

(** X16.  Lines 44, 47, 48 and 56 take a table option out together with
    the white space before it: the name ENGINE, DEFAULT CHARSET or
    COLLATE in any letter case, an equals sign with or without white
    space around it, and a value of letters, digits and underscores; or
    AUTO_INCREMENT, an equals sign and a number.  When no match starts
    in the text before the option, that text stays and the text after
    the option is treated in the same way; the texts before and after
    are of characters below 128. *)
Theorem X16_table_options (pre ws0 kw ws1 ws2 value post : text) :
  ascii_text (pre ++ post) = true ->
  forallb is_space ws0 = true -> forallb is_space ws1 = true ->
  forallb is_space ws2 = true -> value <> [] ->
  let option := ws0 ++ kw ++ ws1 ++ str "=" ++ ws2 ++ value in
  (to_lower kw = str "engine" ->
   forallb is_word value = true -> head_is is_word post = false ->
   no_match_in IGNORECASE (table_option_re (str "ENGINE")) None pre
     (option ++ post) = true ->
   strip_engine (pre ++ option ++ post) = pre ++ strip_engine post) /\
  (to_lower kw = str "default charset" ->
   forallb is_word value = true -> head_is is_word post = false ->
   no_match_in IGNORECASE (table_option_re (str "DEFAULT CHARSET")) None pre
     (option ++ post) = true ->
   strip_default_charset (pre ++ option ++ post) =
     pre ++ strip_default_charset post) /\
  (to_lower kw = str "collate" ->
   forallb is_word value = true -> head_is is_word post = false ->
   no_match_in IGNORECASE (table_option_re (str "COLLATE")) None pre
     (option ++ post) = true ->
   strip_collate_option (pre ++ option ++ post) =
     pre ++ strip_collate_option post) /\
  (to_lower kw = str "auto_increment" ->
   forallb is_digit value = true -> head_is is_digit post = false ->
   no_match_in IGNORECASE auto_increment_option_re None pre
     (option ++ post) = true ->
   strip_auto_increment_option (pre ++ option ++ post) =
     pre ++ strip_auto_increment_option post).
Proof.
  intros _ S0 S1 S2 Nv option.
  assert (Ne : forall name, to_lower kw = to_lower name -> name <> [] ->
                            option <> []).
  { intros name H Hn. unfold option. eapply option_nonempty; eauto. }
  assert (E : forall x, option ++ x =
                ws0 ++ kw ++ ws1 ++ str "=" ++ ws2 ++ value ++ x)
    by (intros x; unfold option; rewrite <- !app_assoc; reflexivity).
  repeat split; intros Hk Hv Hp Hpre.
  - unfold strip_engine.
    rewrite sub_first with (cp := @nil (nat * text)); auto.
    + apply (Ne (str "ENGINE")); [rewrite Hk; reflexivity|discriminate].
    + rewrite E.
      apply (@option_match (str "ENGINE") CWord "e" (str "ngine"));
        auto; try reflexivity;
        first [ apply word_not_space | apply stops_head, Hp | rewrite Hk; reflexivity ].
  - unfold strip_default_charset.
    rewrite sub_first with (cp := @nil (nat * text)); auto.
    + apply (Ne (str "DEFAULT CHARSET"));
        [rewrite Hk; reflexivity|discriminate].
    + rewrite E.
      apply (@option_match (str "DEFAULT CHARSET") CWord "d"
               (str "efault charset")); auto; try reflexivity;
        first [ apply word_not_space | apply stops_head, Hp
              | rewrite Hk; reflexivity ].
  - unfold strip_collate_option.
    rewrite sub_first with (cp := @nil (nat * text)); auto.
    + apply (Ne (str "COLLATE")); [rewrite Hk; reflexivity|discriminate].
    + rewrite E.
      apply (@option_match (str "COLLATE") CWord "c" (str "ollate"));
        auto; try reflexivity;
        first [ apply word_not_space | apply stops_head, Hp | rewrite Hk; reflexivity ].
  - unfold strip_auto_increment_option.
    rewrite sub_first with (cp := @nil (nat * text)); auto.
    + apply (Ne (str "AUTO_INCREMENT"));
        [rewrite Hk; reflexivity|discriminate].
    + rewrite E.
      apply (@option_match (str "AUTO_INCREMENT") CDigit "a"
               (str "uto_increment")); auto; try reflexivity;
        first [ apply digit_not_space | apply stops_head, Hp
              | rewrite Hk; reflexivity ].
Qed.

Lemma X16_table_options_witness :
  strip_engine (str ") ENGINE = InnoDB;") = str ");" /\
  strip_auto_increment_option (str ") auto_increment=42 x") = str ") x".
Proof.
  split.
  - destruct (@X16_table_options (str ")") (str " ") (str "ENGINE") (str " ")
                (str " ") (str "InnoDB") (str ";"))
      as (A & _);
      [reflexivity|reflexivity|reflexivity|reflexivity|discriminate|].
    apply A; reflexivity.
  - destruct (@X16_table_options (str ")") (str " ") (str "auto_increment")
                [] [] (str "42") (str " x"))
      as (_ & _ & _ & A);
      [reflexivity|reflexivity|reflexivity|reflexivity|discriminate|].
    apply A; reflexivity.
Defined.

(** X17.  Lines 51 and 52 take a column option out together with the
    white space before it: CHARACTER SET or COLLATE in any letter case,
    with white space before it, then white space and a value of letters,
    digits and underscores.  When no match starts in the text before
    the option, that text stays and the text after the option is
    treated in the same way; the texts before and after are of
    characters below 128. *)
Theorem X17_column_options (pre ws0 kw ws1 value post : text) :
  ascii_text (pre ++ post) = true ->
  ws0 <> [] -> forallb is_space ws0 = true ->
  ws1 <> [] -> forallb is_space ws1 = true ->
  value <> [] -> forallb is_word value = true ->
  head_is is_word post = false ->
  let option := ws0 ++ kw ++ ws1 ++ value in
  (to_lower kw = str "character set" ->
   no_match_in IGNORECASE (column_option_re (str "CHARACTER SET")) None pre
     (option ++ post) = true ->
   strip_character_set (pre ++ option ++ post) =
     pre ++ strip_character_set post) /\
  (to_lower kw = str "collate" ->
   no_match_in IGNORECASE (column_option_re (str "COLLATE")) None pre
     (option ++ post) = true ->
   strip_collate (pre ++ option ++ post) = pre ++ strip_collate post).
Proof.
  intros _ N0 S0 N1 S1 Nv Hv Hp option.
  assert (Ne : option <> []).
  { unfold option. destruct ws0; [congruence|discriminate]. }
  assert (E : forall x, option ++ x = ws0 ++ kw ++ ws1 ++ value ++ x)
    by (intros x; unfold option; rewrite <- !app_assoc; reflexivity).
  split; intros Hk Hpre.
  - unfold strip_character_set.
    rewrite sub_first with (cp := @nil (nat * text)); auto.
    rewrite E.
    apply (@column_option_match (str "CHARACTER SET") "c"
             (str "haracter set")); auto; try reflexivity;
      rewrite Hk; reflexivity.
  - unfold strip_collate.
    rewrite sub_first with (cp := @nil (nat * text)); auto.
    rewrite E.
    apply (@column_option_match (str "COLLATE") "c" (str "ollate"));
      auto; try reflexivity; rewrite Hk; reflexivity.
Qed.

Lemma X17_column_options_witness :
  strip_collate (qstr "`name` VARCHAR(20) COLLATE utf8mb4_bin NOT NULL") =
  qstr "`name` VARCHAR(20) NOT NULL".
Proof.
  destruct (@X17_column_options (qstr "`name` VARCHAR(20)") (str " ")
              (str "COLLATE") (str " ") (str "utf8mb4_bin")
              (str " NOT NULL"))
    as (_ & A);
    [reflexivity|discriminate|reflexivity|discriminate|reflexivity
    |discriminate|reflexivity|reflexivity|].
  apply A; reflexivity.
Defined.

(** ** The rule on ON UPDATE *)

Module OnUpdateFacts.

Ltac keyword H := apply same_nocase; rewrite H; reflexivity.
Ltac spaces_stop H :=
  eapply stops_keyword; [rewrite H; reflexivity | reflexivity].

(** The default of a timestamp column followed by ON UPDATE
    CURRENT_TIMESTAMP is one match, with the default in group 1. *)
Lemma on_update_match
      (kt w1 kn w2 ku w3 kd w4 kc w5 ko w6 kp w7 kc2 post : text)
      (p : option ascii) :
  to_lower kt = str "timestamp" -> to_lower kn = str "not" ->
  to_lower ku = str "null" -> to_lower kd = str "default" ->
  to_lower kc = str "current_timestamp" -> to_lower ko = str "on" ->
  to_lower kp = str "update" -> to_lower kc2 = str "current_timestamp" ->
  w1 <> [] -> forallb is_space w1 = true ->
  w2 <> [] -> forallb is_space w2 = true ->
  w3 <> [] -> forallb is_space w3 = true ->
  w4 <> [] -> forallb is_space w4 = true ->
  w5 <> [] -> forallb is_space w5 = true ->
  w6 <> [] -> forallb is_space w6 = true ->
  w7 <> [] -> forallb is_space w7 = true ->
  match_at IGNORECASE on_update_re p
    ((kt ++ w1 ++ kn ++ w2 ++ ku ++ w3 ++ kd ++ w4 ++ kc) ++
     (w5 ++ ko ++ w6 ++ kp ++ w7 ++ kc2) ++ post) =
  Some (post, [(1, kt ++ w1 ++ kn ++ w2 ++ ku ++ w3 ++ kd ++ w4 ++ kc)]).
Proof.
  intros Ht Hn Hu Hd Hc Ho Hp Hc2 N1 S1 N2 S2 N3 S3 N4 S4 N5 S5 N6 S6 N7 S7.
  unfold match_at, on_update_re.
  set (rest := (w5 ++ ko ++ w6 ++ kp ++ w7 ++ kc2) ++ post).
  set (whole := (kt ++ w1 ++ kn ++ w2 ++ ku ++ w3 ++ kd ++ w4 ++ kc) ++ rest).
  assert (T : taken whole rest =
              kt ++ w1 ++ kn ++ w2 ++ ku ++ w3 ++ kd ++ w4 ++ kc)
    by apply taken_app.
  unfold cat at 1. rewrite m_seq, m_group.
  match goal with |- m _ _ _ _ _ ?k0 = _ => set (k := k0) end.
  unfold whole. rewrite <- !app_assoc. unfold cat at 1.
  rewrite m_seq. apply m_lit_ok; [keyword Ht|]. cbv beta.
  rewrite m_seq. apply m_plus_run; auto; [spaces_stop Hn|]. cbv beta.
  rewrite m_seq. apply m_lit_ok; [keyword Hn|]. cbv beta.
  rewrite m_seq. apply m_plus_run; auto; [spaces_stop Hu|]. cbv beta.
  rewrite m_seq. apply m_lit_ok; [keyword Hu|]. cbv beta.
  rewrite m_seq. apply m_plus_run; auto; [spaces_stop Hd|]. cbv beta.
  rewrite m_seq. apply m_lit_ok; [keyword Hd|]. cbv beta.
  rewrite m_seq. apply m_plus_run; auto; [spaces_stop Hc|]. cbv beta.
  apply m_lit_ok; [keyword Hc|]. unfold k. cbv beta. rewrite T.
  unfold rest. rewrite <- !app_assoc.
  rewrite m_seq. apply m_plus_run; auto; [spaces_stop Ho|]. cbv beta.
  rewrite m_seq. apply m_lit_ok; [keyword Ho|]. cbv beta.
  rewrite m_seq. apply m_plus_run; auto; [spaces_stop Hp|]. cbv beta.
  rewrite m_seq. apply m_lit_ok; [keyword Hp|]. cbv beta.
  rewrite m_seq. apply m_plus_run; auto; [spaces_stop Hc2|]. cbv beta.
  apply m_lit_ok; [keyword Hc2|]. reflexivity.
Qed.

End OnUpdateFacts.

Import OnUpdateFacts.

(** X18.  Lines 95 to 100 keep the default of a timestamp column and
    take the ON UPDATE CURRENT_TIMESTAMP after it out, with the white
    space before it: for TIMESTAMP NOT NULL DEFAULT CURRENT_TIMESTAMP ON
    UPDATE CURRENT_TIMESTAMP with white space between the words, in any
    letter case.  When no match starts in the text before, that text
    stays and the text after is treated in the same way; the texts
    before and after are of characters below 128. *)
Theorem X18_on_update
  (pre kt w1 kn w2 ku w3 kd w4 kc w5 ko w6 kp w7 kc2 post : text) :
  ascii_text (pre ++ post) = true ->
  to_lower kt = str "timestamp" -> to_lower kn = str "not" ->
  to_lower ku = str "null" -> to_lower kd = str "default" ->
  to_lower kc = str "current_timestamp" -> to_lower ko = str "on" ->
  to_lower kp = str "update" -> to_lower kc2 = str "current_timestamp" ->
  w1 <> [] -> forallb is_space w1 = true ->
  w2 <> [] -> forallb is_space w2 = true ->
  w3 <> [] -> forallb is_space w3 = true ->
  w4 <> [] -> forallb is_space w4 = true ->
  w5 <> [] -> forallb is_space w5 = true ->
  w6 <> [] -> forallb is_space w6 = true ->
  w7 <> [] -> forallb is_space w7 = true ->
  let default := kt ++ w1 ++ kn ++ w2 ++ ku ++ w3 ++ kd ++ w4 ++ kc in
  let on_update := w5 ++ ko ++ w6 ++ kp ++ w7 ++ kc2 in
  no_match_in IGNORECASE on_update_re None pre
    ((default ++ on_update) ++ post) = true ->
  strip_on_update (pre ++ (default ++ on_update) ++ post) =
    pre ++ default ++ strip_on_update post.
Proof.
  intros _ Ht Hn Hu Hd Hc Ho Hp Hc2 N1 S1 N2 S2 N3 S3 N4 S4 N5 S5 N6 S6 N7
         S7 default on_update Hpre.
  unfold strip_on_update.
  rewrite sub_first with (cp := [(1, default)]); auto.
  - unfold group1_then. simpl group. rewrite app_nil_r. reflexivity.
  - unfold default. destruct kt; [discriminate Ht|discriminate].
  - rewrite <- app_assoc. apply on_update_match; auto.
Qed.

Lemma X18_on_update_witness :
  strip_on_update
    (qstr "`t` timestamp NOT NULL DEFAULT CURRENT_TIMESTAMP ON UPDATE CURRENT_TIMESTAMP,")
  = qstr "`t` timestamp NOT NULL DEFAULT CURRENT_TIMESTAMP,".
Proof.
  apply (@X18_on_update (qstr "`t` ") (str "timestamp") (str " ")
           (str "NOT") (str " ") (str "NULL") (str " ") (str "DEFAULT")
           (str " ") (str "CURRENT_TIMESTAMP") (str " ") (str "ON") (str " ")
           (str "UPDATE") (str " ") (str "CURRENT_TIMESTAMP") (str ","));
    try reflexivity; discriminate.
Defined.

(** ** The rule on DISABLE KEYS and ENABLE KEYS *)

Module KeysFacts.

Lemma one_line_nocase (body : text) :
  has nl body = false -> forallb (mem IGNORECASE CAny) body = true.
Proof.
  intros H. apply has_in in H. apply forallb_forall. intros x I. simpl.
  apply negb_true_iff. destruct (eqc x nl) eqn:E; auto.
  apply eqc_eq in E. subst x. tauto.
Qed.

Lemma semicolon_here (post : text) (semi : bool) (p : option ascii) :
  (semi = false -> head_is (eqc ";"%char) post = false) ->
  m IGNORECASE (Opt (Lit (str ";"))) p
    ((if semi then str ";" else []) ++ post) [] accept = Some (post, []).
Proof.
  intros Hs. destruct semi.
  - apply m_opt_some. apply m_lit_ok; reflexivity.
  - specialize (Hs eq_refl). rewrite m_opt_none; [reflexivity|].
    destruct post as [|c post]; [reflexivity|]. simpl in Hs.
    change (str ";") with [";"%char]. cbn [app m lit].
    change (eq_lit IGNORECASE ";" c) with (eqc (lower ";") (lower c)).
    destruct (eqc (lower ";") (lower c)) eqn:E; auto.
    apply eqc_eq in E. assert (c = ";"%char) by (revert E; all_chars c).
    subst c. discriminate Hs.
Qed.

(** ALTER TABLE, a quoted name and the key words [which]. *)
Lemma keys_match (which kw name kd post : text) (semi : bool)
      (p : option ascii) :
  to_lower kw = to_lower (qstr "ALTER TABLE `") ->
  to_lower kd = to_lower which ->
  has nl name = false -> has dq name = false ->
  (semi = false -> head_is (eqc ";"%char) post = false) ->
  match_at IGNORECASE (keys_re which) p
    (kw ++ name ++ dq :: kd ++ (if semi then str ";" else []) ++ post) =
  Some (post, []).
Proof.
  intros Hk Hd Hl Hq Hs. unfold match_at, keys_re, cat.
  rewrite m_seq. apply m_lit_ok; [apply same_nocase, Hk|]. cbv beta.
  rewrite m_seq. cbn [m].
  apply star_lazy_first with (a := name).
  - apply one_line_nocase, Hl.
  - change (dq :: kd ++ ?x) with ([dq] ++ kd ++ x).
    rewrite lit_app by reflexivity.
    rewrite lit_app by (apply same_nocase, Hd).
    apply semicolon_here, Hs.
  - intros u t -> Ht. destruct t as [|d t]; [congruence|].
    apply has_in in Hq.
    assert (Hd' : eq_lit IGNORECASE dq d = false).
    { destruct (eq_lit IGNORECASE dq d) eqn:E; auto.
      apply dq_caseless in E. subst d. exfalso. apply Hq.
      apply in_or_app. right. left. reflexivity. }
    rewrite <- app_comm_cons. cbn [lit]. rewrite Hd'. reflexivity.
Qed.

End KeysFacts.

Import KeysFacts.

(** X19.  Lines 174 and 175 take out ALTER TABLE with a quoted name on
    one line followed by DISABLE KEYS or ENABLE KEYS, in any letter
    case, and the semicolon right after it if there is one.  When no
    match starts in the text before, that text stays and the text after
    is treated in the same way; the name and the texts before and after
    are of characters below 128. *)
Theorem X19_disable_enable_keys (pre kw name kd post : text) (semi : bool) :
  ascii_text (pre ++ name ++ post) = true ->
  to_lower kw = to_lower (qstr "ALTER TABLE `") ->
  has nl name = false -> has dq name = false ->
  (semi = false -> head_is (eqc ";"%char) post = false) ->
  let stmt := kw ++ name ++ dq :: kd ++ (if semi then str ";" else []) in
  (to_lower kd = str " disable keys" ->
   no_match_in IGNORECASE (keys_re (str " DISABLE KEYS")) None pre
     (stmt ++ post) = true ->
   strip_disable_keys (pre ++ stmt ++ post) = pre ++ strip_disable_keys post)
  /\
  (to_lower kd = str " enable keys" ->
   no_match_in IGNORECASE (keys_re (str " ENABLE KEYS")) None pre
     (stmt ++ post) = true ->
   strip_enable_keys (pre ++ stmt ++ post) = pre ++ strip_enable_keys post).
Proof.
  intros _ Hk Hl Hq Hs stmt.
  assert (Ne : stmt <> []).
  { unfold stmt. destruct kw; [discriminate Hk|discriminate]. }
  assert (E : stmt ++ post =
              kw ++ name ++ dq :: kd ++ (if semi then str ";" else []) ++ post).
  { unfold stmt. rewrite <- !app_assoc. simpl. rewrite <- !app_assoc.
    reflexivity. }
  split; intros Hd Hpre.
  - unfold strip_disable_keys.
    rewrite sub_first with (cp := @nil (nat * text)); auto.
    rewrite E. apply keys_match; auto; rewrite Hd; reflexivity.
  - unfold strip_enable_keys.
    rewrite sub_first with (cp := @nil (nat * text)); auto.
    rewrite E. apply keys_match; auto; rewrite Hd; reflexivity.
Qed.

Lemma X19_disable_enable_keys_witness :
  strip_disable_keys (qstr "-- x ALTER TABLE `t` Disable Keys; y") =
  str "-- x  y".
Proof.
  destruct (@X19_disable_enable_keys (str "-- x ") (qstr "ALTER TABLE `")
              (str "t") (str " Disable Keys") (str " y") true)
    as (A & _);
    [reflexivity|reflexivity|reflexivity|reflexivity|discriminate|].
  apply A; reflexivity.
Defined.

(** ** Claim on the block of foreign keys *)

Module FrameFacts.

Lemma taken_framed (s rest t : text) :
  taken (s ++ t) (rest ++ t) = taken s rest.
Proof.
  unfold taken. rewrite !length_app.
  replace (length s + length t - (length rest + length t))
    with (length s - length rest) by lia.
  rewrite firstn_app.
  replace (length s - length rest - length s) with 0 by lia.
  rewrite firstn_O. apply app_nil_r.
Qed.

Lemma taken_length (s rest : text) : length (taken s rest) <= length s.
Proof. unfold taken. rewrite length_firstn. lia. Qed.

Section Frame.

Variable f : flags.
Variable c : ascii.
Variable t : text.

Lemma lit_framed (w : text) (p : option ascii) (s : text) :
  forallb (fun a => negb (eq_lit f a c)) w = true ->
  lit f w p (s ++ c :: t) =
  match lit f w p s with
  | Some (q, s') => Some (q, s' ++ c :: t)
  | None => None
  end.
Proof.
  revert p s; induction w as [|a w IH]; intros p s H; simpl; auto.
  simpl in H. apply andb_true_iff in H as [Ha Hw].
  apply negb_true_iff in Ha. destruct s as [|x s]; simpl.
  - rewrite Ha. reflexivity.
  - destruct (eq_lit f a x); auto.
Qed.

Lemma star_greedy_framed (pr : ascii -> bool) (s : text)
      (prev : option ascii) (k k' : option ascii -> text -> result) :
  pr c = false ->
  (forall q s', k' q (s' ++ c :: t) = followed_by (c :: t) (k q s')) ->
  star_greedy pr prev (s ++ c :: t) k' =
  followed_by (c :: t) (star_greedy pr prev s k).
Proof.
  intros Hc Hk. revert prev; induction s as [|x s IH]; intros prev; simpl.
  - rewrite Hc. apply (Hk prev []).
  - destruct (pr x); [|apply (Hk prev (x :: s))].
    rewrite IH. destruct (star_greedy pr (Some x) s k) as [[rest cp]|];
      simpl; auto.
    apply (Hk prev (x :: s)).
Qed.

Lemma star_lazy_framed (pr : ascii -> bool) (s : text)
      (prev : option ascii) (k k' : option ascii -> text -> result) :
  pr c = false ->
  (forall q s', k' q (s' ++ c :: t) = followed_by (c :: t) (k q s')) ->
  star_lazy pr prev (s ++ c :: t) k' =
  followed_by (c :: t) (star_lazy pr prev s k).
Proof.
  intros Hc Hk. revert prev; induction s as [|x s IH]; intros prev; simpl.
  - pose proof (Hk prev []) as E. simpl in E. rewrite E.
    destruct (k prev []) as [[rest cp]|]; simpl; auto.
    rewrite Hc. reflexivity.
  - pose proof (Hk prev (x :: s)) as E. simpl in E. rewrite E.
    destruct (k prev (x :: s)) as [[rest cp]|]; simpl; auto.
    destruct (pr x); auto.
Qed.

(** A match of a pattern that avoids [c] is the same before [c]. *)
Lemma m_framed (r : regex) :
  avoids f c r = true ->
  forall (p : option ascii) (s : text) (cp : caps) (k k' : cont),
  (forall q s' cp', k' q (s' ++ c :: t) cp' =
                    followed_by (c :: t) (k q s' cp')) ->
  m f r p (s ++ c :: t) cp k' = followed_by (c :: t) (m f r p s cp k).
Proof.
  induction r as [w|cs|cs|cs|a IHa b IHb|a IHa b IHb|a IHa|n a IHa| |a IHa];
    intros Hr p s cp k k' Hk; simpl in Hr; try discriminate Hr.
  - simpl. rewrite lit_framed by exact Hr.
    destruct (lit f w p s) as [[q s']|]; auto.
  - apply negb_true_iff in Hr. simpl. destruct s as [|x s]; simpl.
    + rewrite Hr. reflexivity.
    + destruct (mem f cs x); auto.
  - apply negb_true_iff in Hr. simpl. apply star_greedy_framed; auto.
  - apply negb_true_iff in Hr. simpl. apply star_lazy_framed; auto.
  - apply andb_true_iff in Hr as [Ha Hb]. simpl. apply IHa; auto.
  - apply andb_true_iff in Hr as [Ha Hb]. simpl.
    rewrite (IHa Ha p s cp k k' Hk), (IHb Hb p s cp k k' Hk).
    destruct (m f a p s cp k) as [[rest cp']|]; reflexivity.
  - simpl. rewrite (IHa Hr p s cp k k' Hk), (Hk p s cp).
    destruct (m f a p s cp k) as [[rest cp']|]; reflexivity.
  - simpl. apply IHa; auto. intros q s' cp'.
    rewrite taken_framed. apply Hk.
Qed.

Lemma match_at_framed (r : regex) (p : option ascii) (s : text) :
  avoids f c r = true ->
  match_at f r p (s ++ c :: t) = followed_by (c :: t) (match_at f r p s).
Proof. intros Hr. apply m_framed; auto. Qed.

Lemma match_nonempty_framed (r : regex) (p : option ascii) (s : text) :
  avoids f c r = true ->
  match_nonempty f r p (s ++ c :: t) =
  followed_by (c :: t) (match_nonempty f r p s).
Proof.
  intros Hr. apply m_framed; auto. intros q s' cp'.
  rewrite !length_app.
  replace (length s' + length (c :: t) <? length s + length (c :: t))
    with (length s' <? length s).
  - destruct (length s' <? length s); reflexivity.
  - destruct (length s' <? length s) eqn:E; symmetry.
    + apply Nat.ltb_lt in E. apply Nat.ltb_lt. lia.
    + apply Nat.ltb_ge in E. apply Nat.ltb_ge. lia.
Qed.

(** A substitution by a pattern that avoids [c] and matches nothing at
    [c] works on the text before [c] and on the text after it. *)
Lemma sub_go_framed (r : regex) (repl : text -> caps -> text) :
  avoids f c r = true -> wordb_free r = true ->
  (forall p, match_at f r p (c :: t) = None) ->
  forall s prev skip, skip <= length s ->
  sub_go f r repl prev (s ++ c :: t) skip =
  sub_go f r repl prev s skip ++ c :: sub f r repl t.
Proof.
  intros Hr Hw Hc.
  assert (Hnil : forall p, match_at f r p [] = None).
  { intros p. pose proof (match_at_framed r p [] Hr) as E. simpl in E.
    rewrite Hc in E. destruct (match_at f r p []) as [[rest cp]|]; auto.
    discriminate E. }
  induction s as [|x s IH]; intros prev skip Hs.
  - assert (skip = 0) by (simpl in Hs; lia). subst skip.
    change ([] ++ c :: t) with (c :: t). rewrite sub_go_cons, Hc.
    simpl. rewrite Hnil. simpl. f_equal. apply sub_go_blind, Hw.
  - destruct skip as [|n].
    + rewrite <- app_comm_cons, !sub_go_cons, app_comm_cons.
      rewrite match_at_framed, match_nonempty_framed by exact Hr.
      destruct (match_at f r prev (x :: s)) as [[rest cp]|];
        cbn [followed_by].
      * rewrite (taken_framed (x :: s) rest (c :: t)).
        pose proof (taken_length (x :: s) rest) as L.
        destruct (length (taken (x :: s) rest)) as [|n] eqn:E.
        -- destruct (match_nonempty f r prev (x :: s)) as [[rest2 cp2]|];
             cbn [followed_by].
           ++ rewrite (taken_framed (x :: s) rest2 (c :: t)).
              pose proof (taken_length (x :: s) rest2) as L2.
              rewrite IH by (simpl in L2; lia).
              rewrite <- !app_assoc. reflexivity.
           ++ rewrite IH by lia. rewrite <- !app_assoc. reflexivity.
        -- rewrite IH by (simpl in L; lia).
           rewrite <- !app_assoc. reflexivity.
      * rewrite IH by lia. reflexivity.
    + simpl. apply IH. simpl in Hs. lia.
Qed.

Lemma sub_framed (r : regex) (repl : text -> caps -> text) (s : text) :
  avoids f c r = true -> wordb_free r = true ->
  (forall p, match_at f r p (c :: t) = None) ->
  sub f r repl (s ++ c :: t) = sub f r repl s ++ c :: sub f r repl t.
Proof. intros Hr Hw Hc. apply sub_go_framed; auto. lia. Qed.

End Frame.

End FrameFacts.

Import FrameFacts.

Module BlockFacts.

Lemma line_feed_exact (x : ascii) : eq_lit no_flags nl x = true -> x = nl.
Proof. intros H. apply eqc_eq in H. auto. Qed.

(** Fewer than three line feeds: no run of blank lines. *)
Lemma few_line_feeds_clear (s : text) (p : option ascii) :
  count nl s < 3 -> no_match_in no_flags blank_lines_re p s [] = true.
Proof.
  revert p; induction s as [|x s IH]; intros p H; auto.
  cbn [no_match_in]. rewrite app_nil_r.
  assert (M : match_at no_flags blank_lines_re p (x :: s) = None).
  { unfold match_at. apply m_counts with (c := nl).
    - apply line_feed_exact.
    - intros q u s' cp' E Hu. exfalso.
      assert (E3 : min_count nl blank_lines_re = 3) by reflexivity.
      rewrite E3 in Hu. rewrite E, count_app in H. lia. }
  rewrite M. apply IH. rewrite count_cons in H. lia.
Qed.

Lemma collapse_few (s : text) :
  count nl s < 3 -> collapse_blank_lines s = s.
Proof.
  intros H. unfold collapse_blank_lines.
  rewrite <- (app_nil_r s) at 1. rewrite sub_pass.
  - apply app_nil_r.
  - reflexivity.
  - apply few_line_feeds_clear, H.
Qed.

(** A character that is no white space ends every run of blank lines. *)
Lemma collapse_framed (c : ascii) (s t : text) :
  avoids no_flags c blank_lines_re = true ->
  eq_lit no_flags nl c = false ->
  collapse_blank_lines (s ++ c :: t) =
  collapse_blank_lines s ++ c :: collapse_blank_lines t.
Proof.
  intros Ha Hc. unfold collapse_blank_lines. apply sub_framed; auto.
  intros p. unfold match_at, blank_lines_re, cat.
  apply first_letter_none, Hc.
Qed.

(** Lines that begin with an A and hold no line feed, each after one
    line feed, are kept. *)
Lemma collapse_statements (tails : list text) (x : text) :
  count nl x <= 1 -> Forall (fun s => count nl s = 0) tails ->
  collapse_blank_lines
    (x ++ flat_map (fun s => nl :: "A"%char :: s) tails) =
  x ++ flat_map (fun s => nl :: "A"%char :: s) tails.
Proof.
  revert x; induction tails as [|s tails IH]; intros x Hx H.
  - simpl. rewrite app_nil_r. apply collapse_few. lia.
  - inversion H as [|? ? Hs Ht]; subst.
    change (flat_map (fun s0 => nl :: "A"%char :: s0) (s :: tails))
      with ([nl] ++ ("A"%char :: s ++
              flat_map (fun s0 => nl :: "A"%char :: s0) tails)).
    rewrite app_assoc, collapse_framed by reflexivity.
    rewrite collapse_few, IH; auto; try lia.
    rewrite count_app. change (count nl [nl]) with 1. lia.
Qed.

Lemma count_none (c : ascii) (s : text) :
  Forall (fun x => x <> c) s -> count c s = 0.
Proof.
  induction 1 as [|x s Hx Hs IH]; auto.
  rewrite count_cons, IH. destruct (eqc c x) eqn:E; auto.
  apply eqc_eq in E. congruence.
Qed.

Lemma line_without_nl (l : text) :
  existsb (eqc nl) l = false -> Forall no_nl l.
Proof.
  induction l as [|x l IH]; simpl; intros H; constructor.
  - intros E. subst x. rewrite eqc_refl in H. discriminate.
  - apply IH. apply orb_false_iff in H. tauto.
Qed.

(** The records of a scan of the lines of a text hold no line feed. *)
Lemma records_without_nl (content : text) :
  Forall (record_all no_nl) (foreign_keys (scan (split_lines content))).
Proof.
  assert (H : state_all no_nl (scan (split_lines content))).
  { apply scan_all. eapply Forall_impl; [|apply split_lines_no_nl].
    apply line_without_nl. }
  apply H.
Qed.

Lemma statement_without_nl (fk : foreign_key) :
  record_all no_nl fk -> count nl (tl (fk_stmt fk)) = 0.
Proof.
  intros (A & B & C & D & E & F). unfold fk_stmt.
  change (qstr "ALTER TABLE `") with ("A"%char :: tl (qstr "ALTER TABLE `")).
  cbn [app tl]. rewrite !count_app.
  rewrite (count_none A), (count_none B), (count_none C), (count_none D),
    (count_none E), (count_none F).
  reflexivity.
Qed.

(** A statement to disable or enable keys does not pass a line feed; the
    two line feeds before the label end the text in which the rule of
    lines 174 and 175 finds its matches. *)
Lemma keys_framed (which w block : text) :
  avoids IGNORECASE nl (keys_re which) = true ->
  no_match_in IGNORECASE (keys_re which) None block [] = true ->
  sub IGNORECASE (keys_re which) (const []) (w ++ nl :: nl :: block) =
  sub IGNORECASE (keys_re which) (const []) w ++ nl :: nl :: block.
Proof.
  intros Ha Hb.
  assert (N : forall p t, match_at IGNORECASE (keys_re which) p (nl :: t)
                          = None).
  { intros p t. unfold match_at, keys_re, cat.
    apply first_letter_none. reflexivity. }
  rewrite sub_framed; auto. f_equal. f_equal.
  change (nl :: block) with ([] ++ nl :: block).
  rewrite sub_framed; auto. rewrite sub_nil_const. simpl. f_equal.
  rewrite <- (app_nil_r block) at 1. rewrite sub_pass; auto.
  rewrite sub_nil_const. apply app_nil_r.
Qed.

End BlockFacts.

Import BlockFacts.

(** Claim C7.  What the converter writes after the header is the text
    written by the scan, without its dangling commas, followed by the
    block of the records that the scan made, and passed through the last
    three rules.  Without record the block is empty: nothing is
    appended.  With records it is two line feeds, the label, a line feed
    and then, each after a line feed, one statement per record in the
    order of the records; the statement names the table, the
    constraint, the columns, the referenced table and columns and the
    actions of its record.  The label and the statements reach the end
    of the output as they are, when the rules of lines 174 and 175 find
    no statement to disable or to enable keys in them: of the block,
    only the two line feeds before the label take part in the last
    rules, with the text before them.  The order of the records is the
    order of the lines they were found on: the records of earlier lines
    come first.  For the sample with one foreign key the scan makes the
    one record of that key. *)
Theorem C7_foreign_keys_appended (input_file content : text)
  (lines1 lines2 : list text) :
  let st := scan (split_lines (rewrite_rules content)) in
  let written := cleanup_trailing_commas (join [nl] (new_lines st)) in
  let statement := fun fk =>
    qstr "ALTER TABLE `" ++ fk_table fk ++ qstr "` ADD CONSTRAINT `" ++
    fk_constraint fk ++ qstr "` FOREIGN KEY (" ++ fk_columns fk ++
    qstr ") REFERENCES `" ++ fk_ref_table fk ++ qstr "` (" ++
    fk_ref_columns fk ++ str ") " ++ fk_actions fk ++ str ";" in
  let labelled :=
    str "-- Foreign key constraints (added after table creation to avoid dependency issues)"
    ++ [nl] ++ flat_map (fun fk => nl :: statement fk) (foreign_keys st) in
  let block :=
    match foreign_keys st with
    | [] => []
    | _ :: _ => [nl; nl] ++ labelled
    end in
  convert_mysql_to_postgres input_file content =
    postgres_header input_file ++
    collapse_blank_lines
      (strip_enable_keys (strip_disable_keys (written ++ block))) /\
  (foreign_keys st <> [] ->
   no_match_in IGNORECASE (keys_re (str " DISABLE KEYS")) None labelled []
     = true ->
   no_match_in IGNORECASE (keys_re (str " ENABLE KEYS")) None labelled []
     = true ->
   convert_mysql_to_postgres input_file content =
     postgres_header input_file ++
     collapse_blank_lines
       (strip_enable_keys (strip_disable_keys written) ++ [nl; nl]) ++
     labelled) /\
  foreign_keys (scan (lines1 ++ lines2)) =
    foreign_keys (scan lines1) ++ recorded_for (scan lines1) lines2 /\
  foreign_keys (scan (split_lines (rewrite_rules fk_multi_line))) =
    [ForeignKey (str "t") (str "fk1") (qstr "`a`") (str "u") (qstr "`id`")
       (str "ON DELETE CASCADE")].
Proof.
  intros st written statement labelled block.
  assert (E : forall l, fk_statements l = fk_banner :: map fk_stmt l).
  { intros l. unfold fk_statements. rewrite fold_snoc_map. reflexivity. }
  assert (C : convert_mysql_to_postgres input_file content =
              postgres_header input_file ++
              collapse_blank_lines
                (strip_enable_keys (strip_disable_keys (written ++ block)))).
  { unfold convert_mysql_to_postgres, defer_constraints. fold st.
    fold written. f_equal. f_equal. f_equal. f_equal.
    unfold add_foreign_keys, block, labelled.
    destruct (foreign_keys st) as [|fk fks]; [symmetry; apply app_nil_r|].
    f_equal. rewrite E, join_cons, flat_map_concat_map, map_map.
    rewrite <- flat_map_concat_map. unfold fk_banner.
    rewrite <- !app_assoc. reflexivity. }
  split; [exact C|split; [|split]].
  - intros Hfk Hd He. rewrite C. f_equal.
    assert (B : block = nl :: nl :: labelled).
    { unfold block. destruct (foreign_keys st); [congruence | reflexivity]. }
    rewrite B. unfold strip_disable_keys, strip_enable_keys.
    rewrite keys_framed by (auto; reflexivity).
    rewrite keys_framed by (auto; reflexivity).
    set (w := sub IGNORECASE (keys_re (str " ENABLE KEYS")) (const []) _).
    assert (L : labelled =
      "-"%char ::
      (str "- Foreign key constraints (added after table creation to avoid dependency issues)"
       ++ [nl]) ++
      flat_map (fun s => nl :: "A"%char :: s)
        (map (fun fk => tl (fk_stmt fk)) (foreign_keys st))).
    { unfold labelled.
      rewrite (flat_map_concat_map _ (map _ _)), map_map.
      rewrite <- flat_map_concat_map. reflexivity. }
    rewrite L.
    change (w ++ nl :: nl :: "-"%char :: ?x)
      with (w ++ [nl; nl] ++ "-"%char :: x).
    rewrite app_assoc, collapse_framed by reflexivity.
    rewrite collapse_statements; auto.
    apply Forall_map. eapply Forall_impl; [|apply records_without_nl].
    intros fk. apply statement_without_nl.
  - rewrite scan_app. apply scan_from_split.
  - vm_compute. reflexivity.
Qed.

Lemma C7_foreign_keys_appended_witness :
  convert_mysql_to_postgres (str "dump.sql") fk_multi_line =
  postgres_header (str "dump.sql") ++ fk_multi_line_converted.
Proof.
  destruct (C7_foreign_keys_appended (str "dump.sql") fk_multi_line [] [])
    as (_ & H & _).
  rewrite H.
  - vm_compute. reflexivity.
  - vm_compute. discriminate.
  - vm_compute. reflexivity.
  - vm_compute. reflexivity.
Defined.
